(** * Dominant-colour extraction by k-means++ : a verification development

    Shallow embedding of [backend/src/app/api/colors.py]:
    [kmeans_plusplus_init], [kmeans] and the aggregation of
    [extract_colors_from_image], followed by the properties of the
    specification that concern them.

    Numbers.  The program computes on [np.float64].  The embedding keeps the
    IEEE 754 special values (the two infinities and NaN) and the way the
    arithmetic operations and comparisons treat them, and represents every
    finite value by an exact rational: rounding, overflow and the sign of
    zero are abstracted away.

    Library code.  [numpy] is not part of the repository.  The functions of
    it that the program calls ([np.argmin], [np.allclose], [np.unique],
    [Generator.integers], [Generator.choice], ...) are modelled after their
    documented behaviour; the bit generator itself is left abstract. *)

From Stdlib Require Import String Ascii.
From Stdlib Require Import List Bool Arith ZArith QArith Qabs Lia.
From Stdlib Require Import Permutation Sorted.
Import ListNotations.

(** ** Python exceptions and the error monad *)

Inductive exn : Type :=
| ValueError          (* raised by numpy on invalid arguments *)
| IndexError          (* subscript out of range *)
| UnboundLocalError.  (* a local variable read before assignment *)

Inductive result (A : Type) : Type :=
| Ok (a : A)
| Raise (e : exn).

Arguments Ok {A} a.
Arguments Raise {A} e.

Definition bind {A B : Type} (m : result A) (k : A -> result B) : result B :=
  match m with
  | Ok a => k a
  | Raise e => Raise e
  end.

Declare Scope result_scope.
Delimit Scope result_scope with result.
Notation "x <- m ;; k" := (bind m (fun x => k))
  (at level 61, m at next level, right associativity) : result_scope.
Notation "' p <- m ;; k" := (bind m (fun x => let 'p := x in k))
  (at level 61, p pattern, m at next level, right associativity) : result_scope.
Open Scope result_scope.

(** A list comprehension whose element expression may raise. *)
Fixpoint traverse {A B : Type} (f : A -> result B) (l : list A) : result (list B) :=
  match l with
  | [] => Ok []
  | a :: l' => b <- f a ;; bs <- traverse f l' ;; Ok (b :: bs)
  end.

(** [l[i]] for a non-negative index. *)
Definition getitem {A : Type} (l : list A) (i : nat) : result A :=
  match nth_error l i with
  | Some a => Ok a
  | None => Raise IndexError
  end.

(** ** [np.float64] *)

Module F64.

Inductive t : Type :=
| Fin (q : Q)       (* a finite value *)
| Inf (neg : bool)  (* +inf when [neg = false], -inf otherwise *)
| NaN.

Definition zero : t := Fin 0.
Definition one : t := Fin 1.
Definition of_nat (n : nat) : t := Fin (inject_Z (Z.of_nat n)).
Definition of_Z (z : Z) : t := Fin (inject_Z z).

Definition isnan (x : t) : bool :=
  match x with NaN => true | _ => false end.

Definition isfinite (x : t) : bool :=
  match x with Fin _ => true | _ => false end.

Definition Qltb (a b : Q) : bool := negb (Qle_bool b a).

Definition opp (x : t) : t :=
  match x with
  | Fin q => Fin (- q)
  | Inf s => Inf (negb s)
  | NaN => NaN
  end.

Definition add (x y : t) : t :=
  match x, y with
  | Fin a, Fin b => Fin (a + b)
  | Fin _, Inf s => Inf s
  | Inf s, Fin _ => Inf s
  | Inf s, Inf s' => if Bool.eqb s s' then Inf s else NaN
  | _, _ => NaN
  end.

Definition sub (x y : t) : t := add x (opp y).

Definition mul (x y : t) : t :=
  match x, y with
  | Fin a, Fin b => Fin (a * b)
  | Fin a, Inf s | Inf s, Fin a =>
      if Qeq_bool a 0 then NaN else Inf (xorb s (Qltb a 0))
  | Inf s, Inf s' => Inf (xorb s s')
  | _, _ => NaN
  end.

Definition div (x y : t) : t :=
  match x, y with
  | Fin a, Fin b =>
      if Qeq_bool b 0
      then if Qeq_bool a 0 then NaN else Inf (Qltb a 0)
      else Fin (a / b)
  | Fin _, Inf _ => Fin 0
  | Inf s, Fin b => Inf (xorb s (Qltb b 0))
  | _, _ => NaN
  end.

Definition abs (x : t) : t :=
  match x with
  | Fin q => Fin (Qabs q)
  | Inf _ => Inf false
  | NaN => NaN
  end.

(** Comparisons: every comparison with NaN is false. *)
Definition leb (x y : t) : bool :=
  match x, y with
  | Fin a, Fin b => Qle_bool a b
  | Fin _, Inf s => negb s
  | Inf s, Fin _ => s
  | Inf s, Inf s' => s || negb s'
  | _, _ => false
  end.

Definition ltb (x y : t) : bool :=
  match x, y with
  | Fin a, Fin b => Qltb a b
  | Fin _, Inf s => negb s
  | Inf s, Fin _ => s
  | Inf s, Inf s' => s && negb s'
  | _, _ => false
  end.

Definition geb (x y : t) : bool := leb y x.
Definition gtb (x y : t) : bool := ltb y x.

Definition eqb (x y : t) : bool :=
  match x, y with
  | Fin a, Fin b => Qeq_bool a b
  | Inf s, Inf s' => Bool.eqb s s'
  | _, _ => false
  end.

(** [np.minimum]: the smaller operand, NaN when either is NaN. *)
Definition minimum (x y : t) : t :=
  if isnan x then x else if isnan y then y else if ltb y x then y else x.

(** [x ** 2] *)
Definition square (x : t) : t := mul x x.

(** [a.sum()] of a one-dimensional array. *)
Definition sum (l : list t) : t := fold_left add l zero.

(** [a.cumsum()] *)
Fixpoint cumsum_from (acc : t) (l : list t) : list t :=
  match l with
  | [] => []
  | x :: l' => let acc' := add acc x in acc' :: cumsum_from acc' l'
  end.

Definition cumsum (l : list t) : list t :=
  match l with
  | [] => []
  | x :: l' => x :: cumsum_from x l'
  end.

(** [x.astype(int)]: the C conversion of a double to a 64-bit integer.  A
    finite value in range is truncated toward zero.  The result for NaN,
    an infinity or a value out of range is left undefined by C; the usual
    x86-64 outcome, the least 64-bit integer, is taken here. *)
Definition int64_min : Z := (- 2 ^ 63)%Z.

Definition astype_int (x : t) : Z :=
  match x with
  | Fin q =>
      let z := Z.quot (Qnum q) (Zpos (Qden q)) in
      if ((- 2 ^ 63 <=? z) && (z <? 2 ^ 63))%Z then z else int64_min
  | _ => int64_min
  end.

(** Propositional view of the finite values. *)
Definition finite (x : t) : Prop := isfinite x = true.

(** Equality of values: rational equality on the finite ones. *)
Definition equiv (x y : t) : Prop :=
  match x, y with
  | Fin a, Fin b => a == b
  | Inf s, Inf s' => s = s'
  | NaN, NaN => True
  | _, _ => False
  end.

End F64.

Abbreviation float64 := F64.t.

(** ** Pixels and centers: the rows of an [(n, 3)] array *)

Record rgb : Type := RGB { red : float64; green : float64; blue : float64 }.

Definition finite_rgb (p : rgb) : Prop :=
  F64.finite (red p) /\ F64.finite (green p) /\ F64.finite (blue p).

(** One row of [np.sum((pixels - c) ** 2, axis=1)]. *)
Definition sqdist (p c : rgb) : float64 :=
  F64.add
    (F64.add (F64.square (F64.sub (red p) (red c)))
             (F64.square (F64.sub (green p) (green c))))
    (F64.square (F64.sub (blue p) (blue c))).

(** [rows.mean(axis=0)]: the componentwise sum divided by the number of rows. *)
Definition mean_axis0 (rows : list rgb) : rgb :=
  let n := F64.of_nat (length rows) in
  RGB (F64.div (F64.sum (map red rows)) n)
      (F64.div (F64.sum (map green rows)) n)
      (F64.div (F64.sum (map blue rows)) n).

(** ** [np.random.Generator]

    The bit generator is abstract.  [rng_integers g n] stands for
    [g.integers(n)] with [0 < n] and [rng_random g] for [g.random()]; both
    return the advanced generator.  The two laws are the documented ranges of
    these draws. *)

Class NumpyRandom : Type := {
  Generator : Type;
  default_rng : Z -> Generator;
  rng_integers : Generator -> nat -> nat * Generator;
  rng_random : Generator -> Q * Generator;
  rng_integers_range :
    forall g n, (0 < n)%nat -> (fst (rng_integers g n) < n)%nat;
  rng_random_range :
    forall g, 0 <= fst (rng_random g) /\ fst (rng_random g) < 1
}.

Section Clustering.

Context {R : NumpyRandom}.

(** [rng.integers(high)]: numpy raises [ValueError] unless [0 < high]. *)
Definition integers (g : Generator) (high : nat) : result (nat * Generator) :=
  if (high =? 0)%nat then Raise ValueError else Ok (rng_integers g high).

(** [cdf.searchsorted(u, side='right')] on a non-decreasing array: the
    number of leading entries that are [<= u]. *)
Fixpoint searchsorted_right (cdf : list float64) (u : float64) : nat :=
  match cdf with
  | [] => 0
  | x :: cdf' => if F64.ltb u x then 0 else S (searchsorted_right cdf' u)
  end.

(** [sqrt(np.finfo(np.float64).eps)], that is [2 ** -26]. *)
Definition choice_atol : float64 := F64.Fin (1 # 67108864).

(** [rng.choice(a, p=p)] for an integer [a], one draw with replacement:
    the validation of [p] followed by inversion of the cumulative
    distribution. *)
Definition choice (g : Generator) (a : nat) (p : list float64)
  : result (nat * Generator) :=
  if (a =? 0)%nat then Raise ValueError
  else if negb (length p =? a)%nat then Raise ValueError
  else
    let p_sum := F64.sum p in
    if F64.isnan p_sum then Raise ValueError
    else if existsb (fun x => F64.ltb x F64.zero) p then Raise ValueError
    else if F64.gtb (F64.abs (F64.sub p_sum F64.one)) choice_atol
         then Raise ValueError
    else
      let cdf := F64.cumsum p in
      let cdf := map (fun x => F64.div x (last cdf F64.NaN)) cdf in
      let '(u, g') := rng_random g in
      Ok (searchsorted_right cdf (F64.Fin u), g').

(** *** [kmeans_plusplus_init] *)

(** [np.min([np.sum((pixels - c) ** 2, axis=1) for c in centers], axis=0)]
    at one pixel: the least squared distance to a chosen center.  [centers]
    is never empty here. *)
Definition min_sqdist (centers : list rgb) (p : rgb) : float64 :=
  match centers with
  | [] => F64.NaN
  | c :: cs => fold_left (fun m c' => F64.minimum m (sqdist p c')) cs (sqdist p c)
  end.

Definition nearest_distances (pixels centers : list rgb) : list float64 :=
  map (min_sqdist centers) pixels.

(** The body of [for _ in range(1, n_clusters)], run [iters] times. *)
Fixpoint init_loop (pixels : list rgb) (n_samples iters : nat)
         (centers : list rgb) (g : Generator)
  : result (list rgb * Generator) :=
  match iters with
  | O => Ok (centers, g)
  | S iters' =>
      let distances := nearest_distances pixels centers in
      let total := F64.sum distances in
      let probabilities := map (fun d => F64.div d total) distances in
      '(next_idx, g') <- choice g n_samples probabilities ;;
      c <- getitem pixels next_idx ;;
      init_loop pixels n_samples iters' (centers ++ [c]) g'
  end.

Definition kmeans_plusplus_init (pixels : list rgb) (n_clusters : nat)
           (g : Generator) : result (list rgb * Generator) :=
  let n_samples := length pixels in
  '(first_idx, g') <- integers g n_samples ;;
  c <- getitem pixels first_idx ;;
  init_loop pixels n_samples (n_clusters - 1) [c] g'.

(** *** [kmeans] *)

(** [np.argmin] of a one-dimensional array: a linear scan that keeps the
    first least entry and stops at the first NaN, which counts as least. *)
Fixpoint argmin_from (l : list float64) (i : nat) (mp : float64) (best : nat)
  : nat :=
  match l with
  | [] => best
  | x :: l' =>
      if negb (F64.leb mp x)
      then if F64.isnan x then i else argmin_from l' (S i) x i
      else argmin_from l' (S i) mp best
  end.

Definition argmin (l : list float64) : nat :=
  match l with
  | [] => 0
  | x :: l' => if F64.isnan x then 0 else argmin_from l' 1 x 0
  end.

(** [distances = np.array([np.sum((pixels - c) ** 2, axis=1) for c in centers])]
    has one row per center and one column per pixel;
    [np.argmin(distances, axis=0)] reduces each column.  Column [i] holds
    the squared distances of pixel [i] to the centers, in center order. *)
Definition distances_to (centers : list rgb) (p : rgb) : list float64 :=
  map (fun c => sqdist p c) centers.

Definition assign (pixels centers : list rgb) : list nat :=
  map (fun p => argmin (distances_to centers p)) pixels.

(** [pixels[labels == k]] *)
Definition members (pixels : list rgb) (labels : list nat) (k : nat)
  : list rgb :=
  map fst (filter (fun pl => (snd pl =? k)%nat) (combine pixels labels)).

(** [np.any(labels == k)] *)
Definition any_label (labels : list nat) (k : nat) : bool :=
  existsb (fun l => (l =? k)%nat) labels.

Definition new_center (pixels : list rgb) (labels : list nat)
           (centers : list rgb) (k : nat) : result rgb :=
  if any_label labels k
  then Ok (mean_axis0 (members pixels labels k))
  else getitem centers k.

Definition update (pixels : list rgb) (labels : list nat)
           (centers : list rgb) (n_clusters : nat) : result (list rgb) :=
  traverse (new_center pixels labels centers) (seq 0 n_clusters).

(** [np.isclose(a, b)] with the default [rtol=1e-05], [atol=1e-08] and
    [equal_nan=False]. *)
Definition rtol : float64 := F64.Fin (1 # 100000).
Definition atol : float64 := F64.Fin (1 # 100000000).

Definition isclose (a b : float64) : bool :=
  (F64.leb (F64.abs (F64.sub a b))
           (F64.add atol (F64.mul rtol (F64.abs b)))
   && F64.isfinite b)
  || F64.eqb a b.

Definition isclose_rgb (a b : rgb) : bool :=
  isclose (red a) (red b) && isclose (green a) (green b)
  && isclose (blue a) (blue b).

Fixpoint all_isclose (a b : list rgb) : bool :=
  match a, b with
  | x :: a', y :: b' => isclose_rgb x y && all_isclose a' b'
  | _, _ => true
  end.

(** [np.allclose(a, b)] on two arrays of rows.  Arrays of equal shape are
    compared entry by entry.  The only other pair of shapes the program can
    build is [(1, 3)] against [(0,)], when [n_clusters = 0], which numpy
    refuses to broadcast. *)
Definition allclose (a b : list rgb) : result bool :=
  if (length a =? length b)%nat then Ok (all_isclose a b)
  else Raise ValueError.

(** The variables of the loop of [kmeans].  [labels] is unbound until the
    first iteration has run.  [iterations] is a ghost counter of the
    iterations started; the program does not read it. *)
Record loop_state : Type := LoopState {
  centers_of : list rgb;
  labels_of : option (list nat);
  iterations_of : nat
}.

(** [for _ in range(max_iterations)], with [remaining] iterations left. *)
Fixpoint kmeans_loop (pixels : list rgb) (n_clusters remaining : nat)
         (st : loop_state) : result loop_state :=
  match remaining with
  | O => Ok st
  | S remaining' =>
      let centers := centers_of st in
      let labels := assign pixels centers in
      new_centers <- update pixels labels centers n_clusters ;;
      converged <- allclose centers new_centers ;;
      let n := S (iterations_of st) in
      if (converged : bool)
      then Ok (LoopState centers (Some labels) n)
      else kmeans_loop pixels n_clusters remaining'
                       (LoopState new_centers (Some labels) n)
  end.

(** [kmeans] up to its [return] statement. *)
Definition kmeans_run (pixels : list rgb) (n_clusters max_iterations : nat)
           (random_state : Z) : result loop_state :=
  let rng := default_rng random_state in
  '(centers, _) <- kmeans_plusplus_init pixels n_clusters rng ;;
  kmeans_loop pixels n_clusters max_iterations (LoopState centers None 0).

Definition kmeans (pixels : list rgb) (n_clusters max_iterations : nat)
           (random_state : Z) : result (list rgb * list nat) :=
  st <- kmeans_run pixels n_clusters max_iterations random_state ;;
  match labels_of st with
  | Some labels => Ok (centers_of st, labels)
  | None => Raise UnboundLocalError
  end.

(** The default arguments of [kmeans]. *)
Definition default_max_iterations : nat := 100.
Definition default_random_state : Z := 42%Z.

End Clustering.

(** ** [extract_colors_from_image]: aggregation *)

Record ExtractedColor : Type := mkExtractedColor {
  hex : string;
  percentage : float64
}.

(** [np.unique(labels, return_counts=True)]: the distinct labels in
    increasing order, and how often each occurs. *)
Definition unique (labels : list nat) : list nat :=
  filter (fun v => existsb (Nat.eqb v) labels) (seq 0 (S (list_max labels))).

Definition unique_counts (labels : list nat) : list nat :=
  map (count_occ Nat.eq_dec labels) (unique labels).

(** [cluster_id in unique] *)
Definition contains (l : list nat) (v : nat) : bool := existsb (Nat.eqb v) l.

(** [np.where(unique == cluster_id)[0][0]]: the first position of
    [cluster_id]; subscripting the empty array of positions raises. *)
Fixpoint first_index (l : list nat) (v : nat) : result nat :=
  match l with
  | [] => Raise IndexError
  | x :: l' => if (x =? v)%nat then Ok O
               else i <- first_index l' v ;; Ok (S i)
  end.

(** [max(0, min(255, r))] *)
Definition clamp (r : Z) : Z := Z.max 0 (Z.min 255 r).

Definition hex_digit (d : Z) : ascii :=
  nth (Z.to_nat d) (list_ascii_of_string "0123456789abcdef") "0"%char.

(** [f'{v:02x}'] for [0 <= v <= 255], the range [clamp] leaves: exactly two
    digits. *)
Definition format_02x (v : Z) : string :=
  String (hex_digit (v / 16)) (String (hex_digit (v mod 16)) EmptyString).

(** [f'#{r:02x}{g:02x}{b:02x}'] *)
Definition hex_color (r g b : Z) : string :=
  ("#" ++ format_02x r ++ format_02x g ++ format_02x b)%string.

(** The percentage of one cluster (lines 115-119). *)
Definition cluster_percentage (uniq counts : list nat) (total_pixels : nat)
           (cluster_id : nat) : result float64 :=
  if contains uniq cluster_id
  then idx <- first_index uniq cluster_id ;;
       count <- getitem counts idx ;;
       Ok (F64.mul (F64.div (F64.of_nat count) (F64.of_nat total_pixels))
                   (F64.of_Z 100))
  else Ok F64.zero.

(** The body of [for cluster_id in range(num_colors)]. *)
Definition extract_one (centers : list rgb) (uniq counts : list nat)
           (total_pixels : nat) (cluster_id : nat) : result ExtractedColor :=
  c <- getitem centers cluster_id ;;
  let r := clamp (F64.astype_int (red c)) in
  let g := clamp (F64.astype_int (green c)) in
  let b := clamp (F64.astype_int (blue c)) in
  pct <- cluster_percentage uniq counts total_pixels cluster_id ;;
  Ok (mkExtractedColor (hex_color r g b) pct).

(** [results.sort(key=lambda x: x.percentage, reverse=True)]: a stable sort
    into non-increasing key order, deciding with [<] on the keys as Python
    does.  Here by insertion: an entry goes behind every earlier entry whose
    key is not smaller. *)
Fixpoint insert_desc (x : ExtractedColor) (l : list ExtractedColor)
  : list ExtractedColor :=
  match l with
  | [] => [x]
  | y :: l' =>
      if F64.ltb (percentage y) (percentage x) then x :: y :: l'
      else y :: insert_desc x l'
  end.

Definition sort_desc (l : list ExtractedColor) : list ExtractedColor :=
  fold_left (fun acc x => insert_desc x acc) l [].

(** Lines 100-121: the list [results] before it is sorted. *)
Definition aggregate (centers : list rgb) (labels : list nat)
           (num_colors : nat) : result (list ExtractedColor) :=
  let uniq := unique labels in
  let counts := unique_counts labels in
  let total_pixels := length labels in
  traverse (extract_one centers uniq counts total_pixels) (seq 0 num_colors).

Section Extraction.

Context {R : NumpyRandom}.

(** [extract_colors_from_image] from line 97 on.  [pixels] is the flat
    array of line 95, built from the resized RGB image. *)
Definition extract_colors_from_image (pixels : list rgb) (num_colors : nat)
  : result (list ExtractedColor) :=
  '(centers, labels) <- kmeans pixels num_colors default_max_iterations
                               default_random_state ;;
  results <- aggregate centers labels num_colors ;;
  Ok (sort_desc results).

End Extraction.

(** ** The endpoint [extract_colors]

    PIL is not part of the repository and [extract_colors_from_image] hands
    the image to it at once.  [image_open] stands for
    [Image.open(BytesIO(contents))] and [load_pixels] for lines 86 to 95:
    the resize to 150 columns, the conversion to RGB and the flattening into
    an array of rows.  Either may raise; [None] stands for any exception.
    The rows come from an array of unsigned bytes, so every component is
    between 0 and 255: that is the one law. *)

(** A finite value between two bounds, and a row whose components are. *)
Definition in_range (lo hi : Q) (x : float64) : Prop :=
  match x with F64.Fin q => lo <= q <= hi | _ => False end.

Definition rgb_in_range (lo hi : Q) (p : rgb) : Prop :=
  in_range lo hi (red p) /\ in_range lo hi (green p) /\
  in_range lo hi (blue p).

Class ImageLibrary : Type := {
  Image : Type;
  image_open : list Byte.byte -> option Image;
  load_pixels : Image -> option (list rgb);
  load_pixels_range :
    forall image pixels,
      load_pixels image = Some pixels -> Forall (rgb_in_range 0 255) pixels
}.

(** What the endpoint answers: the response model, or an [HTTPException]. *)
Inductive http_result : Type :=
| ColorExtractionResponse (colors : list ExtractedColor)
| HTTPException (status_code : nat) (detail : string).

(** [file.content_type and file.content_type.startswith('image/')], the
    negation of the test at line 157.  A missing content type is [None]. *)
Definition is_image_content_type (content_type : option string) : bool :=
  match content_type with
  | None => false
  | Some s => negb (String.eqb s "") && String.prefix "image/" s
  end.

Section Endpoint.

Context {R : NumpyRandom} {P : ImageLibrary}.

(** The body of [extract_colors].  [num_colors] has passed the validation of
    the framework ([ge=2], [le=10]); logging is left out. *)
Definition extract_colors (content_type : option string)
           (contents : list Byte.byte) (num_colors : nat) : http_result :=
  if negb (is_image_content_type content_type)
  then HTTPException 400 "File must be an image"
  else
    match image_open contents with
    | None => HTTPException 400 "Failed to process image"
    | Some image =>
        match load_pixels image with
        | None => HTTPException 400 "Failed to process image"
        | Some pixels =>
            match extract_colors_from_image pixels num_colors with
            | Ok colors => ColorExtractionResponse colors
            | Raise _ => HTTPException 400 "Failed to process image"
            end
        end
    end.

End Endpoint.

(** An image library over images that are their own array of rows, for
    running the endpoint: a content decodes when it is not empty, to the
    image given here. *)
Definition fixed_image_library (pixels : list rgb)
           (H : Forall (rgb_in_range 0 255) pixels) : ImageLibrary.
Proof.
  refine {| Image := unit;
            image_open := fun contents =>
              match contents with [] => None | _ => Some tt end;
            load_pixels := fun _ => Some pixels |}.
  intros _ px' E. inversion E; subst. exact H.
Defined.

(** ** A concrete generator

    A counter whose draws are fixed by its value: [integers] yields the
    counter reduced modulo the bound, [random] cycles through tenths.  It
    serves to run the program on concrete inputs. *)

Definition counter_random (g : nat) : Q * nat :=
  (inject_Z (Z.of_nat (g mod 10)) / 10, S g).

#[refine]
Instance counter_rng : NumpyRandom := {|
  Generator := nat;
  default_rng := Z.abs_nat;
  rng_integers := fun g n => (g mod n, S g);
  rng_random := counter_random
|}.
Proof.
  - intros g n Hn; simpl. apply Nat.mod_upper_bound. lia.
  - intros g. unfold counter_random, fst.
    assert (H : (0 <= Z.of_nat (g mod 10) < 10)%Z).
    { pose proof (Nat.mod_upper_bound g 10). lia. }
    generalize dependent (Z.of_nat (g mod 10)). intros z H.
    split.
    + apply Qle_shift_div_l; [reflexivity|]. rewrite Qmult_0_l.
      change 0 with (inject_Z 0). rewrite <- Zle_Qle. lia.
    + apply Qlt_shift_div_r; [reflexivity|]. rewrite Qmult_1_l.
      change 10 with (inject_Z 10). rewrite <- Zlt_Qlt. lia.
Defined.

(** A second generator, with a state of another shape: the seed it was
    built from and the number of draws made so far.  It hands out the
    numbers [counter_rng] does. *)
#[refine]
Instance tally_rng : NumpyRandom := {|
  Generator := nat * nat;
  default_rng := fun seed => (Z.abs_nat seed, 0%nat);
  rng_integers := fun g n => ((fst g + snd g) mod n, (fst g, S (snd g)));
  rng_random := fun g =>
    (fst (counter_random (fst g + snd g)), (fst g, S (snd g)))
|}.
Proof.
  - intros g n Hn; simpl. apply Nat.mod_upper_bound. lia.
  - intros g. exact (rng_random_range (NumpyRandom := counter_rng)
                       (fst g + snd g)%nat).
Defined.

(** Pixels with integer components, as the RGB image supplies them. *)
Definition px (r g b : Z) : rgb := RGB (F64.of_Z r) (F64.of_Z g) (F64.of_Z b).

(** ** Vocabulary of the statements *)

(** A finite value that is a rational zero. *)
Definition is_zero (x : float64) : Prop :=
  match x with F64.Fin q => q == 0 | _ => False end.

(** A finite value that is not negative. *)
Definition nonneg (x : float64) : Prop :=
  match x with F64.Fin q => 0 <= q | _ => False end.

(** One iteration of the loop of [kmeans] that does not end it: the update
    phase yields [c'] from [c] and the convergence test fails. *)
Definition lloyd_step (pixels : list rgb) (k : nat) (c c' : list rgb) : Prop :=
  update pixels (assign pixels c) c k = Ok c' /\ allclose c c' = Ok false.

(** [j] such iterations in a row. *)
Inductive lloyd_steps (pixels : list rgb) (k : nat)
  : nat -> list rgb -> list rgb -> Prop :=
| steps_O : forall c, lloyd_steps pixels k 0 c c
| steps_S : forall j c c' c'',
    lloyd_step pixels k c c' -> lloyd_steps pixels k j c' c'' ->
    lloyd_steps pixels k (S j) c c''.

(** The tolerance of [np.isclose] between two finite values:
    [|a - b| <= atol + rtol * |b|]. *)
Definition within_tolerance (a b : float64) : Prop :=
  match a, b with
  | F64.Fin x, F64.Fin y =>
      Qabs (x - y) <= (1 # 100000000) + (1 # 100000) * Qabs y
  | _, _ => False
  end.

Definition within_tolerance_rgb (c c' : rgb) : Prop :=
  within_tolerance (red c) (red c') /\
  within_tolerance (green c) (green c') /\
  within_tolerance (blue c) (blue c').

(** The percentage of a cluster as a rational. *)
Definition share (labels : list nat) (i : nat) : Q :=
  inject_Z (Z.of_nat (count_occ Nat.eq_dec labels i))
  / inject_Z (Z.of_nat (length labels)) * inject_Z 100.

(** The rational a finite value stands for. *)
Definition qval (x : float64) : Q :=
  match x with F64.Fin q => q | _ => 0 end.

Definition Qsum (l : list Q) : Q := fold_right Qplus 0 l.

(** Non-increasing order of the percentages. *)
Definition desc (a b : ExtractedColor) : Prop :=
  F64.leb (percentage b) (percentage a) = true.

(** Reading back a colour written by [hex_color]: the value of a lowercase
    hexadecimal digit, of two digits, and of ["#rrggbb"]. *)
Fixpoint index_ascii (c : ascii) (l : list ascii) (i : Z) : option Z :=
  match l with
  | [] => None
  | x :: l' => if Ascii.eqb x c then Some i else index_ascii c l' (i + 1)%Z
  end.

Definition hex_value (c : ascii) : option Z :=
  index_ascii c (list_ascii_of_string "0123456789abcdef") 0%Z.

Definition parse_02x (s : string) : option (Z * string) :=
  match s with
  | String h (String l rest) =>
      match hex_value h, hex_value l with
      | Some a, Some b => Some ((16 * a + b)%Z, rest)
      | _, _ => None
      end
  | _ => None
  end.

Definition parse_hex_color (s : string) : option (Z * Z * Z) :=
  match s with
  | String "#" s1 =>
      match parse_02x s1 with
      | Some (r, s2) =>
          match parse_02x s2 with
          | Some (g, s3) =>
              match parse_02x s3 with
              | Some (b, EmptyString) => Some (r, g, b)
              | _ => None
              end
          | None => None
          end
      | None => None
      end
  | _ => None
  end.

(** [w] has the colour of the center [c]: their squared distance is zero. *)
Definition at_centre (c w : rgb) : bool := F64.eqb (sqdist w c) F64.zero.

(** Pixels of pairwise different colours. *)
Definition distinct_colours (ws : list rgb) : Prop :=
  ForallOrdPairs (fun a b => ~ is_zero (sqdist b a)) ws.

(** The image holds [k] pixels of pairwise different colours. *)
Definition has_colours (pixels : list rgb) (k : nat) : Prop :=
  exists ws, incl ws pixels /\ distinct_colours ws /\ length ws = k.

(** The entries that report the percentage [v]. *)
Definition same_percentage (v : float64) (e : ExtractedColor) : bool :=
  F64.eqb (percentage e) v.

(** The total squared distance of the pixels to the centers their labels
    name (the inertia of a clustering), as a rational. *)
Definition qdist (p c : rgb) : Q := qval (sqdist p c).

Definition label_cost (centers : list rgb) (pl : rgb * nat) : Q :=
  match nth_error centers (snd pl) with
  | Some c => qdist (fst pl) c
  | None => 0
  end.

Definition inertia (pixels : list rgb) (labels : list nat)
           (centers : list rgb) : Q :=
  Qsum (map (label_cost centers) (combine pixels labels)).

(** The share of one cluster in the inertia. *)
Definition cluster_cost (pixels : list rgb) (labels : list nat)
           (centers : list rgb) (j : nat) : Q :=
  match nth_error centers j with
  | Some c => Qsum (map (fun p => qdist p c) (members pixels labels j))
  | None => 0
  end.

(** What a run of [kmeans] asks of its generator: the index of
    [rng.integers(n_samples)], then one uniform number for each
    [rng.choice].  [randoms g j] are the next [j] uniform numbers of [g], and
    [draws seed n j] the index and the [j] numbers that the generator seeded
    with [seed] hands out. *)
Fixpoint randoms {R : NumpyRandom} (g : Generator) (j : nat) : list Q :=
  match j with
  | O => []
  | S j' => fst (rng_random g) :: randoms (snd (rng_random g)) j'
  end.

Definition draws {R : NumpyRandom} (seed : Z) (n j : nat) : nat * list Q :=
  (fst (rng_integers (default_rng seed) n),
   randoms (snd (rng_integers (default_rng seed) n)) j).

(** A component of an RGB image: an integer between 0 and 255, what
    [np.array(img)] holds before [astype(float)].  On rows of such
    components the squared distances and the sums the program forms are
    integers that [float64] holds exactly. *)
Definition is_uint8 (x : float64) : Prop :=
  exists n : Z, (0 <= n <= 255)%Z /\ x = F64.of_Z n.

Definition uint8_rgb (p : rgb) : Prop :=
  is_uint8 (red p) /\ is_uint8 (green p) /\ is_uint8 (blue p).

(** ** Sample inputs *)

(** An image of a single colour. *)
Definition uniform_image : list rgb := repeat (px 10 10 10) 3.

Definition five_pixels : list rgb :=
  [px 0 0 0; px 1 0 0; px 5 0 0; px 6 0 0; px 20 0 0].

(** Ten red pixels and five blue ones. *)
Definition two_colour_image : list rgb :=
  repeat (px 255 0 0) 10 ++ repeat (px 0 0 255) 5.

(** A thousand pixels, white but for one. *)
Definition near_white_image : list rgb :=
  px 254 255 255 :: repeat (px 255 255 255) 999.

(** What the extraction returns on [two_colour_image]. *)
Definition two_colours_extracted : list ExtractedColor :=
  [mkExtractedColor "#ff0000" (F64.Fin (1000 # 15));
   mkExtractedColor "#0000ff" (F64.Fin (500 # 15))].

(** Five red pixels and five blue ones. *)
Definition balanced_image : list rgb :=
  repeat (px 255 0 0) 5 ++ repeat (px 0 0 255) 5.

(** What the extraction returns on [balanced_image]: two ties. *)
Definition balanced_extracted : list ExtractedColor :=
  [mkExtractedColor "#ff0000" (F64.Fin (500 # 10));
   mkExtractedColor "#0000ff" (F64.Fin (500 # 10))].

(** * Properties *)

(** ** The error monad *)

Lemma bind_Ok : forall (A B : Type) (m : result A) (k : A -> result B) (b : B),
  bind m k = Ok b -> exists a, m = Ok a /\ k a = Ok b.
Proof.
  intros A B [a|e] k b H; simpl in H; [eauto | discriminate].
Qed.

Ltac inv_bind H :=
  let a := fresh "a" in
  let Ha := fresh "H" a in
  apply bind_Ok in H; destruct H as (a & Ha & H).

Lemma traverse_length : forall (A B : Type) (f : A -> result B) l bs,
  traverse f l = Ok bs -> length bs = length l.
Proof.
  induction l as [|a l IH]; simpl; intros bs H.
  - inversion H; reflexivity.
  - inv_bind H. inv_bind H. inversion H; subst; simpl.
    f_equal; eauto.
Qed.

Lemma traverse_nth_error : forall (A B : Type) (f : A -> result B) l bs i a,
  traverse f l = Ok bs -> nth_error l i = Some a ->
  exists b, nth_error bs i = Some b /\ f a = Ok b.
Proof.
  induction l as [|x l IH]; simpl; intros bs i a H Hi.
  - destruct i; discriminate.
  - inv_bind H. inv_bind H. inversion H; subst; clear H.
    destruct i as [|i]; simpl in *.
    + inversion Hi; subst; eauto.
    + eauto.
Qed.

Lemma traverse_Ok : forall (A B : Type) (f : A -> result B) l,
  (forall a, In a l -> exists b, f a = Ok b) ->
  exists bs, traverse f l = Ok bs.
Proof.
  induction l as [|x l IH]; simpl; intros H.
  - eauto.
  - destruct (H x) as [b Hb]; auto.
    destruct IH as [bs Hbs]; auto.
    rewrite Hb, Hbs; simpl; eauto.
Qed.

Lemma getitem_Ok : forall (A : Type) (l : list A) i a,
  getitem l i = Ok a <-> nth_error l i = Some a.
Proof.
  intros A l i a; unfold getitem.
  destruct (nth_error l i); split; intros H; inversion H; reflexivity.
Qed.

Lemma getitem_lt : forall (A : Type) (l : list A) i,
  (i < length l)%nat -> exists a, getitem l i = Ok a.
Proof.
  intros A l i H; unfold getitem.
  destruct (nth_error l i) eqn:E; eauto.
  apply nth_error_None in E; lia.
Qed.

(** ** Arithmetic on [float64] *)

Lemma Qltb_lt : forall a b, F64.Qltb a b = true <-> a < b.
Proof.
  intros a b; unfold F64.Qltb.
  rewrite negb_true_iff, <- not_true_iff_false, Qle_bool_iff.
  split; [apply Qnot_le_lt | apply Qlt_not_le].
Qed.

Lemma Qltb_ge : forall a b, F64.Qltb a b = false <-> b <= a.
Proof.
  intros a b; unfold F64.Qltb.
  rewrite negb_false_iff, Qle_bool_iff; reflexivity.
Qed.

Lemma is_zero_nonneg : forall x, is_zero x -> nonneg x.
Proof.
  intros [q| |]; simpl; try tauto. intros ->; apply Qle_refl.
Qed.

Lemma nonneg_finite : forall x, nonneg x -> F64.finite x.
Proof. intros [q| |]; simpl; try tauto; reflexivity. Qed.

Lemma finite_inv : forall x, F64.finite x -> exists q, x = F64.Fin q.
Proof. intros [q| |] H; try discriminate; eauto. Qed.

Lemma square_nonneg : forall x, F64.finite x -> nonneg (F64.square x).
Proof.
  intros x H; apply finite_inv in H; destruct H as [q ->]; simpl.
  destruct (Qlt_le_dec q 0) as [Hq|Hq].
  - setoid_replace (q * q) with ((- q) * (- q)) by ring.
    apply Qmult_le_0_compat; apply (Qopp_le_compat q 0), Qlt_le_weak, Hq.
  - apply Qmult_le_0_compat; assumption.
Qed.

Lemma sub_finite : forall x y,
  F64.finite x -> F64.finite y -> F64.finite (F64.sub x y).
Proof.
  intros x y Hx Hy; apply finite_inv in Hx, Hy.
  destruct Hx as [a ->], Hy as [b ->]; reflexivity.
Qed.

Lemma add_nonneg : forall x y, nonneg x -> nonneg y -> nonneg (F64.add x y).
Proof.
  intros [a| |] [b| |]; simpl; try tauto.
  intros Ha Hb. replace 0 with (0 + 0) by reflexivity.
  apply Qplus_le_compat; assumption.
Qed.

Lemma sqdist_nonneg : forall p c,
  finite_rgb p -> finite_rgb c -> nonneg (sqdist p c).
Proof.
  intros p c (Hr & Hg & Hb) (Hr' & Hg' & Hb'); unfold sqdist.
  repeat apply add_nonneg; apply square_nonneg, sub_finite; assumption.
Qed.

Lemma sqdist_self : forall p, finite_rgb p -> is_zero (sqdist p p).
Proof.
  intros [r g b] (Hr & Hg & Hb); simpl in *.
  apply finite_inv in Hr, Hg, Hb.
  destruct Hr as [x ->], Hg as [y ->], Hb as [z ->]; simpl. ring.
Qed.

Lemma minimum_nonneg : forall x y,
  nonneg x -> nonneg y -> nonneg (F64.minimum x y).
Proof.
  intros [a| |] [b| |]; simpl; try tauto.
  intros Ha Hb; unfold F64.minimum; simpl.
  destruct (F64.Qltb b a); assumption.
Qed.

Lemma min_sqdist_nonneg : forall centers p,
  centers <> [] -> Forall finite_rgb centers -> finite_rgb p ->
  nonneg (min_sqdist centers p).
Proof.
  intros [|c cs] p Hne Hc Hp; [congruence|]; simpl.
  inversion Hc as [|? ? Hc0 Hcs]; subst.
  assert (H0 : nonneg (sqdist p c)) by (apply sqdist_nonneg; assumption).
  clear Hc Hne. revert H0; generalize (sqdist p c) as m.
  induction Hcs as [|c' cs' Hc' _ IH]; simpl; intros m Hm; [assumption|].
  apply IH.
  apply minimum_nonneg; [assumption | apply sqdist_nonneg; assumption].
Qed.

Lemma nearest_distances_nonneg : forall pixels centers,
  centers <> [] -> Forall finite_rgb centers -> Forall finite_rgb pixels ->
  Forall nonneg (nearest_distances pixels centers).
Proof.
  intros pixels centers Hne Hc Hp; unfold nearest_distances.
  induction Hp; simpl; constructor; auto using min_sqdist_nonneg.
Qed.

(** The sum of non-negative values is a non-negative value, and it is zero
    only when every summand is. *)
Lemma fold_add_nonneg : forall l a,
  Forall nonneg l -> 0 <= a ->
  exists s, fold_left F64.add l (F64.Fin a) = F64.Fin s /\ a <= s /\
            (s == 0 -> Forall is_zero l).
Proof.
  induction l as [|x l IH]; simpl; intros a Hl Ha.
  - exists a; repeat split; [apply Qle_refl | constructor].
  - inversion Hl as [|? ? Hx Hl']; subst.
    destruct x as [q| |]; simpl in Hx; try tauto.
    assert (Haq : 0 <= a + q).
    { replace 0 with (0 + 0) by reflexivity.
      apply Qplus_le_compat; assumption. }
    destruct (IH (a + q) Hl' Haq) as (s & Hs & Hle & Hz).
    exists s; simpl; split; [assumption|]; split.
    + apply Qle_trans with (a + q); [|assumption].
      rewrite <- (Qplus_0_r a) at 1. apply Qplus_le_compat;
        [apply Qle_refl | assumption].
    + intros Hs0. constructor; [|auto].
      simpl. apply Qle_antisym; [|assumption].
      apply Qle_trans with (a + q).
      * rewrite <- (Qplus_0_l q) at 1. apply Qplus_le_compat;
          [assumption | apply Qle_refl].
      * rewrite <- Hs0; assumption.
Qed.

Lemma sum_nonneg : forall l,
  Forall nonneg l ->
  nonneg (F64.sum l) /\ (is_zero (F64.sum l) -> Forall is_zero l).
Proof.
  intros l Hl; unfold F64.sum, F64.zero.
  destruct (fold_add_nonneg l 0 Hl (Qle_refl 0)) as (s & -> & Hle & Hz).
  simpl; auto.
Qed.

Lemma div_zero_zero : forall x y, is_zero x -> is_zero y -> F64.div x y = F64.NaN.
Proof.
  intros [a| |] [b| |]; simpl; try tauto; intros Ha Hb.
  apply Qeq_bool_iff in Ha, Hb. rewrite Ha, Hb; reflexivity.
Qed.

Lemma fold_add_NaN : forall l, fold_left F64.add l F64.NaN = F64.NaN.
Proof. induction l; simpl; auto. Qed.

Lemma sum_NaN : forall l,
  l <> [] -> Forall (eq F64.NaN) l -> F64.sum l = F64.NaN.
Proof.
  intros [|x l] Hne Hl; [congruence|].
  inversion Hl; subst; unfold F64.sum; simpl. apply fold_add_NaN.
Qed.

Section SeedingFacts.

Context {R : NumpyRandom}.

(** [rng.choice] refuses a distribution whose entries are NaN. *)
Lemma choice_NaN : forall g a p,
  p <> [] -> Forall (eq F64.NaN) p -> choice g a p = Raise ValueError.
Proof.
  intros g a p Hne Hp; unfold choice.
  destruct (a =? 0)%nat; [reflexivity|].
  destruct (negb (length p =? a)%nat); [reflexivity|].
  rewrite (sum_NaN p Hne Hp); reflexivity.
Qed.

(** One step of the seeding loop when the weights sum to zero. *)
Lemma init_loop_zero_sum : forall pixels n iters centers g,
  pixels <> [] -> centers <> [] ->
  Forall finite_rgb pixels -> Forall finite_rgb centers ->
  is_zero (F64.sum (nearest_distances pixels centers)) ->
  init_loop pixels n (S iters) centers g = Raise ValueError.
Proof.
  intros pixels n iters centers g Hp Hc Hfp Hfc Hz; simpl.
  pose proof (nearest_distances_nonneg pixels centers Hc Hfc Hfp) as Hnn.
  destruct (sum_nonneg _ Hnn) as [_ Hall]. specialize (Hall Hz).
  rewrite choice_NaN; [reflexivity | |].
  - unfold nearest_distances. destruct pixels; [congruence | discriminate].
  - rewrite Forall_map. revert Hall. apply Forall_impl.
    intros d Hd. symmetry; apply div_zero_zero; assumption.
Qed.

End SeedingFacts.

(** ** [np.argmin] *)

Lemma argmin_from_range : forall l i mp best,
  (best < i)%nat -> (argmin_from l i mp best < i + length l)%nat.
Proof.
  induction l as [|x l IH]; simpl; intros i mp best Hb; [lia|].
  destruct (negb (F64.leb mp x)).
  - destruct (F64.isnan x); [lia|].
    specialize (IH (S i) x i); lia.
  - specialize (IH (S i) mp best); lia.
Qed.

Lemma argmin_range : forall l, l <> [] -> (argmin l < length l)%nat.
Proof.
  intros [|x l] H; [congruence|]; simpl.
  destruct (F64.isnan x); [lia|].
  pose proof (argmin_from_range l 1 x 0); lia.
Qed.

(** On finite values the scan returns the first position of the least
    entry. *)
Lemma argmin_from_Fin : forall ql i m best,
  let r := argmin_from (map F64.Fin ql) i (F64.Fin m) best in
  (r = best /\ Forall (Qle m) ql) \/
  (exists j x, r = (i + j)%nat /\ nth_error ql j = Some x /\ x < m /\
               Forall (Qle x) ql /\
               forall j' x', (j' < j)%nat -> nth_error ql j' = Some x' -> x < x').
Proof.
  induction ql as [|x ql IH]; intros i m best; simpl.
  - left; split; [reflexivity | constructor].
  - destruct (Qle_bool m x) eqn:E; simpl.
    + apply Qle_bool_iff in E.
      destruct (IH (S i) m best) as [[Hr Hall] | (j & y & Hr & Hj & Hlt & Hall & Hbefore)].
      * left; split; [assumption | constructor; assumption].
      * right; exists (S j), y. repeat split.
        -- rewrite Hr; lia.
        -- assumption.
        -- assumption.
        -- constructor; [|assumption].
           apply Qlt_le_weak, Qlt_le_trans with m; assumption.
        -- intros [|j'] x' Hj' Hx'; simpl in Hx'.
           ++ inversion Hx'; subst. apply Qlt_le_trans with m; assumption.
           ++ apply (Hbefore j'); [lia | assumption].
    + assert (Hxm : x < m).
      { apply Qnot_le_lt. intros H. apply Qle_bool_iff in H.
        rewrite H in E; discriminate. }
      destruct (IH (S i) x i) as [[Hr Hall] | (j & y & Hr & Hj & Hlt & Hall & Hbefore)].
      * right; exists 0%nat, x. repeat split.
        -- rewrite Hr; lia.
        -- assumption.
        -- constructor; [apply Qle_refl | assumption].
        -- intros j' x' Hj'; lia.
      * right; exists (S j), y. repeat split.
        -- rewrite Hr; lia.
        -- assumption.
        -- apply Qlt_trans with x; assumption.
        -- constructor; [apply Qlt_le_weak|]; assumption.
        -- intros [|j'] x' Hj' Hx'; simpl in Hx'.
           ++ inversion Hx'; subst; assumption.
           ++ apply (Hbefore j'); [lia | assumption].
Qed.

Lemma argmin_Fin : forall ql,
  ql <> [] ->
  exists x, nth_error ql (argmin (map F64.Fin ql)) = Some x /\
            forall j y, nth_error ql j = Some y ->
                        x <= y /\ ((j < argmin (map F64.Fin ql))%nat -> x < y).
Proof.
  intros [|m ql] Hne; [congruence|]; simpl.
  destruct (argmin_from_Fin ql 1 m 0)
    as [[Hr Hall] | (j & x & Hr & Hj & Hlt & Hall & Hbefore)]; rewrite Hr.
  - exists m; split; [reflexivity|].
    intros [|j] y Hy; simpl in Hy.
    + inversion Hy; subst; split; [apply Qle_refl | lia].
    + split; [|lia]. rewrite Forall_forall in Hall.
      apply Hall. eapply nth_error_In; eassumption.
  - exists x; split; [assumption|].
    intros [|j0] y Hy; simpl in Hy.
    + inversion Hy; subst; split; [apply Qlt_le_weak|]; auto.
    + split.
      * rewrite Forall_forall in Hall.
        apply Hall. eapply nth_error_In; eassumption.
      * intros Hlt0. apply (Hbefore j0); [lia | assumption].
Qed.

Lemma Forall_finite_map_Fin : forall l,
  Forall F64.finite l -> exists ql, l = map F64.Fin ql.
Proof.
  induction 1 as [|x l Hx _ [ql ->]].
  - exists []; reflexivity.
  - apply finite_inv in Hx; destruct Hx as [q ->].
    exists (q :: ql); reflexivity.
Qed.

(** The same, stated with the comparisons of [float64]. *)
Lemma argmin_least : forall l,
  l <> [] -> Forall F64.finite l ->
  exists x, nth_error l (argmin l) = Some x /\
            forall j y, nth_error l j = Some y ->
                        F64.leb x y = true /\
                        ((j < argmin l)%nat -> F64.ltb x y = true).
Proof.
  intros l Hne Hfin.
  destruct (Forall_finite_map_Fin l Hfin) as [ql ->].
  assert (Hq : ql <> []) by (destruct ql; [simpl in Hne; congruence | discriminate]).
  destruct (argmin_Fin ql Hq) as (x & Hx & Hmin).
  exists (F64.Fin x); split.
  - rewrite nth_error_map, Hx; reflexivity.
  - intros j y Hy. rewrite nth_error_map in Hy.
    destruct (nth_error ql j) as [q|] eqn:Ej; [|discriminate].
    inversion Hy; subst; simpl.
    destruct (Hmin j q Ej) as [Hle Hlt]; split.
    + apply Qle_bool_iff; assumption.
    + intros Hj; apply Qltb_lt; auto.
Qed.

(** ** The assignment phase *)

Lemma assign_length : forall pixels centers,
  length (assign pixels centers) = length pixels.
Proof. intros; unfold assign; apply length_map. Qed.

Lemma assign_nth_error : forall pixels centers i p,
  nth_error pixels i = Some p ->
  nth_error (assign pixels centers) i = Some (argmin (distances_to centers p)).
Proof.
  intros pixels centers i p H; unfold assign.
  rewrite nth_error_map, H; reflexivity.
Qed.

Lemma assign_range : forall pixels centers,
  centers <> [] ->
  Forall (fun l => (l < length centers)%nat) (assign pixels centers).
Proof.
  intros pixels centers Hne; unfold assign.
  rewrite Forall_map, Forall_forall; intros p _.
  replace (length centers) with (length (distances_to centers p))
    by apply length_map.
  apply argmin_range. destruct centers; [congruence | discriminate].
Qed.

Lemma distances_to_finite : forall centers p,
  Forall finite_rgb centers -> finite_rgb p ->
  Forall F64.finite (distances_to centers p).
Proof.
  intros centers p Hc Hp; unfold distances_to.
  rewrite Forall_map. revert Hc; apply Forall_impl; intros c Hc.
  apply nonneg_finite, sqdist_nonneg; assumption.
Qed.

(** ** The update phase *)

Lemma any_label_In : forall labels k, any_label labels k = true <-> In k labels.
Proof.
  intros labels k; unfold any_label; rewrite existsb_exists; split.
  - intros (l & Hl & E). apply Nat.eqb_eq in E; subst; assumption.
  - intros H; exists k; split; [assumption | apply Nat.eqb_refl].
Qed.

Lemma members_In : forall pixels labels k p,
  In p (members pixels labels k) <->
  exists j, nth_error pixels j = Some p /\ nth_error labels j = Some k.
Proof.
  induction pixels as [|q pixels IH]; intros [|l labels] k p;
    unfold members; simpl.
  - split; [tauto | intros ([|j] & H & _); discriminate].
  - split; [tauto | intros ([|j] & H & _); discriminate].
  - split; [tauto | intros ([|j] & _ & H); discriminate].
  - fold (members pixels labels k).
    destruct (l =? k)%nat eqn:E; simpl; fold (members pixels labels k);
      rewrite IH; split.
    + intros [-> | (j & Hp & Hl)].
      * exists 0%nat; apply Nat.eqb_eq in E; subst; auto.
      * exists (S j); auto.
    + intros ([|j] & Hp & Hl); simpl in *.
      * left; congruence.
      * right; eauto.
    + intros (j & Hp & Hl); exists (S j); auto.
    + intros ([|j] & Hp & Hl); simpl in *.
      * apply Nat.eqb_neq in E; congruence.
      * eauto.
Qed.

Lemma members_length : forall pixels labels k,
  length labels = length pixels ->
  length (members pixels labels k) = count_occ Nat.eq_dec labels k.
Proof.
  induction pixels as [|q pixels IH]; intros [|l labels] k H;
    simpl in H; try discriminate; [reflexivity|].
  unfold members; simpl; fold (members pixels labels k).
  destruct (Nat.eq_dec l k) as [->|Hn].
  - rewrite Nat.eqb_refl; simpl; fold (members pixels labels k).
    f_equal; apply IH; lia.
  - apply Nat.eqb_neq in Hn; rewrite Hn. apply IH; lia.
Qed.

Lemma members_subset : forall pixels labels k,
  incl (members pixels labels k) pixels.
Proof.
  intros pixels labels k p H. apply members_In in H.
  destruct H as (j & Hj & _). eapply nth_error_In; eassumption.
Qed.

Lemma members_nonempty : forall pixels labels k,
  length labels = length pixels -> any_label labels k = true ->
  members pixels labels k <> [].
Proof.
  intros pixels labels k Hlen Hany Hnil.
  apply any_label_In in Hany.
  pose proof (members_length pixels labels k Hlen) as Hc.
  rewrite Hnil in Hc; simpl in Hc.
  apply (count_occ_In Nat.eq_dec) in Hany. lia.
Qed.

Lemma fold_add_finite : forall l a,
  Forall F64.finite l -> exists s, fold_left F64.add l (F64.Fin a) = F64.Fin s.
Proof.
  induction l as [|x l IH]; simpl; intros a H; [eauto|].
  inversion H as [|? ? Hx Hl]; subst.
  apply finite_inv in Hx; destruct Hx as [q ->]; simpl. auto.
Qed.

Lemma sum_finite : forall l, Forall F64.finite l -> F64.finite (F64.sum l).
Proof.
  intros l H; unfold F64.sum, F64.zero.
  destruct (fold_add_finite l 0 H) as [s ->]; reflexivity.
Qed.

Lemma div_of_nat_finite : forall x n,
  F64.finite x -> (0 < n)%nat -> F64.finite (F64.div x (F64.of_nat n)).
Proof.
  intros x n Hx Hn; apply finite_inv in Hx; destruct Hx as [q ->].
  unfold F64.of_nat, F64.div.
  destruct (Qeq_bool (inject_Z (Z.of_nat n)) 0) eqn:E; [|reflexivity].
  apply Qeq_bool_iff in E. unfold Qeq in E; simpl in E. lia.
Qed.

(** The mean of a non-empty array of finite rows is finite. *)
Lemma mean_axis0_finite : forall rows,
  rows <> [] -> Forall finite_rgb rows -> finite_rgb (mean_axis0 rows).
Proof.
  intros rows Hne Hfin; unfold mean_axis0, finite_rgb; simpl.
  assert (Hn : (0 < length rows)%nat)
    by (destruct rows; [congruence | simpl; lia]).
  repeat split; apply div_of_nat_finite; try assumption; apply sum_finite;
    rewrite Forall_map; revert Hfin; apply Forall_impl;
    intros p (Hr & Hg & Hb); assumption.
Qed.

Lemma update_length : forall pixels labels centers k new_centers,
  update pixels labels centers k = Ok new_centers -> length new_centers = k.
Proof.
  intros pixels labels centers k nc H; unfold update in H.
  apply traverse_length in H. rewrite length_seq in H; assumption.
Qed.

Lemma update_nth_error : forall pixels labels centers k new_centers i,
  update pixels labels centers k = Ok new_centers -> (i < k)%nat ->
  exists c, nth_error new_centers i = Some c /\
            new_center pixels labels centers i = Ok c.
Proof.
  intros pixels labels centers k nc i H Hi; unfold update in H.
  eapply traverse_nth_error in H; [eassumption|].
  rewrite nth_error_seq. destruct (Nat.ltb_spec i k); [reflexivity | lia].
Qed.

Lemma update_Ok : forall pixels labels centers k,
  (k <= length centers)%nat ->
  exists new_centers, update pixels labels centers k = Ok new_centers.
Proof.
  intros pixels labels centers k Hk; unfold update.
  apply traverse_Ok; intros i Hi. apply in_seq in Hi.
  unfold new_center. destruct (any_label labels i); [eauto|].
  apply getitem_lt; lia.
Qed.

Lemma update_finite : forall pixels labels centers k new_centers,
  update pixels labels centers k = Ok new_centers ->
  length labels = length pixels ->
  Forall finite_rgb pixels -> Forall finite_rgb centers ->
  Forall finite_rgb new_centers.
Proof.
  intros pixels labels centers k nc H Hlen Hp Hc.
  apply Forall_forall; intros c Hin.
  apply In_nth_error in Hin; destruct Hin as [i Hi].
  assert (Hik : (i < k)%nat).
  { rewrite <- (update_length _ _ _ _ _ H). apply nth_error_Some; congruence. }
  destruct (update_nth_error _ _ _ _ _ i H Hik) as (c' & Hc' & Hnew).
  rewrite Hi in Hc'; inversion Hc'; subst c'; clear Hc'.
  unfold new_center in Hnew.
  destruct (any_label labels i) eqn:Hany.
  - inversion Hnew; subst. apply mean_axis0_finite.
    + apply members_nonempty; assumption.
    + rewrite Forall_forall in *; intros p Hp'.
      apply Hp, (members_subset _ _ _ _ Hp').
  - apply getitem_Ok in Hnew. rewrite Forall_forall in Hc.
    apply Hc. eapply nth_error_In; eassumption.
Qed.

(** ** Seeding *)

Section SeedingResults.

Context {R : NumpyRandom}.

(** The seeding loop appends [iters] pixels to the centers it starts
    from. *)
Lemma init_loop_Ok : forall pixels n iters centers g centers' g',
  init_loop pixels n iters centers g = Ok (centers', g') ->
  exists chosen, centers' = centers ++ chosen /\ length chosen = iters /\
                 Forall (fun c => In c pixels) chosen.
Proof.
  intros pixels n; induction iters as [|iters IH];
    intros centers g centers' g' H; simpl in H.
  - inversion H; subst. exists []; rewrite app_nil_r; auto.
  - inv_bind H. destruct a as [next_idx g1]. inv_bind H.
    apply IH in H. destruct H as (chosen & -> & Hlen & Hin).
    exists (a :: chosen). rewrite <- app_assoc; simpl.
    repeat split; [congruence|]. constructor; [|assumption].
    apply getitem_Ok in Ha0. eapply nth_error_In; eassumption.
Qed.

Lemma kmeans_plusplus_init_Ok : forall pixels k g centers g',
  kmeans_plusplus_init pixels k g = Ok (centers, g') ->
  pixels <> [] /\
  exists first chosen,
    nth_error pixels (fst (rng_integers g (length pixels))) = Some first /\
    centers = first :: chosen /\ length chosen = (k - 1)%nat /\
    Forall (fun c => In c pixels) chosen.
Proof.
  intros pixels k g centers g' H; unfold kmeans_plusplus_init in H.
  inv_bind H. destruct a as [first_idx g1]. inv_bind H.
  unfold integers in Ha.
  destruct (length pixels =? 0)%nat eqn:E; [discriminate|].
  inversion Ha as [Hidx]; clear Ha.
  split; [intros ->; discriminate|].
  apply init_loop_Ok in H. destruct H as (chosen & -> & Hlen & Hin).
  exists a, chosen. rewrite Hidx; simpl.
  apply getitem_Ok in Ha0. auto.
Qed.

Lemma kmeans_plusplus_init_length : forall pixels k g centers g',
  kmeans_plusplus_init pixels k g = Ok (centers, g') -> (1 <= k)%nat ->
  length centers = k.
Proof.
  intros pixels k g centers g' H Hk.
  apply kmeans_plusplus_init_Ok in H.
  destruct H as (_ & first & chosen & _ & -> & Hlen & _). simpl; lia.
Qed.

Lemma kmeans_plusplus_init_pixels : forall pixels k g centers g',
  kmeans_plusplus_init pixels k g = Ok (centers, g') ->
  Forall (fun c => In c pixels) centers.
Proof.
  intros pixels k g centers g' H.
  apply kmeans_plusplus_init_Ok in H.
  destruct H as (_ & first & chosen & Hf & -> & _ & Hin).
  constructor; [|assumption]. eapply nth_error_In; eassumption.
Qed.

End SeedingResults.

(** ** The loop of [kmeans] *)

Lemma allclose_Ok : forall a b c,
  allclose a b = Ok c <-> length a = length b /\ c = all_isclose a b.
Proof.
  intros a b c; unfold allclose.
  destruct (Nat.eqb_spec (length a) (length b)) as [E|E]; split.
  - intros H; inversion H; auto.
  - intros [_ ->]; reflexivity.
  - discriminate.
  - intros [H _]; contradiction.
Qed.

Lemma kmeans_loop_S : forall pixels k m st,
  kmeans_loop pixels k (S m) st =
  (new_centers <- update pixels (assign pixels (centers_of st))
                         (centers_of st) k ;;
   converged <- allclose (centers_of st) new_centers ;;
   if (converged : bool)
   then Ok (LoopState (centers_of st)
                      (Some (assign pixels (centers_of st)))
                      (S (iterations_of st)))
   else kmeans_loop pixels k m
          (LoopState new_centers (Some (assign pixels (centers_of st)))
                     (S (iterations_of st)))).
Proof. reflexivity. Qed.

Lemma lloyd_steps_length : forall pixels k j c c',
  lloyd_steps pixels k j c c' -> length c = k -> length c' = k.
Proof.
  induction 1 as [|j c c' c'' [Hup _] _ IH]; intros Hlen; [assumption|].
  apply IH. eapply update_length; eassumption.
Qed.

Lemma lloyd_steps_finite : forall pixels k j c c',
  Forall finite_rgb pixels ->
  lloyd_steps pixels k j c c' -> Forall finite_rgb c -> Forall finite_rgb c'.
Proof.
  intros pixels k j c c' Hp; induction 1 as [|j c c' c'' [Hup _] _ IH];
    intros Hc; [assumption|].
  apply IH. eapply update_finite; try eassumption. apply assign_length.
Qed.

(** What a run of the loop with at least one iteration returns: after [j]
    iterations that did not converge, one more iteration assigns labels
    against the centers [prev] and updates them to [new]; either the test
    succeeds and [prev] is kept, or the range is exhausted and [new] is. *)
Lemma kmeans_loop_spec : forall pixels k m st st',
  kmeans_loop pixels k (S m) st = Ok st' ->
  exists j prev new,
    (j <= m)%nat /\
    lloyd_steps pixels k j (centers_of st) prev /\
    update pixels (assign pixels prev) prev k = Ok new /\
    labels_of st' = Some (assign pixels prev) /\
    iterations_of st' = (iterations_of st + S j)%nat /\
    ((allclose prev new = Ok true /\ centers_of st' = prev) \/
     (allclose prev new = Ok false /\ j = m /\ centers_of st' = new)).
Proof.
  intros pixels k; induction m as [|m IH]; intros st st' H;
    rewrite kmeans_loop_S in H; inv_bind H; inv_bind H;
    destruct a0.
  - inversion H; subst; simpl.
    exists 0%nat, (centers_of st), a. repeat split; auto; try lia.
    constructor.
  - simpl in H. inversion H; subst; simpl.
    exists 0%nat, (centers_of st), a. repeat split; auto; try lia.
    constructor.
  - inversion H; subst; simpl.
    exists 0%nat, (centers_of st), a. repeat split; auto; try lia.
    constructor.
  - apply IH in H; simpl in H.
    destruct H as (j & prev & new & Hj & Hsteps & Hup & Hlab & Hit & Hend).
    exists (S j), prev, new. repeat split; auto; try lia.
    + econstructor; [split|]; eassumption.
    + destruct Hend as [Hend | (Hc & -> & Hn)]; auto.
Qed.

(** The loop does not raise when it starts from [k] centers. *)
Lemma kmeans_loop_total : forall pixels k m st,
  length (centers_of st) = k ->
  exists st', kmeans_loop pixels k m st = Ok st'.
Proof.
  intros pixels k; induction m as [|m IH]; intros st Hlen; [simpl; eauto|].
  rewrite kmeans_loop_S.
  destruct (update_Ok pixels (assign pixels (centers_of st)) (centers_of st) k)
    as [new Hnew]; [lia|].
  rewrite Hnew; simpl.
  pose proof (update_length _ _ _ _ _ Hnew) as Hlen'.
  unfold allclose. rewrite Hlen, Hlen', Nat.eqb_refl; simpl.
  destruct (all_isclose (centers_of st) new); [eauto|].
  apply IH; assumption.
Qed.

Lemma fold_add_zero : forall l a,
  Forall is_zero l -> a == 0 ->
  exists s, fold_left F64.add l (F64.Fin a) = F64.Fin s /\ s == 0.
Proof.
  induction l as [|x l IH]; simpl; intros a Hl Ha; [eauto|].
  inversion Hl as [|? ? Hx Hl']; subst.
  destruct x as [q| |]; simpl in Hx; try tauto; simpl.
  apply IH; [assumption|]. rewrite Ha, Hx; reflexivity.
Qed.

Lemma sum_zero : forall l, Forall is_zero l -> is_zero (F64.sum l).
Proof.
  intros l H; unfold F64.sum, F64.zero.
  destruct (fold_add_zero l 0 H (Qeq_refl 0)) as (s & -> & Hs); assumption.
Qed.

Section Runs.

Context {R : NumpyRandom}.

(** On an image of a single colour the seeding cannot choose a second
    center. *)
Lemma kmeans_plusplus_init_uniform : forall p n k g,
  finite_rgb p -> (1 <= n)%nat -> (2 <= k)%nat ->
  kmeans_plusplus_init (repeat p n) k g = Raise ValueError.
Proof.
  intros p n k g Hp Hn Hk; unfold kmeans_plusplus_init, integers.
  rewrite repeat_length.
  destruct (Nat.eqb_spec n 0) as [E|_]; [lia|]; simpl.
  pose proof (rng_integers_range g n Hn) as Hidx.
  destruct (rng_integers g n) as [idx g1]; simpl in *.
  unfold getitem. rewrite nth_error_repeat by assumption; simpl.
  destruct k as [|[|k]]; try lia.
  replace (S (S k) - 1)%nat with (S k) by lia.
  apply init_loop_zero_sum.
  - destruct n; [lia | discriminate].
  - discriminate.
  - apply Forall_forall; intros q Hq. apply repeat_spec in Hq; subst; auto.
  - constructor; [assumption | constructor].
  - apply sum_zero. unfold nearest_distances.
    rewrite Forall_map. apply Forall_forall; intros q Hq.
    apply repeat_spec in Hq; subst; simpl. apply sqdist_self; assumption.
Qed.

Lemma kmeans_run_Ok : forall pixels k m seed st,
  kmeans_run pixels k m seed = Ok st ->
  exists c0 g',
    kmeans_plusplus_init pixels k (default_rng seed) = Ok (c0, g') /\
    kmeans_loop pixels k m (LoopState c0 None 0) = Ok st.
Proof.
  intros pixels k m seed st H; unfold kmeans_run in H.
  inv_bind H. destruct a as [c0 g']. eauto.
Qed.

Lemma kmeans_Ok : forall pixels k m seed centers labels,
  kmeans pixels k m seed = Ok (centers, labels) <->
  exists st, kmeans_run pixels k m seed = Ok st /\
             centers_of st = centers /\ labels_of st = Some labels.
Proof.
  intros pixels k m seed centers labels; unfold kmeans; split.
  - intros H; inv_bind H. exists a.
    destruct (labels_of a); inversion H; auto.
  - intros (st & -> & <- & Hl); simpl. rewrite Hl; reflexivity.
Qed.

(** Every center the loop holds is finite when the pixels are. *)
Lemma kmeans_run_finite : forall pixels k m seed st,
  kmeans_run pixels k m seed = Ok st ->
  Forall finite_rgb pixels -> Forall finite_rgb (centers_of st).
Proof.
  intros pixels k m seed st H Hp.
  apply kmeans_run_Ok in H; destruct H as (c0 & g' & Hinit & Hloop).
  assert (Hc0 : Forall finite_rgb c0).
  { apply kmeans_plusplus_init_pixels in Hinit.
    rewrite Forall_forall in *; auto. }
  destruct m as [|m]; [simpl in Hloop; inversion Hloop; assumption|].
  apply kmeans_loop_spec in Hloop; simpl in Hloop.
  destruct Hloop as (j & prev & new & _ & Hsteps & Hup & _ & _ & Hend).
  pose proof (lloyd_steps_finite _ _ _ _ _ Hp Hsteps Hc0) as Hprev.
  destruct Hend as [[_ ->] | (_ & _ & ->)]; [assumption|].
  eapply update_finite; try eassumption. apply assign_length.
Qed.

(** The labels [kmeans] returns: one per pixel, each below [k]. *)
Lemma kmeans_labels : forall pixels k m seed centers labels,
  (1 <= k)%nat ->
  kmeans pixels k m seed = Ok (centers, labels) ->
  pixels <> [] /\ length centers = k /\
  length labels = length pixels /\
  Forall (fun l => (l < k)%nat) labels.
Proof.
  intros pixels k m seed centers labels Hk H.
  apply kmeans_Ok in H. destruct H as (st & Hrun & Hcen & Hlab).
  apply kmeans_run_Ok in Hrun. destruct Hrun as (c0 & g' & Hinit & Hloop).
  destruct m as [|m].
  { simpl in Hloop; inversion Hloop; subst; discriminate. }
  apply kmeans_loop_spec in Hloop; simpl in Hloop.
  destruct Hloop as (j & prev & new & _ & Hsteps & Hup & Hlab' & _ & Hend).
  rewrite Hlab in Hlab'; inversion Hlab'; subst labels.
  pose proof (kmeans_plusplus_init_length _ _ _ _ _ Hinit Hk) as Hlen.
  pose proof (lloyd_steps_length _ _ _ _ _ Hsteps Hlen) as Hprev.
  split; [apply kmeans_plusplus_init_Ok in Hinit; tauto|].
  split.
  { rewrite <- Hcen.
    destruct Hend as [[_ ->] | (_ & _ & ->)]; [assumption|].
    eapply update_length; eassumption. }
  split; [apply assign_length|].
  rewrite <- Hprev. apply assign_range.
  destruct prev; [simpl in Hprev; lia | discriminate].
Qed.

End Runs.

(** ** The convergence test *)

Lemma tolerance_nonneg : forall y,
  0 <= (1 # 100000000) + (1 # 100000) * Qabs y.
Proof.
  intros y. replace 0 with (0 + 0) by reflexivity.
  apply Qplus_le_compat; [discriminate|].
  apply Qmult_le_0_compat; [discriminate | apply Qabs_nonneg].
Qed.

Lemma isclose_finite : forall a b,
  F64.finite a -> F64.finite b ->
  (isclose a b = true <-> within_tolerance a b).
Proof.
  intros a b Ha Hb. apply finite_inv in Ha, Hb.
  destruct Ha as [x ->], Hb as [y ->].
  change (isclose (F64.Fin x) (F64.Fin y))
    with ((Qle_bool (Qabs (x - y))
                    ((1 # 100000000) + (1 # 100000) * Qabs y) && true)
          || Qeq_bool x y).
  unfold within_tolerance.
  rewrite andb_true_r, orb_true_iff, Qle_bool_iff, Qeq_bool_iff.
  split; [intros [H|H] | auto].
  - assumption.
  - setoid_replace (x - y) with 0 by (rewrite H; ring).
    apply tolerance_nonneg.
Qed.

Lemma isclose_rgb_finite : forall c c',
  finite_rgb c -> finite_rgb c' ->
  (isclose_rgb c c' = true <-> within_tolerance_rgb c c').
Proof.
  intros c c' (Hr & Hg & Hb) (Hr' & Hg' & Hb').
  unfold isclose_rgb, within_tolerance_rgb.
  rewrite !andb_true_iff, !isclose_finite by assumption. tauto.
Qed.

Lemma all_isclose_finite : forall a b,
  length a = length b -> Forall finite_rgb a -> Forall finite_rgb b ->
  (all_isclose a b = true <-> Forall2 within_tolerance_rgb a b).
Proof.
  induction a as [|x a IH]; intros [|y b] Hlen Ha Hb;
    simpl in Hlen; try discriminate; simpl.
  - split; [constructor | reflexivity].
  - inversion Ha as [|? ? Hx Ha']; inversion Hb as [|? ? Hy Hb']; subst.
    rewrite andb_true_iff, isclose_rgb_finite, IH by (assumption || lia).
    split; [intros [Hxy Hab]; constructor; assumption|].
    intros H; inversion H; auto.
Qed.

(** ** Aggregation *)

Lemma contains_In : forall l v, contains l v = true <-> In v l.
Proof.
  intros l v; unfold contains; rewrite existsb_exists; split.
  - intros (x & Hx & E). apply Nat.eqb_eq in E; subst; assumption.
  - intros H; exists v; split; [assumption | apply Nat.eqb_refl].
Qed.

Lemma unique_In : forall labels v, In v (unique labels) <-> In v labels.
Proof.
  intros labels v; unfold unique.
  rewrite filter_In, in_seq. fold (contains labels v).
  rewrite contains_In. split; [tauto|].
  intros H; split; [|assumption].
  assert (Hle : (v <= list_max labels)%nat).
  { pose proof (proj1 (list_max_le labels (list_max labels)) (Nat.le_refl _))
      as Hall.
    rewrite Forall_forall in Hall; auto. }
  lia.
Qed.

Lemma first_index_Ok : forall l v,
  In v l -> exists idx, first_index l v = Ok idx /\ nth_error l idx = Some v.
Proof.
  induction l as [|x l IH]; simpl; intros v H; [tauto|].
  destruct (Nat.eqb_spec x v) as [->|Hn].
  - exists 0%nat; auto.
  - destruct H as [H|H]; [exfalso; auto|].
    destruct (IH v H) as (idx & -> & Hidx). exists (S idx); auto.
Qed.

Lemma cluster_percentage_present : forall labels cluster_id,
  In cluster_id labels ->
  cluster_percentage (unique labels) (unique_counts labels) (length labels)
                     cluster_id
  = Ok (F64.mul (F64.div (F64.of_nat (count_occ Nat.eq_dec labels cluster_id))
                         (F64.of_nat (length labels)))
                (F64.of_Z 100)).
Proof.
  intros labels i Hin; unfold cluster_percentage.
  apply unique_In in Hin.
  rewrite (proj2 (contains_In _ _) Hin).
  destruct (first_index_Ok _ _ Hin) as (idx & -> & Hidx); simpl.
  unfold unique_counts, getitem.
  rewrite nth_error_map, Hidx; reflexivity.
Qed.

Lemma cluster_percentage_absent : forall labels cluster_id,
  ~ In cluster_id labels ->
  cluster_percentage (unique labels) (unique_counts labels) (length labels)
                     cluster_id
  = Ok F64.zero.
Proof.
  intros labels i Hnin; unfold cluster_percentage.
  destruct (contains (unique labels) i) eqn:E; [|reflexivity].
  apply contains_In in E. apply (proj1 (unique_In _ _)) in E. contradiction.
Qed.

Lemma cluster_percentage_share : forall labels i,
  labels <> [] ->
  exists q, cluster_percentage (unique labels) (unique_counts labels)
                               (length labels) i = Ok (F64.Fin q) /\
            q == share labels i.
Proof.
  intros labels i Hne.
  destruct (in_dec Nat.eq_dec i labels) as [Hin|Hnin].
  - rewrite cluster_percentage_present by assumption.
    unfold F64.of_nat, F64.of_Z, F64.div.
    destruct (Qeq_bool (inject_Z (Z.of_nat (length labels))) 0) eqn:E.
    + apply Qeq_bool_iff in E. unfold Qeq in E; simpl in E.
      destruct labels; [congruence | simpl in E; lia].
    + eexists; split; [reflexivity|]. reflexivity.
  - rewrite cluster_percentage_absent by assumption.
    exists 0; split; [reflexivity|]. unfold share.
    rewrite (proj1 (count_occ_not_In Nat.eq_dec labels i) Hnin).
    simpl. unfold Qdiv. rewrite !Qmult_0_l. reflexivity.
Qed.

Lemma aggregate_length : forall centers labels k results,
  aggregate centers labels k = Ok results -> length results = k.
Proof.
  intros centers labels k results H; unfold aggregate in H.
  apply traverse_length in H. rewrite length_seq in H; assumption.
Qed.

Lemma aggregate_nth_error : forall centers labels k results i e,
  aggregate centers labels k = Ok results ->
  nth_error results i = Some e ->
  (i < k)%nat /\
  extract_one centers (unique labels) (unique_counts labels) (length labels) i
    = Ok e.
Proof.
  intros centers labels k results i e H Hi.
  assert (Hik : (i < k)%nat).
  { rewrite <- (aggregate_length _ _ _ _ H). apply nth_error_Some; congruence. }
  split; [assumption|]. unfold aggregate in H.
  eapply traverse_nth_error with (i := i) (a := i) in H.
  - destruct H as (b & Hb & Hone). congruence.
  - rewrite nth_error_seq. destruct (Nat.ltb_spec i k); [reflexivity | lia].
Qed.

Lemma extract_one_Ok : forall centers uniq counts total i e,
  extract_one centers uniq counts total i = Ok e ->
  exists c,
    nth_error centers i = Some c /\
    hex e = hex_color (clamp (F64.astype_int (red c)))
                      (clamp (F64.astype_int (green c)))
                      (clamp (F64.astype_int (blue c))) /\
    cluster_percentage uniq counts total i = Ok (percentage e).
Proof.
  intros centers uniq counts total i e H; unfold extract_one in H.
  inv_bind H. inv_bind H. inversion H; subst; simpl.
  apply getitem_Ok in Ha. eauto.
Qed.

Lemma aggregate_Ok : forall centers labels k,
  (k <= length centers)%nat ->
  exists results, aggregate centers labels k = Ok results.
Proof.
  intros centers labels k Hk; unfold aggregate.
  apply traverse_Ok; intros i Hi. apply in_seq in Hi.
  unfold extract_one.
  destruct (getitem_lt _ centers i) as [c ->]; [lia|]; simpl.
  destruct (in_dec Nat.eq_dec i labels) as [Hin|Hnin].
  - rewrite cluster_percentage_present by assumption; simpl; eauto.
  - rewrite cluster_percentage_absent by assumption; simpl; eauto.
Qed.

Lemma traverse_Forall2 : forall (A B : Type) (f : A -> result B) l bs,
  traverse f l = Ok bs -> Forall2 (fun a b => f a = Ok b) l bs.
Proof.
  induction l as [|a l IH]; simpl; intros bs H.
  - inversion H; constructor.
  - inv_bind H. inv_bind H. inversion H; subst. constructor; auto.
Qed.

(** *** Sums of percentages *)

Lemma indicator_sum : forall l n a,
  list_sum (map (fun i => if Nat.eq_dec l i then 1 else 0)%nat (seq a n))
  = if ((a <=? l) && (l <? a + n))%nat then 1%nat else 0%nat.
Proof.
  induction n as [|n IH]; intros a; simpl.
  - destruct (Nat.leb_spec a l); destruct (Nat.ltb_spec l (a + 0)); simpl; lia.
  - rewrite IH.
    destruct (Nat.eq_dec l a); destruct (Nat.leb_spec a l);
      destruct (Nat.ltb_spec l (a + S n)); destruct (Nat.leb_spec (S a) l);
      destruct (Nat.ltb_spec l (S a + n)); simpl; lia.
Qed.

(** The counts of the labels below [k] add up to the number of labels. *)
Lemma count_occ_sum : forall labels k,
  Forall (fun l => (l < k)%nat) labels ->
  list_sum (map (count_occ Nat.eq_dec labels) (seq 0 k)) = length labels.
Proof.
  induction labels as [|l labels IH]; intros k H; simpl.
  - induction (seq 0 k); simpl; auto.
  - inversion H as [|? ? Hl Hrest]; subst.
    rewrite <- (IH k Hrest).
    transitivity
      (list_sum (map (fun i => if Nat.eq_dec l i then 1 else 0)%nat (seq 0 k))
       + list_sum (map (count_occ Nat.eq_dec labels) (seq 0 k)))%nat.
    + generalize (seq 0 k) as idxs.
      induction idxs as [|i idxs IHi]; simpl; [reflexivity|].
      rewrite IHi. destruct (Nat.eq_dec l i); lia.
    + rewrite indicator_sum.
      destruct (Nat.leb_spec 0 l); destruct (Nat.ltb_spec l (0 + k));
        simpl; lia.
Qed.

Lemma Qsum_share : forall labels idxs,
  Qsum (map (share labels) idxs)
  == inject_Z (Z.of_nat (list_sum (map (count_occ Nat.eq_dec labels) idxs)))
     / inject_Z (Z.of_nat (length labels)) * inject_Z 100.
Proof.
  intros labels; induction idxs as [|i idxs IH]; simpl.
  - unfold Qdiv; rewrite !Qmult_0_l; reflexivity.
  - rewrite IH. unfold share.
    rewrite Nat2Z.inj_add, inject_Z_plus. unfold Qdiv; ring.
Qed.

Lemma Qsum_shares : forall labels k,
  labels <> [] -> Forall (fun l => (l < k)%nat) labels ->
  Qsum (map (share labels) (seq 0 k)) == 100.
Proof.
  intros labels k Hne Hk.
  rewrite Qsum_share, count_occ_sum by assumption.
  change (inject_Z 100) with 100. field.
  intros E. unfold Qeq in E; simpl in E.
  destruct labels; [congruence | simpl in E; lia].
Qed.

Lemma Qsum_Forall2 : forall l l', Forall2 Qeq l l' -> Qsum l == Qsum l'.
Proof.
  induction 1 as [|x y l l' Hxy _ IH]; simpl; [reflexivity|].
  rewrite Hxy, IH; reflexivity.
Qed.

Lemma Qsum_Permutation : forall l l', Permutation l l' -> Qsum l == Qsum l'.
Proof.
  induction 1 as [|x l l' _ IH|x y l|l l' l'' _ IH1 _ IH2]; simpl.
  - reflexivity.
  - rewrite IH; reflexivity.
  - ring.
  - rewrite IH1; assumption.
Qed.

Lemma fold_add_Fin : forall l a,
  Forall F64.finite l ->
  exists s, fold_left F64.add l (F64.Fin a) = F64.Fin s /\
            s == a + Qsum (map qval l).
Proof.
  induction l as [|x l IH]; simpl; intros a H.
  - exists a; split; [reflexivity | ring].
  - inversion H as [|? ? Hx Hl]; subst.
    apply finite_inv in Hx; destruct Hx as [q ->]; simpl.
    destruct (IH (a + q) Hl) as (s & -> & Hs).
    exists s; split; [reflexivity|]. rewrite Hs; ring.
Qed.

Lemma sum_Fin : forall l,
  Forall F64.finite l ->
  exists s, F64.sum l = F64.Fin s /\ s == Qsum (map qval l).
Proof.
  intros l H; unfold F64.sum, F64.zero.
  destruct (fold_add_Fin l 0 H) as (s & -> & Hs).
  exists s; split; [reflexivity|]. rewrite Hs; ring.
Qed.

Lemma aggregate_percentages : forall centers labels k results,
  labels <> [] ->
  aggregate centers labels k = Ok results ->
  Forall2 (fun e i => exists q, percentage e = F64.Fin q /\ q == share labels i)
          results (seq 0 k).
Proof.
  intros centers labels k results Hne H; unfold aggregate in H.
  apply traverse_Forall2 in H.
  induction H as [|i e idxs es Hone _ IH]; constructor; [|assumption].
  apply extract_one_Ok in Hone. destruct Hone as (c & _ & _ & Hpct).
  destruct (cluster_percentage_share labels i Hne) as (q & Hq & Hshare).
  exists q; split; [congruence | assumption].
Qed.

(** Before sorting, the percentages are finite and add up to 100. *)
Lemma aggregate_sum : forall centers labels k results,
  labels <> [] -> Forall (fun l => (l < k)%nat) labels ->
  aggregate centers labels k = Ok results ->
  Forall F64.finite (map percentage results) /\
  Qsum (map qval (map percentage results)) == 100.
Proof.
  intros centers labels k results Hne Hk H.
  pose proof (aggregate_percentages _ _ _ _ Hne H) as Hall.
  split.
  - clear H. induction Hall as [|e i es idxs (q & Hq & _) _ IH]; simpl;
      constructor; [rewrite Hq; reflexivity | assumption].
  - rewrite <- (Qsum_shares labels k Hne Hk).
    apply Qsum_Forall2. clear H.
    induction Hall as [|e i es idxs (q & Hq & Hs) _ IH]; simpl;
      constructor; [rewrite Hq; assumption | assumption].
Qed.

(** *** Sorting *)

Lemma insert_desc_perm : forall x l, Permutation (insert_desc x l) (x :: l).
Proof.
  intros x; induction l as [|y l IH]; simpl; [reflexivity|].
  destruct (F64.ltb (percentage y) (percentage x)); [reflexivity|].
  rewrite IH. apply perm_swap.
Qed.

Lemma sort_desc_perm : forall l, Permutation (sort_desc l) l.
Proof.
  intros l; unfold sort_desc.
  assert (H : forall acc,
             Permutation (fold_left (fun acc x => insert_desc x acc) l acc)
                         (acc ++ l)).
  { induction l as [|x l IH]; intros acc; simpl.
    - rewrite app_nil_r; reflexivity.
    - rewrite IH, insert_desc_perm. apply Permutation_middle. }
  apply (H []).
Qed.

Lemma ltb_leb : forall a b, F64.ltb a b = true -> F64.leb a b = true.
Proof.
  intros [x|s|] [y|s'|]; simpl; auto.
  - rewrite Qltb_lt, Qle_bool_iff. apply Qlt_le_weak.
  - destruct s, s'; auto.
Qed.

Lemma ltb_false_leb : forall a b,
  F64.finite a -> F64.finite b -> F64.ltb a b = false -> F64.leb b a = true.
Proof.
  intros a b Ha Hb. apply finite_inv in Ha, Hb.
  destruct Ha as [x ->], Hb as [y ->]; simpl.
  rewrite Qltb_ge, Qle_bool_iff; auto.
Qed.

Lemma leb_trans : forall a b c,
  F64.leb a b = true -> F64.leb b c = true -> F64.leb a c = true.
Proof.
  intros [x|s|] [y|s'|] [z|s''|]; simpl; try discriminate;
    try (rewrite !Qle_bool_iff; apply Qle_trans);
    repeat match goal with b : bool |- _ => destruct b end;
    simpl; auto; discriminate.
Qed.

Lemma insert_desc_sorted : forall x l,
  F64.finite (percentage x) ->
  Forall (fun e => F64.finite (percentage e)) l ->
  StronglySorted desc l -> StronglySorted desc (insert_desc x l).
Proof.
  intros x l Hx; induction l as [|y l IH]; intros Hfin Hs; simpl.
  - constructor; constructor.
  - inversion Hfin as [|? ? Hy Hl]; subst.
    inversion Hs as [|? ? Hs' Hall]; subst.
    destruct (F64.ltb (percentage y) (percentage x)) eqn:E.
    + constructor; [assumption|].
      apply ltb_leb in E. constructor; [exact E|].
      revert Hall; apply Forall_impl; intros z Hz.
      unfold desc in *. eapply leb_trans; eassumption.
    + constructor; [auto|].
      apply (Permutation_Forall (Permutation_sym (insert_desc_perm x l))).
      constructor; [|assumption].
      unfold desc. apply ltb_false_leb; assumption.
Qed.

Lemma sort_desc_sorted : forall l,
  Forall (fun e => F64.finite (percentage e)) l ->
  StronglySorted desc (sort_desc l).
Proof.
  intros l Hfin; unfold sort_desc.
  assert (H : forall acc,
             Forall (fun e => F64.finite (percentage e)) acc ->
             StronglySorted desc acc ->
             StronglySorted desc
               (fold_left (fun acc x => insert_desc x acc) l acc)).
  { induction Hfin as [|x l Hx Hl IH]; intros acc Hacc Hs; simpl;
      [assumption|].
    apply IH.
    - apply (Permutation_Forall (Permutation_sym (insert_desc_perm x acc))).
      constructor; assumption.
    - apply insert_desc_sorted; assumption. }
  apply H; constructor.
Qed.

(** *** Hexadecimal colours *)

Lemma clamp_range : forall z, (0 <= clamp z <= 255)%Z.
Proof. intros z; unfold clamp; lia. Qed.

Lemma hex_value_digit : forall d,
  (0 <= d < 16)%Z -> hex_value (hex_digit d) = Some d.
Proof.
  intros d Hd.
  assert (H : exists n, d = Z.of_nat n /\ (n < 16)%nat).
  { exists (Z.to_nat d); lia. }
  destruct H as (n & -> & Hn).
  do 16 (destruct n as [|n]; [reflexivity|]). lia.
Qed.

Lemma parse_02x_format : forall v rest,
  (0 <= v <= 255)%Z ->
  parse_02x (format_02x v ++ rest) = Some (v, rest).
Proof.
  intros v rest Hv; unfold format_02x, parse_02x; cbn [append].
  rewrite !hex_value_digit.
  - f_equal. f_equal. symmetry; apply Z.div_mod; lia.
  - apply Z.mod_pos_bound; lia.
  - split; [apply Z.div_pos; lia | apply Z.div_lt_upper_bound; lia].
Qed.

(** A colour written by [hex_color] reads back as the three components. *)
Lemma parse_hex_color_format : forall r g b,
  (0 <= r <= 255)%Z -> (0 <= g <= 255)%Z -> (0 <= b <= 255)%Z ->
  parse_hex_color (hex_color r g b) = Some (r, g, b).
Proof.
  intros r g b Hr Hg Hb; unfold hex_color.
  change ("#" ++ format_02x r ++ format_02x g ++ format_02x b)%string
    with (String "#" (format_02x r ++ format_02x g ++ format_02x b)).
  unfold parse_hex_color.
  rewrite parse_02x_format by assumption.
  rewrite parse_02x_format by assumption.
  replace (format_02x b) with (format_02x b ++ "")%string by reflexivity.
  rewrite parse_02x_format by assumption. reflexivity.
Qed.


Section ExtractionFacts.

Context {R : NumpyRandom}.

Lemma extract_colors_from_image_Ok : forall pixels k results,
  extract_colors_from_image pixels k = Ok results ->
  exists centers labels unsorted,
    kmeans pixels k default_max_iterations default_random_state
      = Ok (centers, labels) /\
    aggregate centers labels k = Ok unsorted /\
    results = sort_desc unsorted.
Proof.
  intros pixels k results H; unfold extract_colors_from_image in H.
  inv_bind H. destruct a as [centers labels]. inv_bind H.
  inversion H; subst. eauto 6.
Qed.

(** The aggregation does not raise on what [kmeans] returns. *)
Lemma extract_colors_from_image_total : forall pixels k centers labels,
  (1 <= k)%nat ->
  kmeans pixels k default_max_iterations default_random_state
    = Ok (centers, labels) ->
  exists results, extract_colors_from_image pixels k = Ok results.
Proof.
  intros pixels k centers labels Hk H; unfold extract_colors_from_image.
  rewrite H; simpl.
  destruct (kmeans_labels _ _ _ _ _ _ Hk H) as (_ & Hlen & _).
  destruct (aggregate_Ok centers labels k) as [results ->]; [lia|].
  simpl; eauto.
Qed.

End ExtractionFacts.

(** ** When the seeding succeeds *)

Lemma last_cons : forall (A : Type) (l : list A) a d,
  last (a :: l) d = last l a.
Proof.
  intros A; induction l as [|x l IH]; intros a d; [reflexivity|].
  change (last (a :: x :: l) d) with (last (x :: l) d).
  rewrite (IH x d), (IH x a); reflexivity.
Qed.

Lemma searchsorted_right_lt : forall l u d,
  l <> [] -> F64.ltb u (last l d) = true ->
  (searchsorted_right l u < length l)%nat.
Proof.
  induction l as [|x l IH]; intros u d Hne Hlast; [congruence|].
  simpl. destruct (F64.ltb u x) eqn:E; [lia|].
  destruct l as [|y l]; [simpl in Hlast; congruence|].
  rewrite last_cons in Hlast.
  assert (H := IH u x ltac:(discriminate) Hlast). lia.
Qed.

Lemma cumsum_from_length : forall l acc,
  length (F64.cumsum_from acc l) = length l.
Proof. induction l; simpl; auto. Qed.

Lemma cumsum_length : forall l, length (F64.cumsum l) = length l.
Proof. intros [|x l]; simpl; [|rewrite cumsum_from_length]; reflexivity. Qed.

Lemma cumsum_from_last : forall l a,
  Forall F64.finite l ->
  exists s, last (F64.cumsum_from (F64.Fin a) l) (F64.Fin a) = F64.Fin s /\
            s == a + Qsum (map qval l).
Proof.
  induction l as [|x l IH]; intros a H.
  - exists a; split; [reflexivity | simpl; ring].
  - inversion H as [|? ? Hx Hl]; subst.
    apply finite_inv in Hx; destruct Hx as [q ->].
    simpl F64.cumsum_from. rewrite last_cons.
    destruct (IH (a + q) Hl) as (s & Hs & Hq).
    exists s; split; [exact Hs|]. rewrite Hq; simpl; ring.
Qed.

Lemma cumsum_last : forall p,
  p <> [] -> Forall F64.finite p ->
  exists s, last (F64.cumsum p) F64.NaN = F64.Fin s /\
            s == Qsum (map qval p).
Proof.
  intros [|x l] Hne H; [congruence|].
  inversion H as [|? ? Hx Hl]; subst.
  apply finite_inv in Hx; destruct Hx as [q ->].
  simpl F64.cumsum. rewrite last_cons.
  destruct (cumsum_from_last l q Hl) as (s & Hs & Hq).
  exists s; split; [exact Hs | exact Hq].
Qed.

Lemma last_In : forall (A : Type) (l : list A) d, l <> [] -> In (last l d) l.
Proof.
  intros A; induction l as [|x l IH]; intros d Hne; [congruence|].
  rewrite last_cons. destruct l as [|y l]; [left; reflexivity|].
  right. apply IH; discriminate.
Qed.

Lemma last_map : forall (A B : Type) (f : A -> B) l d,
  l <> [] -> last (map f l) (f d) = f (last l d).
Proof.
  intros A B f; induction l as [|x l IH]; intros d Hne; [congruence|].
  simpl map. rewrite !last_cons.
  destruct l as [|y l]; [reflexivity|]. apply IH; discriminate.
Qed.

Section SeedingSuccess.

Context {R : NumpyRandom}.

(** [rng.choice] accepts a distribution of non-negative finite values that
    add up to one, and draws an index below its length. *)
Lemma choice_Ok : forall g p,
  p <> [] -> Forall nonneg p -> Qsum (map qval p) == 1 ->
  exists i g', choice g (length p) p = Ok (i, g') /\ (i < length p)%nat.
Proof.
  intros g p Hne Hnn Hsum.
  assert (Hfin : Forall F64.finite p).
  { revert Hnn; apply Forall_impl; apply nonneg_finite. }
  unfold choice.
  destruct (Nat.eqb_spec (length p) 0) as [E|_];
    [destruct p; [congruence | discriminate]|].
  rewrite Nat.eqb_refl; simpl negb; cbv iota.
  destruct (sum_Fin p Hfin) as (s & Hs & Hq). rewrite Hs.
  simpl F64.isnan; cbv iota.
  assert (Hneg : existsb (fun x => F64.ltb x F64.zero) p = false).
  { apply not_true_is_false; intros H. apply existsb_exists in H.
    destruct H as (x & Hx & Hlt). rewrite Forall_forall in Hnn.
    specialize (Hnn x Hx). destruct x as [q| |]; simpl in Hnn; try tauto.
    simpl in Hlt. apply Qltb_lt in Hlt.
    apply (Qlt_irrefl q), Qlt_le_trans with 0; assumption. }
  rewrite Hneg.
  assert (Hs1 : s == 1) by (rewrite Hq; exact Hsum).
  assert (Htol : F64.gtb (F64.abs (F64.sub (F64.Fin s) F64.one)) choice_atol
                 = false).
  { change (F64.Qltb (1 # 67108864) (Qabs (s + - 1)) = false).
    apply Qltb_ge.
    setoid_replace (s + - 1) with 0 by (rewrite Hs1; ring).
    discriminate. }
  rewrite Htol.
  destruct (cumsum_last p Hne Hfin) as (t & Ht & Hqt). rewrite Ht.
  assert (Ht1 : t == 1) by (rewrite Hqt; exact Hsum).
  pose proof (rng_random_range g) as [Hu0 Hu1].
  destruct (rng_random g) as [u g']; simpl in Hu0, Hu1.
  eexists; eexists; split; [reflexivity|].
  set (f := fun x => F64.div x (F64.Fin t)).
  assert (Hc : F64.cumsum p <> []).
  { intros E. apply (f_equal (@length _)) in E.
    rewrite cumsum_length in E. destruct p; [congruence | discriminate]. }
  rewrite <- (cumsum_length p).
  rewrite <- (length_map f (F64.cumsum p)).
  apply searchsorted_right_lt with (d := f F64.NaN).
  - intros E. apply map_eq_nil in E. contradiction.
  - rewrite last_map by assumption. rewrite Ht. unfold f.
    unfold F64.div.
    destruct (Qeq_bool t 0) eqn:E0.
    + apply Qeq_bool_iff in E0. rewrite Ht1 in E0. discriminate.
    + change (F64.Qltb u (t / t) = true). apply Qltb_lt.
      setoid_replace (t / t) with 1; [assumption|].
      field. intros E. rewrite Ht1 in E. discriminate.
Qed.

End SeedingSuccess.

(** The weights divided by their non-zero sum are non-negative and add up
    to one. *)
Lemma probabilities_valid : forall ds,
  Forall nonneg ds -> ~ is_zero (F64.sum ds) ->
  Forall nonneg (map (fun d => F64.div d (F64.sum ds)) ds) /\
  Qsum (map qval (map (fun d => F64.div d (F64.sum ds)) ds)) == 1.
Proof.
  intros ds Hnn Hnz.
  assert (Hfin : Forall F64.finite ds).
  { revert Hnn; apply Forall_impl; apply nonneg_finite. }
  destruct (sum_nonneg ds Hnn) as [Hs0 _].
  destruct (sum_Fin ds Hfin) as (t & Ht & Hq).
  rewrite Ht in *. simpl in Hs0, Hnz.
  assert (Hpos : 0 < t).
  { apply Qle_lteq in Hs0. destruct Hs0 as [H|H]; [assumption|].
    exfalso; apply Hnz; symmetry; assumption. }
  assert (Hdiv : forall q, F64.div (F64.Fin q) (F64.Fin t) = F64.Fin (q / t)).
  { intros q; unfold F64.div.
    destruct (Qeq_bool t 0) eqn:E; [|reflexivity].
    apply Qeq_bool_iff in E. contradiction. }
  assert (Hsum : forall l, Forall nonneg l ->
            Qsum (map qval (map (fun d => F64.div d (F64.Fin t)) l))
            == Qsum (map qval l) / t).
  { induction 1 as [|x l Hx _ IH]; simpl.
    - unfold Qdiv; rewrite Qmult_0_l; reflexivity.
    - destruct x as [q| |]; simpl in Hx; try tauto.
      rewrite Hdiv, IH; simpl. field. exact Hnz. }
  split.
  - rewrite Forall_map. revert Hnn; apply Forall_impl.
    intros [q| |] Hx; simpl in Hx; try tauto.
    rewrite Hdiv; simpl.
    apply Qle_shift_div_l; [assumption|]. rewrite Qmult_0_l; assumption.
  - rewrite (Hsum ds Hnn), <- Hq. field. exact Hnz.
Qed.

Section SeedingSteps.

Context {R : NumpyRandom}.

(** One step of the seeding loop when the weights do not sum to zero: a
    pixel is drawn and appended. *)
Lemma init_loop_step_Ok : forall pixels iters centers g,
  pixels <> [] -> centers <> [] ->
  Forall finite_rgb pixels -> Forall finite_rgb centers ->
  ~ is_zero (F64.sum (nearest_distances pixels centers)) ->
  exists c g',
    In c pixels /\
    init_loop pixels (length pixels) (S iters) centers g
    = init_loop pixels (length pixels) iters (centers ++ [c]) g'.
Proof.
  intros pixels iters centers g Hp Hc Hfp Hfc Hnz.
  pose proof (nearest_distances_nonneg pixels centers Hc Hfc Hfp) as Hnn.
  destruct (probabilities_valid _ Hnn Hnz) as [Hpn Hp1].
  set (ps := map (fun d => F64.div d (F64.sum (nearest_distances pixels centers)))
                 (nearest_distances pixels centers)) in *.
  assert (Hlen : length ps = length pixels).
  { unfold ps, nearest_distances. rewrite !length_map; reflexivity. }
  assert (Hps : ps <> []).
  { intros E. rewrite E in Hlen. destruct pixels; [congruence | discriminate]. }
  destruct (choice_Ok g ps Hps Hpn Hp1) as (i & g' & Hch & Hi).
  rewrite Hlen in Hch, Hi.
  destruct (getitem_lt _ pixels i Hi) as [c Hget].
  exists c, g'. split.
  - apply getitem_Ok in Hget. eapply nth_error_In; eassumption.
  - simpl. fold ps. rewrite Hch; simpl. rewrite Hget; reflexivity.
Qed.

End SeedingSteps.

(** *** Colours that differ *)

Lemma Qsquare_nonneg : forall q, 0 <= q * q.
Proof.
  intros q. destruct (Qlt_le_dec q 0) as [Hq|Hq].
  - setoid_replace (q * q) with ((- q) * (- q)) by ring.
    apply Qmult_le_0_compat; apply (Qopp_le_compat q 0), Qlt_le_weak, Hq.
  - apply Qmult_le_0_compat; assumption.
Qed.

Lemma Qsum3_zero : forall a b c,
  0 <= a -> 0 <= b -> 0 <= c -> a + b + c == 0 ->
  a == 0 /\ b == 0 /\ c == 0.
Proof.
  intros a b c Ha Hb Hc H.
  assert (Hab : 0 <= a + b).
  { replace 0 with (0 + 0) by reflexivity. apply Qplus_le_compat; assumption. }
  assert (Hc0 : c == 0).
  { apply Qle_antisym; [|assumption]. rewrite <- H.
    rewrite <- (Qplus_0_l c) at 1. apply Qplus_le_compat;
      [assumption | apply Qle_refl]. }
  assert (Hab0 : a + b == 0).
  { rewrite Hc0, Qplus_0_r in H. assumption. }
  assert (Hb0 : b == 0).
  { apply Qle_antisym; [|assumption]. rewrite <- Hab0.
    rewrite <- (Qplus_0_l b) at 1. apply Qplus_le_compat;
      [assumption | apply Qle_refl]. }
  split; [|split; assumption].
  rewrite Hb0, Qplus_0_r in Hab0. assumption.
Qed.

Lemma Qsquare_zero : forall x y, (x + - y) * (x + - y) == 0 -> x == y.
Proof.
  intros x y H. apply Qmult_integral in H.
  assert (H0 : x + - y == 0) by tauto.
  setoid_replace x with ((x + - y) + y) by ring.
  rewrite H0. ring.
Qed.

(** Two finite rows are at distance zero exactly when their components are
    equal. *)
Lemma sqdist_zero_iff : forall a b,
  finite_rgb a -> finite_rgb b ->
  (is_zero (sqdist a b) <->
   F64.equiv (red a) (red b) /\ F64.equiv (green a) (green b) /\
   F64.equiv (blue a) (blue b)).
Proof.
  intros [r g b] [r' g' b'] (Hr & Hg & Hb) (Hr' & Hg' & Hb'); simpl in *.
  apply finite_inv in Hr, Hg, Hb, Hr', Hg', Hb'.
  destruct Hr as [x1 ->], Hg as [x2 ->], Hb as [x3 ->].
  destruct Hr' as [y1 ->], Hg' as [y2 ->], Hb' as [y3 ->].
  change (is_zero (sqdist (RGB (F64.Fin x1) (F64.Fin x2) (F64.Fin x3))
                          (RGB (F64.Fin y1) (F64.Fin y2) (F64.Fin y3))))
    with ((x1 + - y1) * (x1 + - y1) + (x2 + - y2) * (x2 + - y2)
          + (x3 + - y3) * (x3 + - y3) == 0).
  change (F64.equiv (F64.Fin x1) (F64.Fin y1)) with (x1 == y1).
  change (F64.equiv (F64.Fin x2) (F64.Fin y2)) with (x2 == y2).
  change (F64.equiv (F64.Fin x3) (F64.Fin y3)) with (x3 == y3).
  split.
  - intros H. apply Qsum3_zero in H; try apply Qsquare_nonneg.
    destruct H as (H1 & H2 & H3).
    repeat split; apply Qsquare_zero; assumption.
  - intros (H1 & H2 & H3). rewrite H1, H2, H3. ring.
Qed.

Lemma equiv_sym : forall x y, F64.equiv x y -> F64.equiv y x.
Proof.
  intros [a|s|] [b|s'|]; simpl; auto. intros H; symmetry; assumption.
Qed.

Lemma equiv_trans : forall x y z,
  F64.equiv x y -> F64.equiv y z -> F64.equiv x z.
Proof.
  intros [a|s|] [b|s'|] [c|s''|]; simpl; try tauto.
  - intros H1 H2; rewrite H1; assumption.
  - congruence.
Qed.

(** Two rows at distance zero from a third are at distance zero from each
    other. *)
Lemma sqdist_zero_common : forall a b c,
  finite_rgb a -> finite_rgb b -> finite_rgb c ->
  is_zero (sqdist a c) -> is_zero (sqdist b c) -> is_zero (sqdist a b).
Proof.
  intros a b c Ha Hb Hc Hac Hbc.
  apply sqdist_zero_iff in Hac, Hbc; try assumption.
  apply sqdist_zero_iff; try assumption.
  destruct Hac as (A1 & A2 & A3), Hbc as (B1 & B2 & B3).
  repeat split; eapply equiv_trans; eauto using equiv_sym.
Qed.

Lemma at_centre_true : forall c w, at_centre c w = true <-> is_zero (sqdist w c).
Proof.
  intros c w; unfold at_centre.
  destruct (sqdist w c) as [q|s|]; simpl; try (split; [discriminate | tauto]).
  apply Qeq_bool_iff.
Qed.

Lemma at_centre_false : forall c w,
  at_centre c w = false <-> ~ is_zero (sqdist w c).
Proof.
  intros c w. rewrite <- at_centre_true.
  destruct (at_centre c w); split; congruence.
Qed.

(** Among pixels of pairwise different colours at most one is at a given
    center. *)
Lemma away_from_centre_length : forall c ws,
  finite_rgb c -> Forall finite_rgb ws -> distinct_colours ws ->
  (length ws <= S (length (filter (fun w => negb (at_centre c w)) ws)))%nat.
Proof.
  intros c ws Hc Hfin Hd; induction Hd as [|w ws Hw Hd IH]; simpl; [lia|].
  inversion Hfin as [|? ? Hfw Hfws]; subst.
  destruct (at_centre c w) eqn:E; simpl.
  - apply at_centre_true in E.
    assert (Hall : forall w', In w' ws -> negb (at_centre c w') = true).
    { intros w' Hin. apply negb_true_iff, at_centre_false. intros Hz.
      rewrite Forall_forall in Hw, Hfws.
      apply (Hw w' Hin).
      apply sqdist_zero_common with c; auto. }
    assert (Hfilter : filter (fun w => negb (at_centre c w)) ws = ws).
    { clear -Hall. induction ws as [|x ws IH]; simpl; [reflexivity|].
      rewrite (Hall x (or_introl eq_refl)). f_equal.
      apply IH. intros w' Hin; apply Hall; right; assumption. }
    rewrite Hfilter; lia.
  - specialize (IH Hfws). lia.
Qed.

Lemma distinct_colours_filter : forall f ws,
  distinct_colours ws -> distinct_colours (filter f ws).
Proof.
  intros f ws Hd; induction Hd as [|w ws Hw Hd IH]; simpl; [constructor|].
  destruct (f w); [|assumption].
  constructor; [|assumption].
  rewrite Forall_forall in *. intros x Hx.
  apply filter_In in Hx. apply Hw; tauto.
Qed.

(** With more colours than centers, some pixel is away from every center. *)
Lemma pixel_away_from_centers : forall cs ws,
  Forall finite_rgb cs -> Forall finite_rgb ws -> distinct_colours ws ->
  (length cs < length ws)%nat ->
  exists w, In w ws /\ Forall (fun c => ~ is_zero (sqdist w c)) cs.
Proof.
  induction cs as [|c cs IH]; intros ws Hcs Hws Hd Hlen.
  - destruct ws as [|w ws]; [simpl in Hlen; lia|].
    exists w; split; [left; reflexivity | constructor].
  - inversion Hcs as [|? ? Hc Hcs']; subst.
    set (ws' := filter (fun w => negb (at_centre c w)) ws).
    pose proof (away_from_centre_length c ws Hc Hws Hd) as Hle.
    fold ws' in Hle.
    destruct (IH ws' Hcs') as (w & Hin & Hfar).
    + unfold ws'. rewrite Forall_forall in *. intros x Hx.
      apply filter_In in Hx. apply Hws; tauto.
    + apply distinct_colours_filter; assumption.
    + simpl in Hlen; lia.
    + unfold ws' in Hin. apply filter_In in Hin. destruct Hin as [Hin Hneg].
      exists w; split; [assumption|]. constructor; [|assumption].
      apply at_centre_false, negb_true_iff; assumption.
Qed.

Lemma minimum_either : forall x y,
  F64.minimum x y = x \/ F64.minimum x y = y.
Proof.
  intros x y; unfold F64.minimum.
  destruct (F64.isnan x); [auto|]. destruct (F64.isnan y); [auto|].
  destruct (F64.ltb y x); auto.
Qed.

Lemma fold_minimum_In : forall p cs m,
  fold_left (fun m c' => F64.minimum m (sqdist p c')) cs m = m \/
  exists c, In c cs /\
            fold_left (fun m c' => F64.minimum m (sqdist p c')) cs m
            = sqdist p c.
Proof.
  intros p; induction cs as [|x cs IH]; intros m; simpl; [auto|].
  destruct (IH (F64.minimum m (sqdist p x))) as [H | (c & Hc & H)].
  - rewrite H.
    destruct (minimum_either m (sqdist p x)) as [E | E]; rewrite E; eauto.
  - right; exists c; auto.
Qed.

Lemma min_sqdist_In : forall centers p,
  centers <> [] -> exists c, In c centers /\ min_sqdist centers p = sqdist p c.
Proof.
  intros [|c cs] p Hne; [congruence|]; simpl.
  destruct (fold_minimum_In p cs (sqdist p c)) as [H | (c' & Hc' & H)].
  - exists c; auto.
  - exists c'; auto.
Qed.

Section SeedingTotal.

Context {R : NumpyRandom}.

Lemma init_loop_succeeds : forall pixels ws iters centers g,
  Forall finite_rgb pixels -> incl ws pixels -> distinct_colours ws ->
  centers <> [] -> incl centers pixels ->
  (length centers + iters <= length ws)%nat ->
  exists centers' g',
    init_loop pixels (length pixels) iters centers g = Ok (centers', g').
Proof.
  intros pixels ws iters; induction iters as [|iters IH];
    intros centers g Hfp Hws Hd Hne Hc Hlen; [simpl; eauto|].
  assert (Hfin : forall l, incl l pixels -> Forall finite_rgb l).
  { intros l Hl. rewrite Forall_forall in *. auto. }
  destruct (pixel_away_from_centers centers ws (Hfin _ Hc) (Hfin _ Hws) Hd)
    as (w & Hw & Hfar); [lia|].
  assert (Hpx : pixels <> []).
  { intros E. apply Hws in Hw. rewrite E in Hw. contradiction. }
  destruct (init_loop_step_Ok pixels iters centers g Hpx Hne Hfp (Hfin _ Hc))
    as (c & g' & Hin & ->).
  - intros Hz.
    pose proof (nearest_distances_nonneg pixels centers Hne (Hfin _ Hc) Hfp)
      as Hnn.
    destruct (sum_nonneg _ Hnn) as [_ Hall]. specialize (Hall Hz).
    unfold nearest_distances in Hall. rewrite Forall_map, Forall_forall in Hall.
    specialize (Hall w (Hws w Hw)).
    destruct (min_sqdist_In centers w Hne) as (c & Hc' & Hmin).
    rewrite Hmin in Hall. rewrite Forall_forall in Hfar.
    exact (Hfar c Hc' Hall).
  - apply IH; try assumption.
    + destruct centers; discriminate.
    + intros x Hx. apply in_app_or in Hx.
      destruct Hx as [Hx | [<- | []]]; auto.
    + rewrite length_app; simpl; lia.
Qed.

(** The seeding returns [k] centers when the image holds at least [k]
    different colours. *)
Lemma kmeans_plusplus_init_succeeds : forall pixels ws k g,
  Forall finite_rgb pixels -> incl ws pixels -> distinct_colours ws ->
  (1 <= k <= length ws)%nat ->
  exists centers g',
    kmeans_plusplus_init pixels k g = Ok (centers, g') /\
    length centers = k /\ incl centers pixels.
Proof.
  intros pixels ws k g Hfp Hws Hd Hk.
  assert (Hn : (0 < length pixels)%nat).
  { destruct ws as [|w ws]; [simpl in Hk; lia|].
    specialize (Hws w (or_introl eq_refl)).
    destruct pixels; [contradiction | simpl; lia]. }
  assert (Hinit : exists centers g',
             kmeans_plusplus_init pixels k g = Ok (centers, g')).
  { unfold kmeans_plusplus_init, integers.
    destruct (Nat.eqb_spec (length pixels) 0) as [E|_]; [lia|]; simpl.
    pose proof (rng_integers_range g (length pixels) Hn) as Hidx.
    destruct (rng_integers g (length pixels)) as [idx g1]; simpl in *.
    destruct (getitem_lt _ pixels idx Hidx) as [c Hget]. rewrite Hget; simpl.
    apply init_loop_succeeds with ws; try assumption.
    - discriminate.
    - intros x [<- | []]. apply getitem_Ok in Hget.
      eapply nth_error_In; eassumption.
    - simpl; lia. }
  destruct Hinit as (centers & g' & Hinit).
  exists centers, g'. split; [assumption|]. split.
  - eapply kmeans_plusplus_init_length; [eassumption | lia].
  - apply kmeans_plusplus_init_pixels in Hinit.
    rewrite Forall_forall in Hinit. exact Hinit.
Qed.

End SeedingTotal.

(** ** Two runs, each with its own generator

    What the seeding returns depends on its generator only through the
    numbers it draws from it. *)

Lemma choice_same_draw :
  forall (R R' : NumpyRandom) (g : @Generator R) (g' : @Generator R') a p,
    fst (rng_random g) = fst (rng_random g') ->
    (exists e, choice g a p = Raise e /\ choice g' a p = Raise e) \/
    (exists i, choice g a p = Ok (i, snd (rng_random g)) /\
               choice g' a p = Ok (i, snd (rng_random g'))).
Proof.
  intros R R' g g' a p H. unfold choice.
  destruct (a =? 0)%nat; [left; eauto|].
  destruct (negb (length p =? a)%nat); [left; eauto|].
  destruct (F64.isnan (F64.sum p)); [left; eauto|].
  destruct (existsb _ p); [left; eauto|].
  destruct (F64.gtb _ _); [left; eauto|].
  destruct (rng_random g) as [u g1], (rng_random g') as [u' g1'];
    simpl in H; subst.
  right; eauto.
Qed.

Lemma init_loop_same_draws :
  forall (R R' : NumpyRandom) pixels n iters centers
         (g : @Generator R) (g' : @Generator R'),
    randoms g iters = randoms g' iters ->
    (exists e, init_loop pixels n iters centers g = Raise e /\
               init_loop pixels n iters centers g' = Raise e) \/
    (exists cs g1 g1', init_loop pixels n iters centers g = Ok (cs, g1) /\
                       init_loop pixels n iters centers g' = Ok (cs, g1')).
Proof.
  intros R R' pixels n; induction iters as [|iters IH]; intros centers g g' H.
  - right; simpl; eauto.
  - simpl in H. injection H as Hu Hrest. cbn [init_loop].
    destruct (choice_same_draw R R' g g' n
                (map (fun d => F64.div d
                        (F64.sum (nearest_distances pixels centers)))
                     (nearest_distances pixels centers)) Hu)
      as [(e & -> & ->) | (i & -> & ->)].
    + left; simpl; eauto.
    + simpl. destruct (getitem pixels i); simpl;
        [apply IH; assumption | left; eauto].
Qed.

Lemma kmeans_run_same_draws :
  forall (R R' : NumpyRandom) pixels k m seed,
    draws (R := R) seed (length pixels) (k - 1)
    = draws (R := R') seed (length pixels) (k - 1) ->
    kmeans_run (R := R) pixels k m seed = kmeans_run (R := R') pixels k m seed.
Proof.
  intros R R' pixels k m seed H. unfold draws in H. injection H as Hi Hr.
  unfold kmeans_run, kmeans_plusplus_init, integers.
  destruct (length pixels =? 0)%nat; [reflexivity|].
  destruct (rng_integers (default_rng (NumpyRandom := R) seed) (length pixels))
    as [i g1].
  destruct (rng_integers (default_rng (NumpyRandom := R') seed) (length pixels))
    as [i' g1'].
  simpl in Hi, Hr. subst i'. simpl.
  destruct (getitem pixels i) as [c|e]; simpl; [|reflexivity].
  destruct (init_loop_same_draws R R' pixels (length pixels) (k - 1) [c]
              g1 g1' Hr)
    as [(e & -> & ->) | (cs & g2 & g2' & -> & ->)]; reflexivity.
Qed.

(** * The claims of the specification *)

(** Claim C1 (seeding when the weights sum to zero).  The specification
    asks for a fallback to the uniform distribution; [kmeans_plusplus_init]
    has none.  When a subsequent center is chosen and the squared distances
    of the pixels to their nearest chosen center sum to zero, every entry of
    [distances / distances.sum()] is NaN and [rng.choice] raises
    [ValueError]: the step returns no center.  In particular the seeding
    raises on every image of a single colour when two or more clusters are
    asked for. *)
Theorem seed_zero_weight_sum_raises :
  (forall (R : NumpyRandom) pixels centers iters (g : Generator),
      pixels <> [] -> centers <> [] ->
      Forall finite_rgb pixels -> Forall finite_rgb centers ->
      is_zero (F64.sum (nearest_distances pixels centers)) ->
      Forall (eq F64.NaN)
             (map (fun d =>
                     F64.div d (F64.sum (nearest_distances pixels centers)))
                  (nearest_distances pixels centers)) /\
      init_loop pixels (length pixels) (S iters) centers g
      = Raise ValueError) /\
  (forall (R : NumpyRandom) p n k (g : Generator),
      finite_rgb p -> (1 <= n)%nat -> (2 <= k)%nat ->
      kmeans_plusplus_init (repeat p n) k g = Raise ValueError).
Proof.
  split.
  - intros R pixels centers iters g Hp Hc Hfp Hfc Hz; split.
    + pose proof (nearest_distances_nonneg pixels centers Hc Hfc Hfp) as Hnn.
      destruct (sum_nonneg _ Hnn) as [_ Hall]. specialize (Hall Hz).
      rewrite Forall_map. revert Hall; apply Forall_impl.
      intros d Hd. symmetry; apply div_zero_zero; assumption.
    + apply init_loop_zero_sum; assumption.
  - intros R p n k g. apply kmeans_plusplus_init_uniform.
Qed.

Lemma seed_zero_weight_sum_raises_witness :
  (uniform_image <> [] /\ [px 10 10 10] <> [] /\
   Forall finite_rgb uniform_image /\ Forall finite_rgb [px 10 10 10] /\
   is_zero (F64.sum (nearest_distances uniform_image [px 10 10 10]))) /\
  init_loop (R := counter_rng) uniform_image (length uniform_image) 2
            [px 10 10 10] 43%nat = Raise ValueError /\
  kmeans_plusplus_init (R := counter_rng) uniform_image 3 (default_rng 42)
  = Raise ValueError.
Proof.
  assert (Hfin : finite_rgb (px 10 10 10)) by (repeat split).
  assert (H1 : uniform_image <> []) by discriminate.
  assert (H2 : [px 10 10 10] <> []) by discriminate.
  assert (H3 : Forall finite_rgb uniform_image)
    by (repeat constructor).
  assert (H4 : Forall finite_rgb [px 10 10 10]) by (repeat constructor).
  assert (H5 : is_zero (F64.sum (nearest_distances uniform_image [px 10 10 10])))
    by (vm_compute; reflexivity).
  assert (H6 : (1 <= 3)%nat) by lia.
  assert (H7 : (2 <= 3)%nat) by lia.
  split; [tauto|]. split.
  - exact (proj2 (proj1 seed_zero_weight_sum_raises counter_rng uniform_image
                    [px 10 10 10] 1%nat 43%nat H1 H2 H3 H4 H5)).
  - exact (proj2 seed_zero_weight_sum_raises counter_rng (px 10 10 10)
             3%nat 3%nat (default_rng 42) Hfin H6 H7).
Defined.

(** Claim C2 (update phase).  A cluster index with at least one assigned
    pixel gets the componentwise mean of exactly the pixels that carry this
    label; an index with no assigned pixel keeps its previous center.  The
    update therefore maps finite centers to finite centers, and no center
    held by the loop of [kmeans] has a NaN or infinite component. *)
Theorem update_means_or_keeps :
  (forall pixels labels centers k new_centers,
      length labels = length pixels ->
      update pixels labels centers k = Ok new_centers ->
      length new_centers = k /\
      (forall i, (i < k)%nat ->
         (In i labels ->
            nth_error new_centers i
              = Some (mean_axis0 (members pixels labels i)) /\
            members pixels labels i <> [] /\
            length (members pixels labels i) = count_occ Nat.eq_dec labels i /\
            (forall p, In p (members pixels labels i) <->
                       exists j, nth_error pixels j = Some p /\
                                 nth_error labels j = Some i)) /\
         (~ In i labels -> nth_error new_centers i = nth_error centers i)) /\
      (Forall finite_rgb pixels -> Forall finite_rgb centers ->
       Forall finite_rgb new_centers)) /\
  (forall (R : NumpyRandom) pixels k m seed st,
      kmeans_run pixels k m seed = Ok st ->
      Forall finite_rgb pixels -> Forall finite_rgb (centers_of st)).
Proof.
  split.
  - intros pixels labels centers k nc Hlen H.
    split; [eapply update_length; eassumption|]. split.
    + intros i Hi.
      destruct (update_nth_error _ _ _ _ _ i H Hi) as (c & Hc & Hnew).
      unfold new_center in Hnew. split.
      * intros Hin. apply any_label_In in Hin. rewrite Hin in Hnew.
        inversion Hnew; subst c. repeat split.
        -- assumption.
        -- apply members_nonempty; assumption.
        -- apply members_length; assumption.
        -- apply members_In.
        -- apply members_In.
      * intros Hnin.
        destruct (any_label labels i) eqn:E;
          [apply any_label_In in E; contradiction|].
        apply getitem_Ok in Hnew. congruence.
    + intros Hp Hc. eapply update_finite; eassumption.
  - intros R pixels k m seed st. apply kmeans_run_finite.
Qed.

Lemma update_means_or_keeps_witness :
  let pixels := [px 0 0 0; px 2 0 0; px 9 9 9] in
  let centers := [px 0 0 0; px 5 5 5; px 9 9 9] in
  update pixels [0; 0; 2]%nat centers 3
    = Ok [RGB (F64.Fin (2 # 2)) (F64.Fin (0 # 2)) (F64.Fin (0 # 2));
          px 5 5 5;
          RGB (F64.Fin (9 # 1)) (F64.Fin (9 # 1)) (F64.Fin (9 # 1))] /\
  nth_error [RGB (F64.Fin (2 # 2)) (F64.Fin (0 # 2)) (F64.Fin (0 # 2));
             px 5 5 5;
             RGB (F64.Fin (9 # 1)) (F64.Fin (9 # 1)) (F64.Fin (9 # 1))] 1
    = nth_error centers 1.
Proof.
  intros pixels centers.
  assert (Hup : update pixels [0; 0; 2]%nat centers 3
    = Ok [RGB (F64.Fin (2 # 2)) (F64.Fin (0 # 2)) (F64.Fin (0 # 2));
          px 5 5 5;
          RGB (F64.Fin (9 # 1)) (F64.Fin (9 # 1)) (F64.Fin (9 # 1))])
    by reflexivity.
  split; [exact Hup|].
  destruct (proj1 update_means_or_keeps pixels [0; 0; 2]%nat centers 3%nat _
              eq_refl Hup) as (_ & Hspec & _).
  assert (H13 : (1 < 3)%nat) by lia.
  apply (proj2 (Hspec 1%nat H13)).
  simpl; intuition discriminate.
Defined.

(** Claim C3 (assignment phase).  For [k >= 1] finite centers, every finite
    pixel gets one label below [k]: the index of a center at the least
    squared distance, and the lowest such index.  The labels [kmeans]
    returns are as many as the pixels and all lie below [k]. *)
Theorem assign_nearest_lowest_index :
  (forall pixels centers,
      centers <> [] ->
      Forall finite_rgb pixels -> Forall finite_rgb centers ->
      length (assign pixels centers) = length pixels /\
      forall i p, nth_error pixels i = Some p ->
        exists l c,
          nth_error (assign pixels centers) i = Some l /\
          (l < length centers)%nat /\
          nth_error centers l = Some c /\
          forall j c', nth_error centers j = Some c' ->
            F64.leb (sqdist p c) (sqdist p c') = true /\
            ((j < l)%nat -> F64.ltb (sqdist p c) (sqdist p c') = true)) /\
  (forall (R : NumpyRandom) pixels k m seed centers labels,
      (1 <= k)%nat ->
      kmeans pixels k m seed = Ok (centers, labels) ->
      length labels = length pixels /\
      Forall (fun l => (l < k)%nat) labels).
Proof.
  split.
  - intros pixels centers Hne Hp Hc.
    split; [apply assign_length|].
    intros i p Hi.
    assert (Hfp : finite_rgb p).
    { rewrite Forall_forall in Hp. apply Hp.
      eapply nth_error_In; eassumption. }
    assert (Hd : distances_to centers p <> [])
      by (destruct centers; [congruence | discriminate]).
    destruct (argmin_least _ Hd (distances_to_finite centers p Hc Hfp))
      as (x & Hx & Hmin).
    set (l := argmin (distances_to centers p)) in *.
    unfold distances_to in Hx. rewrite nth_error_map in Hx.
    destruct (nth_error centers l) as [c|] eqn:El; [|discriminate].
    inversion Hx; subst x; clear Hx.
    exists l, c.
    split; [apply assign_nth_error; assumption|].
    split; [apply nth_error_Some; congruence|].
    split; [assumption|].
    intros j c' Hj. apply (Hmin j). unfold distances_to.
    rewrite nth_error_map, Hj; reflexivity.
  - intros R pixels k m seed centers labels Hk H.
    destruct (kmeans_labels pixels k m seed centers labels Hk H)
      as (_ & _ & Hlen & Hrange).
    split; assumption.
Qed.

Lemma assign_nearest_lowest_index_witness :
  ([px 3 0 0; px 3 0 0; px 20 0 0] <> [] /\
   Forall finite_rgb five_pixels /\
   Forall finite_rgb [px 3 0 0; px 3 0 0; px 20 0 0]) /\
  length (assign five_pixels [px 3 0 0; px 3 0 0; px 20 0 0])
    = length five_pixels /\
  ((1 <= 2)%nat /\
   kmeans (R := counter_rng) five_pixels 2 100 42
     = Ok ([RGB (F64.Fin (12 # 4)) (F64.Fin (0 # 4)) (F64.Fin (0 # 4));
            px 20 0 0], [0; 0; 0; 0; 1]%nat)) /\
  Forall (fun l => (l < 2)%nat) [0; 0; 0; 0; 1]%nat.
Proof.
  assert (H1 : [px 3 0 0; px 3 0 0; px 20 0 0] <> []) by discriminate.
  assert (H2 : Forall finite_rgb five_pixels) by (repeat constructor).
  assert (H3 : Forall finite_rgb [px 3 0 0; px 3 0 0; px 20 0 0])
    by (repeat constructor).
  assert (H4 : (1 <= 2)%nat) by lia.
  assert (H5 : kmeans (R := counter_rng) five_pixels 2 100 42
     = Ok ([RGB (F64.Fin (12 # 4)) (F64.Fin (0 # 4)) (F64.Fin (0 # 4));
            px 20 0 0], [0; 0; 0; 0; 1]%nat)) by (vm_compute; reflexivity).
  split; [tauto|]. split.
  - exact (proj1 (proj1 assign_nearest_lowest_index five_pixels _ H1 H2 H3)).
  - split; [tauto|].
    exact (proj2 (proj2 assign_nearest_lowest_index counter_rng five_pixels
                    2%nat 100%nat 42%Z _ _ H4 H5)).
Defined.

(** Claim C4 (iteration cap).  For [k >= 1], either the seeding raises and
    [kmeans] raises with it before any iteration, or [kmeans] runs its loop
    to the end and starts at most [max_iterations] iterations, 100 by
    default.  It stops before the cap only when the convergence test
    succeeds; at the cap it stops whatever the test says.  With
    [max_iterations >= 1] it then returns centers and labels. *)
Theorem kmeans_iterations_bounded :
  forall (R : NumpyRandom) pixels k m seed,
    (1 <= k)%nat ->
    ((exists e,
        kmeans_plusplus_init pixels k (default_rng seed) = Raise e /\
        kmeans_run pixels k m seed = Raise e) \/
     (exists st,
        kmeans_run pixels k m seed = Ok st /\
        (iterations_of st <= m)%nat /\
        ((iterations_of st < m)%nat ->
         exists new,
           update pixels (assign pixels (centers_of st)) (centers_of st) k
             = Ok new /\
           allclose (centers_of st) new = Ok true) /\
        ((1 <= m)%nat ->
         exists labels, kmeans pixels k m seed = Ok (centers_of st, labels))))
    /\ default_max_iterations = 100%nat.
Proof.
  intros R pixels k m seed Hk. split; [|reflexivity].
  destruct (kmeans_plusplus_init pixels k (default_rng seed))
    as [[c0 g']|e] eqn:Hinit.
  2:{ left; exists e; split; [reflexivity|].
      unfold kmeans_run; rewrite Hinit; reflexivity. }
  right.
  pose proof (kmeans_plusplus_init_length _ _ _ _ _ Hinit Hk) as Hlen.
  destruct (kmeans_loop_total pixels k m (LoopState c0 None 0) Hlen)
    as [st Hloop].
  assert (Hrun : kmeans_run pixels k m seed = Ok st).
  { unfold kmeans_run. rewrite Hinit; simpl. assumption. }
  exists st. split; [assumption|].
  destruct m as [|m].
  - simpl in Hloop; inversion Hloop; subst; simpl.
    repeat split; try lia.
  - apply kmeans_loop_spec in Hloop; simpl in Hloop.
    destruct Hloop as (j & prev & new & Hj & _ & Hup & Hlab & Hit & Hend).
    repeat split.
    + lia.
    + intros Hlt.
      destruct Hend as [[Hclose ->] | (_ & -> & _)]; [eauto | lia].
    + intros _. exists (assign pixels prev).
      apply kmeans_Ok. exists st; auto.
Qed.

Lemma kmeans_iterations_bounded_witness :
  (1 <= 2)%nat /\
  exists st, kmeans_run (R := counter_rng) five_pixels 2 1 40 = Ok st /\
             (iterations_of st <= 1)%nat.
Proof.
  assert (H1 : (1 <= 2)%nat) by lia.
  split; [exact H1|].
  destruct (proj1 (kmeans_iterations_bounded counter_rng five_pixels 2 1 40 H1))
    as [(e & Hinit & _) | (st & Hrun & Hle & _)].
  - vm_compute in Hinit; discriminate.
  - exists st; auto.
Defined.

(** Claim C5 (convergence test), as amended.  After an update phase the
    loop stops exactly when every component [c] of every previous center
    and the corresponding component [c'] of the new center satisfy
    [|c - c'| <= 1e-8 + 1e-5 * |c'|], the default tolerance of
    [np.allclose], which is relative to the new value; otherwise the loop
    goes on with the new centers. *)
Theorem convergence_test_numpy_tolerance :
  forall pixels k m st new_centers,
    Forall finite_rgb pixels -> Forall finite_rgb (centers_of st) ->
    length (centers_of st) = k ->
    update pixels (assign pixels (centers_of st)) (centers_of st) k
      = Ok new_centers ->
    (Forall2 within_tolerance_rgb (centers_of st) new_centers ->
     kmeans_loop pixels k (S m) st
       = Ok (LoopState (centers_of st)
                       (Some (assign pixels (centers_of st)))
                       (S (iterations_of st)))) /\
    (~ Forall2 within_tolerance_rgb (centers_of st) new_centers ->
     kmeans_loop pixels k (S m) st
       = kmeans_loop pixels k m
           (LoopState new_centers (Some (assign pixels (centers_of st)))
                      (S (iterations_of st)))).
Proof.
  intros pixels k m st nc Hp Hc Hlen Hup.
  pose proof (update_length _ _ _ _ _ Hup) as Hlen'.
  assert (Hnc : Forall finite_rgb nc).
  { eapply update_finite; try eassumption. apply assign_length. }
  assert (Hiff := all_isclose_finite (centers_of st) nc
                    ltac:(congruence) Hc Hnc).
  rewrite kmeans_loop_S, Hup; simpl.
  unfold allclose. rewrite Hlen, Hlen', Nat.eqb_refl; simpl.
  destruct (all_isclose (centers_of st) nc); split; intros H.
  - reflexivity.
  - exfalso; apply H, Hiff; reflexivity.
  - apply Hiff in H; discriminate.
  - reflexivity.
Qed.

Lemma convergence_test_numpy_tolerance_witness :
  let pixels := [px 1 0 0; px 1 0 0] in
  let st := LoopState [px 1 0 0] None 0 in
  let new := [RGB (F64.Fin (2 # 2)) (F64.Fin (0 # 2)) (F64.Fin (0 # 2))] in
  (Forall finite_rgb pixels /\ Forall finite_rgb (centers_of st) /\
   length (centers_of st) = 1%nat /\
   update pixels (assign pixels (centers_of st)) (centers_of st) 1 = Ok new /\
   Forall2 within_tolerance_rgb (centers_of st) new) /\
  kmeans_loop pixels 1 100 st = Ok (LoopState [px 1 0 0] (Some [0; 0]%nat) 1).
Proof.
  intros pixels st new.
  assert (H1 : Forall finite_rgb pixels) by (repeat constructor).
  assert (H2 : Forall finite_rgb (centers_of st)) by (repeat constructor).
  assert (H3 : length (centers_of st) = 1%nat) by reflexivity.
  assert (H4 : update pixels (assign pixels (centers_of st)) (centers_of st) 1
               = Ok new) by reflexivity.
  assert (H5 : Forall2 within_tolerance_rgb (centers_of st) new).
  { repeat constructor; vm_compute; discriminate. }
  split; [tauto|].
  exact (proj1 (convergence_test_numpy_tolerance pixels 1 99 st new
                  H1 H2 H3 H4) H5).
Defined.

(** Claim C5 as stated fails.  On [near_white_image] with one cluster and
    the white center the seeding draws, the first update moves the red
    component of the center from 255 to 254.999, a thousand times the
    absolute tolerance 1e-6, and the loop stops all the same after this
    first iteration of the hundred allowed. *)
Lemma convergence_test_absolute_counterexample :
  kmeans_loop near_white_image 1 100 (LoopState [px 255 255 255] None 0)
    = Ok (LoopState [px 255 255 255] (Some (repeat 0%nat 1000)) 1) /\
  kmeans_run (R := counter_rng) near_white_image 1 100 42
    = Ok (LoopState [px 255 255 255] (Some (repeat 0%nat 1000)) 1) /\
  update near_white_image (assign near_white_image [px 255 255 255])
         [px 255 255 255] 1
    = Ok [RGB (F64.Fin (254999 # 1000)) (F64.Fin (255000 # 1000))
              (F64.Fin (255000 # 1000))] /\
  F64.ltb (F64.Fin (1 # 1000000))
          (F64.abs (F64.sub (F64.of_Z 255) (F64.Fin (254999 # 1000)))) = true.
Proof.
  repeat split; vm_compute; reflexivity.
Qed.

(** Claim C6 (percentages).  Before the sort, entry [i] of the result
    reports [count[i] / total_pixels * 100], where [count[i]] is the number
    of pixels labelled [i] and [total_pixels] the number of pixels, and 0.0
    for a cluster without pixels.  The percentages returned add up to 100;
    the sum is exact here because the embedding does not round. *)
Theorem percentages_are_shares_summing_to_100 :
  forall (R : NumpyRandom) pixels k results,
    (1 <= k)%nat ->
    extract_colors_from_image pixels k = Ok results ->
    exists centers labels unsorted,
      kmeans pixels k default_max_iterations default_random_state
        = Ok (centers, labels) /\
      aggregate centers labels k = Ok unsorted /\
      Permutation unsorted results /\
      length labels = length pixels /\
      length unsorted = k /\
      (forall i e, nth_error unsorted i = Some e ->
         (In i labels ->
          percentage e
          = F64.mul (F64.div (F64.of_nat (count_occ Nat.eq_dec labels i))
                             (F64.of_nat (length labels)))
                    (F64.of_Z 100)) /\
         (count_occ Nat.eq_dec labels i = 0%nat ->
          percentage e = F64.zero)) /\
      F64.equiv (F64.sum (map percentage results)) (F64.of_Z 100).
Proof.
  intros R pixels k results Hk H.
  apply extract_colors_from_image_Ok in H.
  destruct H as (centers & labels & unsorted & Hkm & Hagg & ->).
  destruct (kmeans_labels _ _ _ _ _ _ Hk Hkm) as (Hpx & _ & Hlen & Hrange).
  assert (Hne : labels <> []).
  { intros ->. destruct pixels; [congruence | discriminate]. }
  pose proof (Permutation_sym (sort_desc_perm unsorted)) as Hperm.
  exists centers, labels, unsorted.
  repeat (split; [first [assumption | eapply aggregate_length; eassumption]|]).
  split.
  - intros i e Hi.
    destruct (aggregate_nth_error _ _ _ _ _ _ Hagg Hi) as [_ Hone].
    apply extract_one_Ok in Hone. destruct Hone as (c & _ & _ & Hpct).
    split.
    + intros Hin. rewrite cluster_percentage_present in Hpct by assumption.
      congruence.
    + intros Hz. apply count_occ_not_In in Hz.
      rewrite cluster_percentage_absent in Hpct by assumption. congruence.
  - destruct (aggregate_sum _ _ _ _ Hne Hrange Hagg) as [Hfin Hsum].
    assert (Hfin' : Forall F64.finite (map percentage (sort_desc unsorted))).
    { eapply Permutation_Forall; [|exact Hfin].
      apply Permutation_map; assumption. }
    destruct (sum_Fin _ Hfin') as (s & -> & Hs); simpl.
    rewrite Hs, <- Hsum. apply Qsum_Permutation.
    do 2 apply Permutation_map. apply sort_desc_perm.
Qed.

Lemma percentages_are_shares_summing_to_100_witness :
  ((1 <= 2)%nat /\
   extract_colors_from_image (R := counter_rng) two_colour_image 2
   = Ok [mkExtractedColor "#ff0000" (F64.Fin (1000 # 15));
         mkExtractedColor "#0000ff" (F64.Fin (500 # 15))]) /\
  F64.equiv (F64.sum [F64.Fin (1000 # 15); F64.Fin (500 # 15)]) (F64.of_Z 100).
Proof.
  assert (H1 : (1 <= 2)%nat) by lia.
  assert (H2 : extract_colors_from_image (R := counter_rng) two_colour_image 2
   = Ok [mkExtractedColor "#ff0000" (F64.Fin (1000 # 15));
         mkExtractedColor "#0000ff" (F64.Fin (500 # 15))])
    by (vm_compute; reflexivity).
  split; [tauto|].
  destruct (percentages_are_shares_summing_to_100 counter_rng two_colour_image
              2%nat _ H1 H2) as (_ & _ & _ & _ & _ & _ & _ & _ & _ & Hsum).
  exact Hsum.
Defined.

(** Claim C7 (determinism).  Two runs of [kmeans] on the same pixels,
    number of clusters, iteration cap and seed, each with a generator of its
    own.  A generator numpy seeds with the same value hands out the same
    numbers in every run: that is the hypothesis, on the index of
    [rng.integers(n_samples)] and on the [n_clusters - 1] uniform numbers
    behind [rng.choice], which are all that [kmeans] draws.  Then the two
    runs end alike: they return the same centers and the same labels, or
    raise the same exception.  With the seed 42, which
    [extract_colors_from_image] always passes, two calls of it on the same
    pixels and [num_colors] return the same list. *)
Theorem kmeans_deterministic :
  forall (R R' : NumpyRandom) pixels k m seed,
    draws (R := R) seed (length pixels) (k - 1)
    = draws (R := R') seed (length pixels) (k - 1) ->
    kmeans (R := R) pixels k m seed = kmeans (R := R') pixels k m seed /\
    (seed = default_random_state ->
     extract_colors_from_image (R := R) pixels k
     = extract_colors_from_image (R := R') pixels k).
Proof.
  intros R R' pixels k m seed H. split.
  - unfold kmeans. rewrite (kmeans_run_same_draws R R' pixels k m seed H).
    reflexivity.
  - intros ->. unfold extract_colors_from_image, kmeans.
    rewrite (kmeans_run_same_draws R R' pixels k default_max_iterations
               default_random_state H).
    reflexivity.
Qed.

Lemma kmeans_deterministic_witness :
  (draws (R := counter_rng) 42 (length five_pixels) (2 - 1)
   = draws (R := tally_rng) 42 (length five_pixels) (2 - 1) /\
   42%Z = default_random_state) /\
  kmeans (R := counter_rng) five_pixels 2 100 42
  = kmeans (R := tally_rng) five_pixels 2 100 42 /\
  extract_colors_from_image (R := counter_rng) five_pixels 2
  = extract_colors_from_image (R := tally_rng) five_pixels 2.
Proof.
  assert (H1 : draws (R := counter_rng) 42 (length five_pixels) (2 - 1)
               = draws (R := tally_rng) 42 (length five_pixels) (2 - 1))
    by reflexivity.
  assert (H2 : 42%Z = default_random_state) by reflexivity.
  split; [split; assumption|].
  pose proof (kmeans_deterministic counter_rng tally_rng five_pixels 2%nat
                100%nat 42%Z H1) as [Hk He].
  split; [exact Hk | exact (He H2)].
Defined.



(** Claim C9 (what the seeding returns).  The specification promises [k]
    centers for every [k] between 1 and the number of pixels.  On an image
    of a single colour with [k >= 2] the program returns none: once the
    first center is chosen every weight is zero and [rng.choice] raises
    [ValueError], whatever the generator draws. *)
Theorem seed_single_colour_raises :
  forall (R : NumpyRandom) p n k (g : Generator),
    finite_rgb p -> (2 <= k <= n)%nat ->
    repeat p n <> [] /\ (1 <= k <= length (repeat p n))%nat /\
    kmeans_plusplus_init (repeat p n) k g = Raise ValueError.
Proof.
  intros R p n k g Hp [Hk Hn].
  split; [destruct n; [lia | discriminate]|].
  split; [rewrite repeat_length; lia|].
  apply kmeans_plusplus_init_uniform; [assumption | lia | lia].
Qed.

Lemma seed_single_colour_raises_witness :
  (finite_rgb (px 10 10 10) /\ (2 <= 2 <= 2)%nat) /\
  kmeans_plusplus_init (R := counter_rng) [px 10 10 10; px 10 10 10] 2
                       (default_rng 42) = Raise ValueError.
Proof.
  assert (H1 : finite_rgb (px 10 10 10)) by (repeat split).
  assert (H2 : (2 <= 2 <= 2)%nat) by lia.
  split; [tauto|].
  exact (proj2 (proj2 (seed_single_colour_raises counter_rng (px 10 10 10)
                         2%nat 2%nat (default_rng 42) H1 H2))).
Defined.

(** Claim C10 (labels against centers).  The labels [kmeans] returns are the
    assignment against the centers [prev] held at the start of the last
    iteration run.  If the loop left by the convergence test, [prev] are the
    centers returned.  If it left by exhausting [max_iterations], the
    centers returned are the update of [prev], and a label need not name
    the nearest returned center: on [five_pixels] with the initial centers
    (0, 0, 0) and (6, 0, 0) and one iteration, the pixel (5, 0, 0) is
    returned with label 1 while the nearest returned center is center 0. *)
Theorem labels_from_last_iteration :
  (forall (R : NumpyRandom) pixels k m seed centers labels,
      kmeans pixels k m seed = Ok (centers, labels) ->
      exists c0 (g' : Generator) j prev new,
        kmeans_plusplus_init pixels k (default_rng seed) = Ok (c0, g') /\
        (j < m)%nat /\
        lloyd_steps pixels k j c0 prev /\
        labels = assign pixels prev /\
        update pixels labels prev k = Ok new /\
        ((allclose prev new = Ok true /\ centers = prev) \/
         (allclose prev new = Ok false /\ S j = m /\ centers = new))) /\
  (exists centers labels,
      kmeans_loop five_pixels 2 1 (LoopState [px 0 0 0; px 6 0 0] None 0)
        = Ok (LoopState centers (Some labels) 1) /\
      kmeans (R := counter_rng) five_pixels 2 1 40 = Ok (centers, labels) /\
      nth_error five_pixels 2 = Some (px 5 0 0) /\
      nth_error labels 2 = Some 1%nat /\
      nth_error (assign five_pixels centers) 2 = Some 0%nat).
Proof.
  split.
  - intros R pixels k m seed centers labels H.
    apply kmeans_Ok in H. destruct H as (st & Hrun & Hcen & Hlab).
    apply kmeans_run_Ok in Hrun. destruct Hrun as (c0 & g' & Hinit & Hloop).
    destruct m as [|m].
    { simpl in Hloop; inversion Hloop; subst; discriminate. }
    apply kmeans_loop_spec in Hloop; simpl in Hloop.
    destruct Hloop as (j & prev & new & Hj & Hsteps & Hup & Hlab' & _ & Hend).
    rewrite Hlab in Hlab'; inversion Hlab'; subst labels.
    exists c0, g', j, prev, new.
    repeat (split; [first [assumption | reflexivity | lia]|]).
    rewrite <- Hcen.
    destruct Hend as [[Hc Hp] | (Hc & -> & Hn)]; [left | right]; auto.
  - eexists; eexists. split; [vm_compute; reflexivity|].
    repeat split; vm_compute; reflexivity.
Qed.

Lemma labels_from_last_iteration_witness :
  kmeans (R := counter_rng) five_pixels 2 1 40
  = Ok ([RGB (F64.Fin (1 # 2)) (F64.Fin (0 # 2)) (F64.Fin (0 # 2));
         RGB (F64.Fin (31 # 3)) (F64.Fin (0 # 3)) (F64.Fin (0 # 3))],
        [0; 0; 1; 1; 1]%nat) /\
  exists prev, [0; 0; 1; 1; 1]%nat = assign five_pixels prev.
Proof.
  assert (H : kmeans (R := counter_rng) five_pixels 2 1 40
  = Ok ([RGB (F64.Fin (1 # 2)) (F64.Fin (0 # 2)) (F64.Fin (0 # 2));
         RGB (F64.Fin (31 # 3)) (F64.Fin (0 # 3)) (F64.Fin (0 # 3))],
        [0; 0; 1; 1; 1]%nat)) by (vm_compute; reflexivity).
  split; [exact H|].
  destruct (proj1 labels_from_last_iteration counter_rng five_pixels 2%nat
              1%nat 40%Z _ _ H)
    as (c0 & g' & j & prev & new & _ & _ & _ & Hlab & _).
  exists prev; exact Hlab.
Defined.

(** * Further properties of the program *)

From Stdlib Require Import Lqa.

(** ** What the seeding draws *)

Lemma div_Fin : forall a t,
  ~ t == 0 -> F64.div (F64.Fin a) (F64.Fin t) = F64.Fin (a / t).
Proof.
  intros a t Ht; unfold F64.div.
  destruct (Qeq_bool t 0) eqn:E; [|reflexivity].
  apply Qeq_bool_iff in E; contradiction.
Qed.

Lemma Qdiv_lt_cancel : forall a b t, 0 < t -> a / t < b / t -> a < b.
Proof.
  intros a b t Ht H. unfold Qdiv in H.
  apply (Qmult_lt_r a b (/ t)); [apply Qinv_lt_0_compat; assumption|].
  assumption.
Qed.

Lemma Qpos_neq0 : forall t, 0 < t -> ~ t == 0.
Proof. intros t Ht E. rewrite E in Ht. discriminate. Qed.

(** Inverting the cumulative distribution never lands on an entry of
    weight zero. *)
Lemma searchsorted_cumsum_from_positive : forall l acc t u,
  0 < t -> Forall nonneg l -> acc / t <= u ->
  let i := searchsorted_right
             (map (fun x => F64.div x (F64.Fin t))
                  (F64.cumsum_from (F64.Fin acc) l))
             (F64.Fin u) in
  (i < length l)%nat ->
  exists x, nth_error l i = Some x /\ 0 < qval x.
Proof.
  induction l as [|x l IH]; intros acc t u Ht Hnn Hacc i Hi;
    [simpl in Hi; lia|].
  inversion Hnn as [|? ? Hx Hl]; subst.
  destruct x as [q| |]; simpl in Hx; try tauto.
  subst i.
  change (F64.cumsum_from (F64.Fin acc) (F64.Fin q :: l))
    with (F64.Fin (acc + q) :: F64.cumsum_from (F64.Fin (acc + q)) l) in *.
  rewrite map_cons in *.
  rewrite (div_Fin (acc + q) t (Qpos_neq0 t Ht)) in *.
  change (searchsorted_right (F64.Fin ((acc + q) / t) :: ?r) (F64.Fin u))
    with (if F64.Qltb u ((acc + q) / t) then 0%nat
          else S (searchsorted_right r (F64.Fin u))) in *.
  destruct (F64.Qltb u ((acc + q) / t)) eqn:E.
  - exists (F64.Fin q); split; [reflexivity|]. simpl.
    apply Qltb_lt in E.
    assert (H : acc < acc + q).
    { apply Qdiv_lt_cancel with t; [assumption|].
      apply Qle_lt_trans with u; assumption. }
    apply (Qplus_lt_l 0 q acc). rewrite Qplus_0_l, (Qplus_comm q acc).
    assumption.
  - apply Qltb_ge in E. simpl in Hi.
    destruct (IH (acc + q) t u Ht Hl E) as (x & Hx' & Hpos); [lia|].
    exists x; split; assumption.
Qed.

Section SeedingDraws.

Context {R : NumpyRandom}.

(** The index [rng.choice] draws carries a positive probability. *)
Lemma choice_draw_positive : forall g p i g',
  p <> [] -> Forall nonneg p -> Qsum (map qval p) == 1 ->
  choice g (length p) p = Ok (i, g') ->
  exists x, nth_error p i = Some x /\ 0 < qval x.
Proof.
  intros g p i g' Hne Hnn Hsum H.
  assert (Hfin : Forall F64.finite p).
  { revert Hnn; apply Forall_impl; apply nonneg_finite. }
  destruct (choice_Ok g p Hne Hnn Hsum) as (i0 & g0 & H0 & Hi0).
  rewrite H in H0; inversion H0; subst i0 g0; clear H0.
  unfold choice in H.
  destruct (Nat.eqb_spec (length p) 0) as [E|_];
    [destruct p; [congruence | discriminate]|].
  rewrite Nat.eqb_refl in H; simpl negb in H; cbv iota in H.
  destruct (sum_Fin p Hfin) as (s & Hs & Hq). rewrite Hs in H.
  simpl F64.isnan in H; cbv iota in H.
  destruct (existsb (fun x => F64.ltb x F64.zero) p); [discriminate|].
  destruct (F64.gtb (F64.abs (F64.sub (F64.Fin s) F64.one)) choice_atol);
    [discriminate|].
  destruct (cumsum_last p Hne Hfin) as (t & Ht & Hqt). rewrite Ht in H.
  assert (Ht1 : t == 1) by (rewrite Hqt; exact Hsum).
  assert (Htpos : 0 < t) by (rewrite Ht1; reflexivity).
  pose proof (rng_random_range g) as [Hu0 Hu1].
  destruct (rng_random g) as [u g1]; simpl in Hu0, Hu1.
  destruct p as [|x l]; [congruence|].
  inversion Hnn as [|? ? Hx Hl]; subst x0 l0.
  destruct x as [q| |]; simpl in Hx; try tauto.
  change (F64.cumsum (F64.Fin q :: l))
    with (F64.Fin q :: F64.cumsum_from (F64.Fin q) l) in H.
  rewrite map_cons, (div_Fin q t (Qpos_neq0 t Htpos)) in H.
  change (searchsorted_right (F64.Fin (q / t) :: ?r) (F64.Fin u))
    with (if F64.Qltb u (q / t) then 0%nat
          else S (searchsorted_right r (F64.Fin u))) in H.
  destruct (F64.Qltb u (q / t)) eqn:E; inversion H as [[Hi Hg]]; clear H.
  - exists (F64.Fin q); split; [reflexivity|]. simpl.
    apply Qltb_lt in E.
    assert (H : 0 / t < q / t).
    { apply Qle_lt_trans with u; [|assumption].
      unfold Qdiv; rewrite Qmult_0_l; assumption. }
    apply Qdiv_lt_cancel in H; assumption.
  - apply Qltb_ge in E. rewrite <- Hi in Hi0. simpl in Hi0.
    destruct (searchsorted_cumsum_from_positive l q t u Htpos Hl E)
      as (x & Hx' & Hpos); [lia|].
    exists x; split; assumption.
Qed.

(** A pixel at a chosen center has the least distance zero. *)
Lemma fold_minimum_zero : forall p cs m,
  Forall finite_rgb cs -> finite_rgb p -> nonneg m ->
  (is_zero m \/ exists c, In c cs /\ is_zero (sqdist p c)) ->
  is_zero (fold_left (fun m c' => F64.minimum m (sqdist p c')) cs m).
Proof.
  intros p; induction cs as [|x cs IH]; intros m Hcs Hp Hm H; simpl.
  - destruct H as [H | (c & [] & _)]; assumption.
  - inversion Hcs as [|? ? Hx Hcs']; subst.
    pose proof (sqdist_nonneg p x Hp Hx) as Hd.
    apply IH; try assumption.
    + apply minimum_nonneg; assumption.
    + destruct H as [H | (c & [<- | Hin] & Hz)].
      * left. destruct m as [a| |], (sqdist p x) as [b| |];
          simpl in *; try tauto.
        unfold F64.minimum; simpl.
        destruct (F64.Qltb b a) eqn:E; [|assumption].
        apply Qltb_lt in E. rewrite H in E.
        exfalso. apply (Qlt_irrefl 0), Qle_lt_trans with b; assumption.
      * left. destruct m as [a| |], (sqdist p x) as [b| |];
          simpl in *; try tauto.
        unfold F64.minimum; simpl.
        destruct (F64.Qltb b a) eqn:E; [assumption|].
        apply Qltb_ge in E. rewrite Hz in E.
        apply Qle_antisym; assumption.
      * right; exists c; auto.
Qed.

Lemma min_sqdist_zero : forall centers p c,
  Forall finite_rgb centers -> finite_rgb p ->
  In c centers -> is_zero (sqdist p c) -> is_zero (min_sqdist centers p).
Proof.
  intros [|c0 cs] p c Hcs Hp Hin Hz; [contradiction|]; simpl.
  inversion Hcs as [|? ? Hc0 Hcs']; subst.
  apply fold_minimum_zero; try assumption.
  - apply sqdist_nonneg; assumption.
  - destruct Hin as [<- | Hin]; [left; assumption | right; eauto].
Qed.

Lemma distinct_colours_snoc : forall cs c,
  distinct_colours cs ->
  (forall c', In c' cs -> ~ is_zero (sqdist c c')) ->
  distinct_colours (cs ++ [c]).
Proof.
  intros cs c Hd; induction Hd as [|a cs Ha Hd IH]; intros Hc; simpl.
  - constructor; constructor.
  - constructor.
    + apply Forall_app; split; [assumption|].
      constructor; [|constructor]. apply Hc; left; reflexivity.
    + apply IH. intros c' Hin; apply Hc; right; assumption.
Qed.

Lemma is_zero_dec : forall x, {is_zero x} + {~ is_zero x}.
Proof.
  intros [q| |]; simpl; [apply Qeq_dec | right; tauto | right; tauto].
Qed.

(** The seeding loop keeps the centers pairwise different in colour. *)
Lemma init_loop_distinct : forall pixels iters centers g centers' g',
  Forall finite_rgb pixels -> centers <> [] -> incl centers pixels ->
  distinct_colours centers ->
  init_loop pixels (length pixels) iters centers g = Ok (centers', g') ->
  distinct_colours centers'.
Proof.
  intros pixels; induction iters as [|iters IH];
    intros centers g centers' g' Hfp Hne Hincl Hd H.
  - simpl in H; inversion H; subst; assumption.
  - assert (Hfc : Forall finite_rgb centers).
    { rewrite Forall_forall in *; auto. }
    assert (Hpx : pixels <> []).
    { destruct centers as [|c cs]; [congruence|].
      intros E. specialize (Hincl c (or_introl eq_refl)).
      rewrite E in Hincl; contradiction. }
    destruct (is_zero_dec (F64.sum (nearest_distances pixels centers)))
      as [Hz | Hnz].
    { rewrite (init_loop_zero_sum pixels (length pixels) iters centers g
                 Hpx Hne Hfp Hfc Hz) in H. discriminate. }
    pose proof (nearest_distances_nonneg pixels centers Hne Hfc Hfp) as Hnn.
    destruct (probabilities_valid _ Hnn Hnz) as [Hpn Hp1].
    simpl in H.
    set (total := F64.sum (nearest_distances pixels centers)) in *.
    set (ps := map (fun d => F64.div d total)
                   (nearest_distances pixels centers)) in *.
    assert (Hlen : length ps = length pixels).
    { unfold ps, nearest_distances. rewrite !length_map; reflexivity. }
    assert (Hps : ps <> []).
    { intros E. rewrite E in Hlen.
      destruct pixels; [congruence | discriminate]. }
    inv_bind H. destruct a as [i g1]. inv_bind H.
    rewrite <- Hlen in Ha.
    destruct (choice_draw_positive g ps i g1 Hps Hpn Hp1 Ha)
      as (x & Hx & Hpos).
    apply getitem_Ok in Ha0.
    unfold ps, nearest_distances in Hx.
    rewrite !nth_error_map, Ha0 in Hx. simpl in Hx.
    inversion Hx as [Hx']; clear Hx.
    assert (Hfa : finite_rgb a).
    { rewrite Forall_forall in Hfp. apply Hfp.
      eapply nth_error_In; eassumption. }
    assert (Hfar : forall c', In c' centers -> ~ is_zero (sqdist a c')).
    { intros c' Hin Hz.
      pose proof (min_sqdist_zero centers a c' Hfc Hfa Hin Hz) as Hmz.
      destruct (sum_nonneg _ Hnn) as [Hs0 _]. fold total in Hs0.
      destruct total as [t| |]; simpl in Hs0; try tauto.
      destruct (min_sqdist centers a) as [d| |]; simpl in Hmz; try tauto.
      assert (Ht : ~ t == 0) by exact Hnz.
      rewrite (div_Fin d t Ht) in Hx'. subst x. simpl in Hpos.
      rewrite Hmz in Hpos. unfold Qdiv in Hpos.
      rewrite Qmult_0_l in Hpos. discriminate. }
    apply IH in H; try assumption.
    + destruct centers; discriminate.
    + intros y Hy. apply in_app_or in Hy.
      destruct Hy as [Hy | [<- | []]]; [auto|].
      eapply nth_error_In; eassumption.
    + apply distinct_colours_snoc; assumption.
Qed.

Lemma kmeans_plusplus_init_distinct : forall pixels k g centers g',
  Forall finite_rgb pixels ->
  kmeans_plusplus_init pixels k g = Ok (centers, g') ->
  distinct_colours centers.
Proof.
  intros pixels k g centers g' Hfp H; unfold kmeans_plusplus_init in H.
  inv_bind H. destruct a as [first_idx g1]. inv_bind H.
  apply getitem_Ok in Ha0.
  unfold integers in Ha.
  destruct (length pixels =? 0)%nat; [discriminate|].
  eapply init_loop_distinct; try eassumption.
  - discriminate.
  - intros y [<- | []]. eapply nth_error_In; eassumption.
  - constructor; constructor.
Qed.

End SeedingDraws.

Section SeedingOutcome.

Context {R : NumpyRandom}.

(** The seeding loop raises nothing but [ValueError]. *)
Lemma init_loop_raises : forall pixels iters centers g e,
  Forall finite_rgb pixels -> centers <> [] -> incl centers pixels ->
  init_loop pixels (length pixels) iters centers g = Raise e ->
  e = ValueError.
Proof.
  intros pixels; induction iters as [|iters IH];
    intros centers g e Hfp Hne Hincl H; [discriminate|].
  assert (Hfc : Forall finite_rgb centers).
  { rewrite Forall_forall in *; auto. }
  assert (Hpx : pixels <> []).
  { destruct centers as [|c cs]; [congruence|].
    intros E. specialize (Hincl c (or_introl eq_refl)).
    rewrite E in Hincl; contradiction. }
  destruct (is_zero_dec (F64.sum (nearest_distances pixels centers)))
    as [Hz | Hnz].
  - rewrite (init_loop_zero_sum pixels (length pixels) iters centers g
               Hpx Hne Hfp Hfc Hz) in H. congruence.
  - destruct (init_loop_step_Ok pixels iters centers g Hpx Hne Hfp Hfc Hnz)
      as (c & g' & Hin & Heq).
    rewrite Heq in H. apply IH in H; try assumption.
    + destruct centers; discriminate.
    + intros y Hy. apply in_app_or in Hy.
      destruct Hy as [Hy | [<- | []]]; auto.
Qed.

Lemma kmeans_plusplus_init_raises : forall pixels k g e,
  Forall finite_rgb pixels ->
  kmeans_plusplus_init pixels k g = Raise e -> e = ValueError.
Proof.
  intros pixels k g e Hfp H; unfold kmeans_plusplus_init, integers in H.
  destruct (Nat.eqb_spec (length pixels) 0) as [E|E];
    [simpl in H; congruence|].
  simpl in H.
  assert (Hn : (0 < length pixels)%nat) by lia.
  pose proof (rng_integers_range g (length pixels) Hn) as Hidx.
  destruct (rng_integers g (length pixels)) as [idx g1]; simpl in *.
  destruct (getitem_lt _ pixels idx Hidx) as [c Hget].
  rewrite Hget in H; simpl in H.
  apply init_loop_raises in H; try assumption; [discriminate|].
  intros y [<- | []]. apply getitem_Ok in Hget.
  eapply nth_error_In; eassumption.
Qed.

(** What the seeding does, by the number of colours in the image. *)
Lemma kmeans_plusplus_init_outcome : forall pixels k g,
  Forall finite_rgb pixels -> (1 <= k)%nat ->
  (has_colours pixels k ->
   exists centers g',
     kmeans_plusplus_init pixels k g = Ok (centers, g') /\
     length centers = k /\ incl centers pixels /\
     distinct_colours centers) /\
  (~ has_colours pixels k ->
   kmeans_plusplus_init pixels k g = Raise ValueError).
Proof.
  intros pixels k g Hfp Hk; split.
  - intros (ws & Hws & Hd & Hlen).
    destruct (kmeans_plusplus_init_succeeds pixels ws k g Hfp Hws Hd)
      as (centers & g' & Hinit & Hl & Hincl); [lia|].
    exists centers, g'. repeat split; try assumption.
    eapply kmeans_plusplus_init_distinct; eassumption.
  - intros Hno.
    destruct (kmeans_plusplus_init pixels k g) as [[centers g']|e] eqn:H.
    + exfalso; apply Hno. exists centers. repeat split.
      * apply kmeans_plusplus_init_pixels in H.
        rewrite Forall_forall in H; exact H.
      * eapply kmeans_plusplus_init_distinct; eassumption.
      * eapply kmeans_plusplus_init_length; eassumption.
    + apply kmeans_plusplus_init_raises in H; [congruence | assumption].
Qed.

End SeedingOutcome.

(** ** Centers stay within the range of the pixels *)

Lemma fold_add_range : forall lo hi l a,
  Forall (in_range lo hi) l ->
  exists s, fold_left F64.add l (F64.Fin a) = F64.Fin s /\
            a + inject_Z (Z.of_nat (length l)) * lo <= s /\
            s <= a + inject_Z (Z.of_nat (length l)) * hi.
Proof.
  intros lo hi; induction l as [|x l IH]; intros a H.
  - exists a; split; [reflexivity|].
    change (inject_Z (Z.of_nat (length (@nil float64)))) with 0. lra.
  - inversion H as [|? ? Hx Hl]; subst.
    destruct x as [q| |]; simpl in Hx; try tauto.
    destruct (IH (a + q) Hl) as (s & Hs & Hlo & Hhi).
    exists s; split; [exact Hs|].
    change (length (F64.Fin q :: l)) with (S (length l)).
    rewrite Nat2Z.inj_succ, <- Z.add_1_r, inject_Z_plus.
    change (inject_Z 1) with 1. lra.
Qed.

(** The mean of rows within a range lies within the range. *)
Lemma mean_axis0_in_range : forall lo hi rows,
  rows <> [] -> Forall (rgb_in_range lo hi) rows ->
  rgb_in_range lo hi (mean_axis0 rows).
Proof.
  intros lo hi rows Hne Hall.
  assert (Hn : 0 < inject_Z (Z.of_nat (length rows))).
  { change 0 with (inject_Z 0). rewrite <- Zlt_Qlt.
    destruct rows; [congruence | simpl; lia]. }
  assert (Hcomp : forall f : rgb -> float64,
            (forall p, rgb_in_range lo hi p -> in_range lo hi (f p)) ->
            in_range lo hi
              (F64.div (F64.sum (map f rows)) (F64.of_nat (length rows)))).
  { intros f Hf.
    assert (Hl : Forall (in_range lo hi) (map f rows)).
    { rewrite Forall_map. revert Hall; apply Forall_impl; exact Hf. }
    destruct (fold_add_range lo hi (map f rows) 0 Hl) as (s & Hs & Hlo & Hhi).
    rewrite length_map in Hlo, Hhi.
    unfold F64.sum, F64.zero, F64.of_nat. rewrite Hs.
    rewrite div_Fin by (apply Qpos_neq0; exact Hn). simpl. split.
    - apply Qle_shift_div_l; [exact Hn | lra].
    - apply Qle_shift_div_r; [exact Hn | lra]. }
  unfold mean_axis0, rgb_in_range; simpl.
  repeat split; apply Hcomp; intros p (Hr & Hg & Hb); assumption.
Qed.

Lemma in_range_finite : forall lo hi p, rgb_in_range lo hi p -> finite_rgb p.
Proof.
  intros lo hi [r g b] (Hr & Hg & Hb); simpl in *.
  destruct r, g, b; simpl in *; try tauto. repeat split.
Qed.

Lemma update_in_range : forall lo hi pixels labels centers k new_centers,
  update pixels labels centers k = Ok new_centers ->
  length labels = length pixels ->
  Forall (rgb_in_range lo hi) pixels -> Forall (rgb_in_range lo hi) centers ->
  Forall (rgb_in_range lo hi) new_centers.
Proof.
  intros lo hi pixels labels centers k nc H Hlen Hp Hc.
  apply Forall_forall; intros c Hin.
  apply In_nth_error in Hin; destruct Hin as [i Hi].
  assert (Hik : (i < k)%nat).
  { rewrite <- (update_length _ _ _ _ _ H). apply nth_error_Some; congruence. }
  destruct (update_nth_error _ _ _ _ _ i H Hik) as (c' & Hc' & Hnew).
  rewrite Hi in Hc'; inversion Hc'; subst c'; clear Hc'.
  unfold new_center in Hnew.
  destruct (any_label labels i) eqn:Hany.
  - inversion Hnew; subst. apply mean_axis0_in_range.
    + apply members_nonempty; assumption.
    + rewrite Forall_forall in *; intros p Hp'.
      apply Hp, (members_subset _ _ _ _ Hp').
  - apply getitem_Ok in Hnew. rewrite Forall_forall in Hc.
    apply Hc. eapply nth_error_In; eassumption.
Qed.

Lemma lloyd_steps_in_range : forall lo hi pixels k j c c',
  Forall (rgb_in_range lo hi) pixels ->
  lloyd_steps pixels k j c c' ->
  Forall (rgb_in_range lo hi) c -> Forall (rgb_in_range lo hi) c'.
Proof.
  intros lo hi pixels k j c c' Hp; induction 1 as [|j c c' c'' [Hup _] _ IH];
    intros Hc; [assumption|].
  apply IH. eapply update_in_range; try eassumption. apply assign_length.
Qed.

Lemma astype_int_in_range : forall x,
  in_range 0 255 x -> (0 <= F64.astype_int x <= 255)%Z.
Proof.
  intros [q| |] H; simpl in H; try tauto. destruct H as [H0 H255].
  destruct q as [n d]. unfold Qle in H0, H255; simpl in H0, H255.
  unfold F64.astype_int; simpl Qnum; simpl Qden.
  assert (Hn : (0 <= n)%Z) by lia.
  assert (Hq : (0 <= n ÷ Z.pos d <= 255)%Z).
  { rewrite Z.quot_div_nonneg by lia. split.
    - apply Z.div_pos; lia.
    - apply Z.div_le_upper_bound; lia. }
  destruct ((- 2 ^ 63 <=? n ÷ Z.pos d) && (n ÷ Z.pos d <? 2 ^ 63))%Z eqn:E;
    [assumption|].
  apply andb_false_iff in E. destruct E as [E | E].
  - apply Z.leb_gt in E.
    assert ((- 2 ^ 63 < 0)%Z) by reflexivity. lia.
  - apply Z.ltb_ge in E.
    assert ((255 < 2 ^ 63)%Z) by reflexivity. lia.
Qed.

Section RangeOfCenters.

Context {R : NumpyRandom}.

Lemma kmeans_in_range : forall lo hi pixels k m seed centers labels,
  Forall (rgb_in_range lo hi) pixels ->
  kmeans pixels k m seed = Ok (centers, labels) ->
  Forall (rgb_in_range lo hi) centers.
Proof.
  intros lo hi pixels k m seed centers labels Hp H.
  apply kmeans_Ok in H. destruct H as (st & Hrun & Hcen & Hlab).
  apply kmeans_run_Ok in Hrun. destruct Hrun as (c0 & g' & Hinit & Hloop).
  assert (Hc0 : Forall (rgb_in_range lo hi) c0).
  { apply kmeans_plusplus_init_pixels in Hinit.
    rewrite Forall_forall in *; auto. }
  destruct m as [|m].
  { simpl in Hloop; inversion Hloop; subst; discriminate. }
  apply kmeans_loop_spec in Hloop; simpl in Hloop.
  destruct Hloop as (j & prev & new & _ & Hsteps & Hup & _ & _ & Hend).
  pose proof (lloyd_steps_in_range _ _ _ _ _ _ _ Hp Hsteps Hc0) as Hprev.
  rewrite <- Hcen.
  destruct Hend as [[_ ->] | (_ & _ & ->)]; [assumption|].
  eapply update_in_range; try eassumption. apply assign_length.
Qed.

End RangeOfCenters.

(** ** The sort is stable *)

Lemma smaller_not_same : forall x y z v,
  F64.finite x -> F64.finite y -> F64.finite z ->
  F64.ltb y x = true -> F64.leb z y = true -> F64.eqb x v = true ->
  F64.eqb z v = false.
Proof.
  intros x y z v Hx Hy Hz. apply finite_inv in Hx, Hy, Hz.
  destruct Hx as [a ->], Hy as [b ->], Hz as [c ->].
  destruct v as [w| |]; simpl; try discriminate.
  rewrite Qltb_lt, Qle_bool_iff, Qeq_bool_iff. intros Hba Hcb Haw.
  apply not_true_is_false. rewrite Qeq_bool_iff. intros Hcw. lra.
Qed.

(** Inserting an entry into a sorted list leaves the entries of each
    percentage in their order and puts the new one behind them. *)
Lemma insert_desc_filter : forall v x l,
  F64.finite (percentage x) ->
  Forall (fun e => F64.finite (percentage e)) l ->
  StronglySorted desc l ->
  filter (same_percentage v) (insert_desc x l)
  = filter (same_percentage v) l ++ filter (same_percentage v) [x].
Proof.
  intros v x l Hx; induction l as [|y l IH]; intros Hfin Hs;
    [reflexivity|].
  inversion Hfin as [|? ? Hy Hl]; subst.
  inversion Hs as [|? ? Hs' Hall]; subst.
  change (insert_desc x (y :: l))
    with (if F64.ltb (percentage y) (percentage x) then x :: y :: l
          else y :: insert_desc x l).
  destruct (F64.ltb (percentage y) (percentage x)) eqn:E.
  - assert (Hhead : forall r,
              filter (same_percentage v) (x :: r)
              = filter (same_percentage v) [x] ++ filter (same_percentage v) r).
    { intros r. simpl. destruct (same_percentage v x); reflexivity. }
    rewrite Hhead.
    destruct (same_percentage v x) eqn:Ex.
    + assert (Hnone : filter (same_percentage v) (y :: l) = []).
      { assert (Hally : Forall (fun e => same_percentage v e = false) (y :: l)).
        { constructor.
          - unfold same_percentage in *.
            eapply smaller_not_same
              with (x := percentage x) (y := percentage y);
              try eassumption.
            destruct (finite_inv _ Hy) as [b Hb]. rewrite Hb; simpl.
            apply Qle_bool_iff, Qle_refl.
          - rewrite Forall_forall in *. intros z Hz.
            unfold same_percentage in *.
            eapply smaller_not_same
              with (x := percentage x) (y := percentage y);
              try eassumption; auto.
            apply (Hall z Hz). }
        clear -Hally. induction Hally as [|z zs Hz _ IHz]; simpl;
          [reflexivity|]. rewrite Hz; assumption. }
      rewrite Hnone, app_nil_r. reflexivity.
    + assert (Hx0 : filter (same_percentage v) [x] = [])
        by (simpl; rewrite Ex; reflexivity).
      rewrite Hx0, app_nil_r. reflexivity.
  - simpl. destruct (same_percentage v y); rewrite IH by assumption;
      reflexivity.
Qed.

Lemma sort_desc_filter : forall v l,
  Forall (fun e => F64.finite (percentage e)) l ->
  filter (same_percentage v) (sort_desc l) = filter (same_percentage v) l.
Proof.
  intros v l Hfin; unfold sort_desc.
  assert (H : forall acc,
             Forall (fun e => F64.finite (percentage e)) acc ->
             StronglySorted desc acc ->
             filter (same_percentage v)
                    (fold_left (fun acc x => insert_desc x acc) l acc)
             = filter (same_percentage v) acc ++ filter (same_percentage v) l).
  { induction Hfin as [|x l Hx Hl IH]; intros acc Hacc Hs; simpl fold_left.
    - simpl. rewrite app_nil_r; reflexivity.
    - rewrite IH.
      + rewrite insert_desc_filter by assumption.
        rewrite <- app_assoc. f_equal.
        simpl. destruct (same_percentage v x); reflexivity.
      + apply (Permutation_Forall (Permutation_sym (insert_desc_perm x acc))).
        constructor; assumption.
      + apply insert_desc_sorted; assumption. }
  apply (H []); constructor.
Qed.

(** ** The range of the percentages *)

Lemma share_range : forall labels i,
  labels <> [] -> 0 <= share labels i /\ share labels i <= 100.
Proof.
  intros labels i Hne; unfold share.
  pose proof (count_occ_bound Nat.eq_dec i labels) as Hb.
  assert (Hc0 : 0 <= inject_Z (Z.of_nat (count_occ Nat.eq_dec labels i))).
  { change 0 with (inject_Z 0). rewrite <- Zle_Qle. lia. }
  assert (HcT : inject_Z (Z.of_nat (count_occ Nat.eq_dec labels i))
                <= inject_Z (Z.of_nat (length labels))).
  { rewrite <- Zle_Qle. lia. }
  assert (HT : 0 < inject_Z (Z.of_nat (length labels))).
  { change 0 with (inject_Z 0). rewrite <- Zlt_Qlt.
    destruct labels; [congruence | simpl; lia]. }
  set (c := inject_Z (Z.of_nat (count_occ Nat.eq_dec labels i))) in *.
  set (T := inject_Z (Z.of_nat (length labels))) in *.
  change (inject_Z 100) with 100.
  assert (H0 : 0 <= c / T) by (apply Qle_shift_div_l; [assumption | lra]).
  assert (H1 : c / T <= 1) by (apply Qle_shift_div_r; [assumption | lra]).
  split; lra.
Qed.

Lemma aggregate_in_range : forall centers labels k results,
  labels <> [] ->
  aggregate centers labels k = Ok results ->
  Forall (fun e => in_range 0 100 (percentage e)) results.
Proof.
  intros centers labels k results Hne H.
  pose proof (aggregate_percentages _ _ _ _ Hne H) as Hall.
  clear H.
  induction Hall as [|e i es idxs (q & Hq & Hs) _ IH]; [constructor|].
  constructor; [|assumption].
  rewrite Hq; simpl. destruct (share_range labels i Hne) as [H0 H1].
  rewrite Hs; split; assumption.
Qed.

(** In a list sorted by decreasing percentage the entries add up to at most
    the first percentage times their number. *)
Lemma sorted_sum_bound : forall h t,
  Forall (fun e => F64.finite (percentage e)) (h :: t) ->
  StronglySorted desc (h :: t) ->
  Qsum (map qval (map percentage (h :: t)))
  <= inject_Z (Z.of_nat (length (h :: t))) * qval (percentage h).
Proof.
  intros h t Hfin Hs.
  inversion Hfin as [|? ? Hh Ht]; subst.
  inversion Hs as [|? ? _ Hall]; subst.
  apply finite_inv in Hh. destruct Hh as [a Ha].
  assert (Hle : Forall (fun e => qval (percentage e) <= a) t).
  { rewrite Forall_forall in *. intros e He.
    specialize (Hall e He). unfold desc in Hall. rewrite Ha in Hall.
    destruct (finite_inv _ (Ht e He)) as [b Hb]. rewrite Hb in *; simpl in *.
    apply Qle_bool_iff; assumption. }
  assert (Htail : Qsum (map qval (map percentage t))
                  <= inject_Z (Z.of_nat (length t)) * a).
  { clear -Hle. unfold Qsum. induction Hle as [|e es He _ IH].
    - cbn [map Qsum fold_right length]. change (inject_Z (Z.of_nat 0)) with 0.
      rewrite Qmult_0_l. apply Qle_refl.
    - cbn [map Qsum fold_right length] in *.
      rewrite Nat2Z.inj_succ, <- Z.add_1_r, inject_Z_plus.
      change (inject_Z 1) with 1. lra. }
  unfold Qsum in *. cbn [map fold_right length] in *. rewrite Ha. cbn [qval].
  rewrite Nat2Z.inj_succ, <- Z.add_1_r, inject_Z_plus.
  change (inject_Z 1) with 1. lra.
Qed.

(** ** When the clustering and the extraction return *)

Section Outcomes.

Context {R : NumpyRandom}.

Lemma kmeans_outcome : forall pixels k m seed,
  Forall finite_rgb pixels -> (1 <= k)%nat -> (1 <= m)%nat ->
  (has_colours pixels k ->
   exists centers labels,
     kmeans pixels k m seed = Ok (centers, labels) /\
     length centers = k /\ length labels = length pixels) /\
  (~ has_colours pixels k -> kmeans pixels k m seed = Raise ValueError).
Proof.
  intros pixels k m seed Hfp Hk Hm.
  destruct (kmeans_plusplus_init_outcome pixels k (default_rng seed) Hfp Hk)
    as [Hyes Hno].
  split.
  - intros Hc. destruct (Hyes Hc) as (c0 & g' & Hinit & Hlen & _).
    destruct (kmeans_loop_total pixels k m (LoopState c0 None 0) Hlen)
      as [st Hloop].
    destruct m as [|m]; [lia|].
    pose proof Hloop as Hspec. apply kmeans_loop_spec in Hspec.
    destruct Hspec as (j & prev & new & _ & _ & _ & Hlab & _).
    assert (Hkm : kmeans pixels k (S m) seed
                  = Ok (centers_of st, assign pixels prev)).
    { apply kmeans_Ok. exists st. repeat split; [|assumption].
      unfold kmeans_run. rewrite Hinit; simpl. assumption. }
    exists (centers_of st), (assign pixels prev).
    destruct (kmeans_labels _ _ _ _ _ _ Hk Hkm) as (_ & Hc' & Hl & _).
    auto.
  - intros Hc. unfold kmeans, kmeans_run. rewrite (Hno Hc). reflexivity.
Qed.

Lemma extract_colors_from_image_outcome : forall pixels k,
  Forall finite_rgb pixels -> (1 <= k)%nat ->
  (has_colours pixels k ->
   exists results,
     extract_colors_from_image pixels k = Ok results /\
     length results = k) /\
  (~ has_colours pixels k ->
   extract_colors_from_image pixels k = Raise ValueError).
Proof.
  intros pixels k Hfp Hk.
  assert (Hm : (1 <= default_max_iterations)%nat)
    by (unfold default_max_iterations; lia).
  destruct (kmeans_outcome pixels k default_max_iterations
              default_random_state Hfp Hk Hm) as [Hyes Hno].
  split.
  - intros Hc. destruct (Hyes Hc) as (centers & labels & Hkm & _ & _).
    destruct (extract_colors_from_image_total _ _ _ _ Hk Hkm)
      as [results Hres].
    exists results; split; [assumption|].
    apply extract_colors_from_image_Ok in Hres.
    destruct Hres as (c' & l' & unsorted & _ & Hagg & ->).
    rewrite (Permutation_length (sort_desc_perm unsorted)).
    eapply aggregate_length; eassumption.
  - intros Hc. unfold extract_colors_from_image.
    rewrite (Hno Hc). reflexivity.
Qed.

End Outcomes.

(** ** The inertia does not increase *)

Lemma Qsum_le : forall (A : Type) (f g : A -> Q) l,
  (forall a, In a l -> f a <= g a) -> Qsum (map f l) <= Qsum (map g l).
Proof.
  intros A f g; induction l as [|a l IH]; intros H; unfold Qsum in *;
    cbn [map fold_right].
  - apply Qle_refl.
  - assert (Ha : f a <= g a) by (apply H; left; reflexivity).
    assert (Hl : fold_right Qplus 0 (map f l) <= fold_right Qplus 0 (map g l))
      by (apply IH; intros x Hx; apply H; right; assumption).
    lra.
Qed.

Lemma Qsum_eq : forall (A : Type) (f g : A -> Q) l,
  (forall a, In a l -> f a == g a) -> Qsum (map f l) == Qsum (map g l).
Proof.
  intros A f g; induction l as [|a l IH]; intros H; unfold Qsum in *;
    cbn [map fold_right].
  - reflexivity.
  - rewrite (H a (or_introl eq_refl)), IH; [reflexivity|].
    intros x Hx; apply H; right; assumption.
Qed.

Lemma Qsum_plus : forall (A : Type) (f g : A -> Q) l,
  Qsum (map (fun a => f a + g a) l) == Qsum (map f l) + Qsum (map g l).
Proof.
  intros A f g; induction l as [|a l IH]; unfold Qsum in *;
    cbn [map fold_right]; [ring|]. rewrite IH; ring.
Qed.

(** Sum of squared deviations from [c], against those from any [m]. *)
Lemma deviations_identity : forall xs m c,
  Qsum (map (fun x => (x - c) * (x - c)) xs)
  == Qsum (map (fun x => (x - m) * (x - m)) xs)
     + 2 * (m - c) * (Qsum xs - inject_Z (Z.of_nat (length xs)) * m)
     + inject_Z (Z.of_nat (length xs)) * ((m - c) * (m - c)).
Proof.
  induction xs as [|x xs IH]; intros m c; unfold Qsum in *;
    cbn [map fold_right length].
  - change (inject_Z (Z.of_nat 0)) with 0. ring.
  - rewrite (IH m c).
    rewrite Nat2Z.inj_succ, <- Z.add_1_r, inject_Z_plus.
    change (inject_Z 1) with 1. ring.
Qed.

(** The mean minimises the sum of squared deviations. *)
Lemma mean_minimises : forall xs m c,
  xs <> [] ->
  m == Qsum xs / inject_Z (Z.of_nat (length xs)) ->
  Qsum (map (fun x => (x - m) * (x - m)) xs)
  <= Qsum (map (fun x => (x - c) * (x - c)) xs).
Proof.
  intros xs m c Hne Hm.
  assert (Hn : 0 < inject_Z (Z.of_nat (length xs))).
  { change 0 with (inject_Z 0). rewrite <- Zlt_Qlt.
    destruct xs; [congruence | simpl; lia]. }
  rewrite (deviations_identity xs m c).
  set (n := inject_Z (Z.of_nat (length xs))) in *.
  assert (Hz : Qsum xs - n * m == 0).
  { rewrite Hm. field. apply Qpos_neq0; assumption. }
  rewrite Hz.
  assert (Hsq : 0 <= n * ((m - c) * (m - c))).
  { apply Qmult_le_0_compat; [apply Qlt_le_weak; assumption|].
    apply Qsquare_nonneg. }
  lra.
Qed.

Lemma qdist_Fin : forall p c,
  finite_rgb p -> finite_rgb c ->
  qdist p c
  == (qval (red p) - qval (red c)) * (qval (red p) - qval (red c))
     + (qval (green p) - qval (green c)) * (qval (green p) - qval (green c))
     + (qval (blue p) - qval (blue c)) * (qval (blue p) - qval (blue c)).
Proof.
  intros [r g b] [r' g' b'] (Hr & Hg & Hb) (Hr' & Hg' & Hb'); simpl in *.
  apply finite_inv in Hr, Hg, Hb, Hr', Hg', Hb'.
  destruct Hr as [x1 ->], Hg as [x2 ->], Hb as [x3 ->].
  destruct Hr' as [y1 ->], Hg' as [y2 ->], Hb' as [y3 ->].
  change (qdist (RGB (F64.Fin x1) (F64.Fin x2) (F64.Fin x3))
                (RGB (F64.Fin y1) (F64.Fin y2) (F64.Fin y3)))
    with ((x1 + - y1) * (x1 + - y1) + (x2 + - y2) * (x2 + - y2)
          + (x3 + - y3) * (x3 + - y3)).
  cbn [qval red green blue]. ring.
Qed.

Lemma qdist_nonneg : forall p c, finite_rgb p -> finite_rgb c -> 0 <= qdist p c.
Proof.
  intros p c Hp Hc. pose proof (sqdist_nonneg p c Hp Hc) as H.
  unfold qdist. destruct (sqdist p c); simpl in *; tauto.
Qed.

(** A component of the mean row is the mean of that component. *)
Lemma mean_axis0_component : forall rows,
  rows <> [] -> Forall finite_rgb rows ->
  qval (red (mean_axis0 rows))
  == Qsum (map (fun p => qval (red p)) rows)
     / inject_Z (Z.of_nat (length (map (fun p => qval (red p)) rows))) /\
  qval (green (mean_axis0 rows))
  == Qsum (map (fun p => qval (green p)) rows)
     / inject_Z (Z.of_nat (length (map (fun p => qval (green p)) rows))) /\
  qval (blue (mean_axis0 rows))
  == Qsum (map (fun p => qval (blue p)) rows)
     / inject_Z (Z.of_nat (length (map (fun p => qval (blue p)) rows))).
Proof.
  intros rows Hne Hfin.
  assert (Hn : 0 < inject_Z (Z.of_nat (length rows))).
  { change 0 with (inject_Z 0). rewrite <- Zlt_Qlt.
    destruct rows; [congruence | simpl; lia]. }
  assert (Hcomp : forall f : rgb -> float64,
            (forall p, finite_rgb p -> F64.finite (f p)) ->
            qval (F64.div (F64.sum (map f rows)) (F64.of_nat (length rows)))
            == Qsum (map (fun p => qval (f p)) rows)
               / inject_Z (Z.of_nat
                             (length (map (fun p => qval (f p)) rows)))).
  { intros f Hf.
    assert (Hl : Forall F64.finite (map f rows)).
    { rewrite Forall_map. revert Hfin; apply Forall_impl; exact Hf. }
    destruct (sum_Fin _ Hl) as (s & Hs & Hq).
    rewrite Hs. unfold F64.of_nat.
    rewrite div_Fin by (apply Qpos_neq0; exact Hn).
    cbn [qval]. rewrite length_map, Hq, map_map. reflexivity. }
  unfold mean_axis0; cbn [red green blue].
  repeat split; apply Hcomp; intros p (Hr & Hg & Hb); assumption.
Qed.

(** The mean row minimises the total squared distance to the rows. *)
Lemma mean_axis0_minimises : forall rows c,
  rows <> [] -> Forall finite_rgb rows -> finite_rgb c ->
  Qsum (map (fun p => qdist p (mean_axis0 rows)) rows)
  <= Qsum (map (fun p => qdist p c) rows).
Proof.
  intros rows c Hne Hfin Hc.
  pose proof (mean_axis0_finite rows Hne Hfin) as Hm.
  destruct (mean_axis0_component rows Hne Hfin) as (Mr & Mg & Mb).
  set (m := mean_axis0 rows) in *.
  assert (Hsplit : forall z, finite_rgb z ->
    Qsum (map (fun p => qdist p z) rows)
    == Qsum (map (fun x => (x - qval (red z)) * (x - qval (red z)))
                 (map (fun p => qval (red p)) rows))
       + Qsum (map (fun x => (x - qval (green z)) * (x - qval (green z)))
                   (map (fun p => qval (green p)) rows))
       + Qsum (map (fun x => (x - qval (blue z)) * (x - qval (blue z)))
                   (map (fun p => qval (blue p)) rows))).
  { intros z Hz. rewrite !map_map, <- !Qsum_plus.
    apply Qsum_eq. intros p Hp. apply qdist_Fin; [|assumption].
    rewrite Forall_forall in Hfin; auto. }
  rewrite (Hsplit m Hm), (Hsplit c Hc).
  assert (Hne' : forall f : rgb -> Q, map f rows <> []).
  { intros f E. apply map_eq_nil in E. contradiction. }
  pose proof (mean_minimises (map (fun p => qval (red p)) rows)
                (qval (red m)) (qval (red c)) (Hne' _) Mr) as Hr.
  pose proof (mean_minimises (map (fun p => qval (green p)) rows)
                (qval (green m)) (qval (green c)) (Hne' _) Mg) as Hg.
  pose proof (mean_minimises (map (fun p => qval (blue p)) rows)
                (qval (blue m)) (qval (blue c)) (Hne' _) Mb) as Hb.
  lra.
Qed.

Lemma Qsum_zero : forall (A : Type) (l : list A), Qsum (map (fun _ => 0) l) == 0.
Proof.
  intros A; induction l as [|a l IH]; unfold Qsum in *; cbn [map fold_right];
    [reflexivity|]. rewrite IH; reflexivity.
Qed.

Lemma indicator_Qsum : forall (f : nat -> Q) l n a,
  Qsum (map (fun j => if (l =? j)%nat then f j else 0) (seq a n))
  == if ((a <=? l) && (l <? a + n))%nat then f l else 0.
Proof.
  intros f l; induction n as [|n IH]; intros a; unfold Qsum in *;
    cbn [seq map fold_right].
  - destruct (Nat.leb_spec a l); destruct (Nat.ltb_spec l (a + 0));
      simpl; try reflexivity; lia.
  - rewrite (IH (S a)).
    destruct (Nat.eqb_spec l a) as [->|Hne].
    + destruct (Nat.leb_spec (S a) a); [lia|].
      destruct (Nat.leb_spec a a); [|lia].
      destruct (Nat.ltb_spec a (a + S n)); [|lia]. simpl. ring.
    + destruct (Nat.leb_spec a l); destruct (Nat.ltb_spec l (a + S n));
        destruct (Nat.leb_spec (S a) l); destruct (Nat.ltb_spec l (S a + n));
        simpl; try ring; lia.
Qed.

Lemma members_cons : forall p ps l ls j,
  members (p :: ps) (l :: ls) j
  = if (l =? j)%nat then p :: members ps ls j else members ps ls j.
Proof.
  intros p ps l ls j; unfold members; simpl.
  destruct (l =? j)%nat; reflexivity.
Qed.

(** The inertia is the sum of the costs of the clusters. *)
Lemma inertia_by_cluster : forall pixels labels centers,
  Forall (fun l => (l < length centers)%nat) labels ->
  inertia pixels labels centers
  == Qsum (map (cluster_cost pixels labels centers) (seq 0 (length centers))).
Proof.
  intros pixels labels centers; revert labels.
  assert (Hempty : forall ps ls, combine ps ls = [] ->
            Qsum (map (cluster_cost ps ls centers) (seq 0 (length centers)))
            == 0).
  { intros ps ls E. rewrite <- (Qsum_zero nat (seq 0 (length centers))).
    apply Qsum_eq. intros j _. unfold cluster_cost, members. rewrite E.
    destruct (nth_error centers j); reflexivity. }
  induction pixels as [|p ps IH]; intros [|l ls] Hl.
  - rewrite Hempty by reflexivity. reflexivity.
  - rewrite Hempty by reflexivity. reflexivity.
  - rewrite Hempty by reflexivity. reflexivity.
  - inversion Hl as [|? ? Hlk Hls]; subst.
    unfold inertia. cbn [combine map]. unfold Qsum at 1. cbn [fold_right].
    fold (Qsum (map (label_cost centers) (combine ps ls))).
    fold (inertia ps ls centers). rewrite (IH ls Hls).
    transitivity
      (Qsum (map (fun j => if (l =? j)%nat
                           then match nth_error centers j with
                                | Some c => qdist p c
                                | None => 0
                                end
                           else 0) (seq 0 (length centers)))
       + Qsum (map (cluster_cost ps ls centers) (seq 0 (length centers)))).
    + rewrite indicator_Qsum.
      destruct (Nat.leb_spec 0 l); [|lia].
      destruct (Nat.ltb_spec l (0 + length centers)); [|lia].
      simpl andb. cbv iota. unfold label_cost; cbn [fst snd]. reflexivity.
    + rewrite <- Qsum_plus. apply Qsum_eq. intros j _.
      unfold cluster_cost. rewrite members_cons.
      destruct (nth_error centers j) as [c|]; destruct (l =? j)%nat;
        unfold Qsum; cbn [map fold_right]; ring.
Qed.

Lemma leb_qval : forall x y,
  F64.finite x -> F64.finite y -> F64.leb x y = true -> qval x <= qval y.
Proof.
  intros x y Hx Hy. apply finite_inv in Hx, Hy.
  destruct Hx as [a ->], Hy as [b ->]; simpl. apply Qle_bool_iff.
Qed.

(** Updating the centers does not increase the inertia of the labels. *)
Lemma update_improves : forall pixels labels centers new,
  Forall finite_rgb pixels -> Forall finite_rgb centers ->
  length labels = length pixels ->
  Forall (fun l => (l < length centers)%nat) labels ->
  update pixels labels centers (length centers) = Ok new ->
  inertia pixels labels new <= inertia pixels labels centers.
Proof.
  intros pixels labels centers new Hfp Hfc Hlen Hl Hup.
  pose proof (update_length _ _ _ _ _ Hup) as Hnew.
  rewrite (inertia_by_cluster pixels labels centers Hl).
  rewrite (inertia_by_cluster pixels labels new) by (rewrite Hnew; exact Hl).
  rewrite Hnew. apply Qsum_le. intros j Hj. apply in_seq in Hj.
  destruct (update_nth_error _ _ _ _ _ j Hup) as (c' & Hc' & Hnc); [lia|].
  unfold cluster_cost. rewrite Hc'.
  destruct (nth_error centers j) as [c|] eqn:Ec;
    [|apply nth_error_None in Ec; lia].
  unfold new_center in Hnc.
  destruct (any_label labels j) eqn:Hany.
  - inversion Hnc; subst c'. apply mean_axis0_minimises.
    + apply members_nonempty; assumption.
    + rewrite Forall_forall in *. intros p Hp.
      apply Hfp, (members_subset _ _ _ _ Hp).
    + rewrite Forall_forall in Hfc. apply Hfc.
      eapply nth_error_In; eassumption.
  - apply getitem_Ok in Hnc. rewrite Ec in Hnc. inversion Hnc; subst.
    apply Qle_refl.
Qed.

(** Assigning every pixel to its nearest center does not increase the
    inertia. *)
Lemma reassign_improves : forall pixels labels centers,
  Forall finite_rgb pixels -> Forall finite_rgb centers -> centers <> [] ->
  length labels = length pixels ->
  Forall (fun l => (l < length centers)%nat) labels ->
  inertia pixels (assign pixels centers) centers
  <= inertia pixels labels centers.
Proof.
  intros pixels labels centers Hfp Hfc Hne; revert labels.
  induction Hfp as [|p ps Hp Hps IH]; intros [|l ls] Hlen Hl;
    simpl in Hlen; try (exfalso; discriminate).
  - apply Qle_refl.
  - inversion Hl as [|? ? Hlk Hls]; subst.
    unfold inertia, assign. cbn [map combine]. unfold Qsum.
    cbn [fold_right].
    fold (assign ps centers).
    fold (Qsum (map (label_cost centers) (combine ps (assign ps centers)))).
    fold (Qsum (map (label_cost centers) (combine ps ls))).
    fold (inertia ps (assign ps centers) centers).
    fold (inertia ps ls centers).
    assert (Htail := IH ls ltac:(lia) Hls).
    assert (Hhead : label_cost centers (p, argmin (distances_to centers p))
                    <= label_cost centers (p, l)).
    { assert (Hd : distances_to centers p <> [])
        by (destruct centers; [congruence | discriminate]).
      pose proof (distances_to_finite centers p Hfc Hp) as Hdf.
      destruct (argmin_least _ Hd Hdf) as (x & Hx & Hmin).
      unfold label_cost; cbn [fst snd].
      set (a := argmin (distances_to centers p)) in *.
      unfold distances_to in Hx. rewrite nth_error_map in Hx.
      destruct (nth_error centers a) as [cmin|] eqn:Emin; [|discriminate].
      inversion Hx; subst x; clear Hx.
      destruct (nth_error centers l) as [c|] eqn:Ec;
        [|apply nth_error_None in Ec; lia].
      assert (Hy : nth_error (distances_to centers p) l = Some (sqdist p c)).
      { unfold distances_to. rewrite nth_error_map, Ec; reflexivity. }
      destruct (Hmin l _ Hy) as [Hle _].
      rewrite Forall_forall in Hfc.
      apply leb_qval; try assumption;
        apply nonneg_finite, sqdist_nonneg; try assumption;
        apply Hfc; eapply nth_error_In; eassumption. }
    lra.
Qed.

(** One iteration of the loop: updating, then assigning again. *)
Lemma iteration_inertia : forall pixels c c',
  Forall finite_rgb pixels -> Forall finite_rgb c -> c <> [] ->
  update pixels (assign pixels c) c (length c) = Ok c' ->
  inertia pixels (assign pixels c) c' <= inertia pixels (assign pixels c) c /\
  inertia pixels (assign pixels c') c' <= inertia pixels (assign pixels c) c'.
Proof.
  intros pixels c c' Hfp Hfc Hne Hup.
  pose proof (update_length _ _ _ _ _ Hup) as Hlen.
  pose proof (assign_range pixels c Hne) as Hr.
  split.
  - apply update_improves; try assumption. apply assign_length.
  - apply reassign_improves; try assumption.
    + eapply update_finite; try eassumption. apply assign_length.
    + destruct c'; [destruct c; [congruence | discriminate] | discriminate].
    + apply assign_length.
    + rewrite Hlen. assumption.
Qed.

Lemma lloyd_steps_inertia : forall pixels k j c c',
  Forall finite_rgb pixels -> (1 <= k)%nat ->
  lloyd_steps pixels k j c c' ->
  Forall finite_rgb c -> length c = k ->
  inertia pixels (assign pixels c') c' <= inertia pixels (assign pixels c) c.
Proof.
  intros pixels k j c c' Hfp Hk;
    induction 1 as [|j c c' c'' [Hup _] _ IH]; intros Hfc Hlen;
    [apply Qle_refl|].
  assert (Hne : c <> []) by (destruct c; [simpl in Hlen; lia | discriminate]).
  rewrite <- Hlen in Hup.
  destruct (iteration_inertia pixels c c' Hfp Hfc Hne Hup) as [H1 H2].
  rewrite Hlen in Hup.
  assert (H3 := IH ltac:(eapply update_finite; try eassumption;
                         apply assign_length)
                   ltac:(eapply update_length; eassumption)).
  lra.
Qed.

(** ** Facts for the statements below *)

Lemma two_colour_image_colours : has_colours two_colour_image 2.
Proof.
  exists [px 255 0 0; px 0 0 255]. split; [|split; [|reflexivity]].
  - intros x [<- | [<- | []]]; unfold two_colour_image; apply in_or_app;
      [left | right]; left; reflexivity.
  - constructor.
    + constructor; [|constructor]. intros H; vm_compute in H; discriminate.
    + constructor; constructor.
Qed.

Lemma two_colour_image_range : Forall (rgb_in_range 0 255) two_colour_image.
Proof.
  unfold two_colour_image. apply Forall_app; split;
    apply Forall_forall; intros p Hp; apply repeat_spec in Hp; subst;
    repeat split; discriminate.
Qed.

Lemma uniform_image_range : Forall (rgb_in_range 0 255) uniform_image.
Proof.
  apply Forall_forall; intros p Hp; apply repeat_spec in Hp; subst;
    repeat split; discriminate.
Qed.

Lemma two_colour_image_finite : Forall finite_rgb two_colour_image.
Proof.
  pose proof two_colour_image_range as H. revert H. apply Forall_impl.
  apply in_range_finite.
Qed.

Lemma uniform_image_colours : ~ has_colours uniform_image 2.
Proof.
  intros (ws & Hincl & Hd & Hlen).
  destruct ws as [|a [|b [|c ws]]]; try discriminate.
  inversion Hd as [|? ? Hab _]; subst. inversion Hab as [|? ? Hz _]; subst.
  assert (Ha : a = px 10 10 10).
  { specialize (Hincl a (or_introl eq_refl)).
    apply repeat_spec in Hincl; assumption. }
  assert (Hb : b = px 10 10 10).
  { specialize (Hincl b (or_intror (or_introl eq_refl))).
    apply repeat_spec in Hincl; assumption. }
  subst. apply Hz. vm_compute. reflexivity.
Qed.

Lemma prefix_append : forall s1 s2,
  String.prefix s1 s2 = true <-> exists rest, s2 = (s1 ++ rest)%string.
Proof.
  induction s1 as [|a s1 IH]; intros s2.
  - split; [intros _; exists s2; reflexivity|]. intros _.
    destruct s2; reflexivity.
  - destruct s2 as [|b s2]; simpl.
    + split; [discriminate | intros [rest H]; discriminate].
    + destruct (ascii_dec a b) as [->|Hne].
      * rewrite IH. split; intros [rest H]; exists rest.
        -- rewrite H; reflexivity.
        -- inversion H; reflexivity.
      * split; [discriminate|]. intros [rest H]. inversion H; congruence.
Qed.

Lemma is_image_content_type_true : forall content_type,
  is_image_content_type content_type = true <->
  exists rest, content_type = Some ("image/" ++ rest)%string.
Proof.
  intros [s|]; unfold is_image_content_type.
  - rewrite andb_true_iff, negb_true_iff, prefix_append. split.
    + intros [_ [rest ->]]. exists rest; reflexivity.
    + intros [rest H]. inversion H; subst. split; [reflexivity|].
      exists rest; reflexivity.
  - split; [discriminate | intros [rest H]; discriminate].
Qed.

Section ExtractionMore.

Context {R : NumpyRandom}.

(** What a returned list is made of. *)
Lemma extract_colors_from_image_parts : forall pixels k results,
  (1 <= k)%nat ->
  extract_colors_from_image pixels k = Ok results ->
  exists centers labels unsorted,
    kmeans pixels k default_max_iterations default_random_state
      = Ok (centers, labels) /\
    aggregate centers labels k = Ok unsorted /\
    results = sort_desc unsorted /\
    labels <> [] /\ Forall (fun l => (l < k)%nat) labels /\
    length unsorted = k /\
    Forall (fun e => F64.finite (percentage e)) unsorted.
Proof.
  intros pixels k results Hk H.
  apply extract_colors_from_image_Ok in H.
  destruct H as (centers & labels & unsorted & Hkm & Hagg & ->).
  destruct (kmeans_labels _ _ _ _ _ _ Hk Hkm) as (Hpx & _ & Hlen & Hrange).
  assert (Hne : labels <> []).
  { intros ->. destruct pixels; [congruence | discriminate]. }
  exists centers, labels, unsorted.
  repeat (split; [first [assumption | reflexivity]|]).
  split; [eapply aggregate_length; eassumption|].
  destruct (aggregate_sum _ _ _ _ Hne Hrange Hagg) as [Hfin _].
  rewrite Forall_map in Hfin. assumption.
Qed.

End ExtractionMore.

(** ** Rows of an image *)

Lemma uint8_rgb_finite : forall pixels,
  Forall uint8_rgb pixels -> Forall finite_rgb pixels.
Proof.
  intros pixels H. eapply Forall_impl; [|exact H].
  intros p ((r & _ & Hr) & (g & _ & Hg) & (b & _ & Hb)).
  unfold finite_rgb. rewrite Hr, Hg, Hb. repeat split; reflexivity.
Qed.

Lemma px_uint8 : forall r g b,
  (0 <= r <= 255)%Z -> (0 <= g <= 255)%Z -> (0 <= b <= 255)%Z ->
  uint8_rgb (px r g b).
Proof.
  intros r g b Hr Hg Hb. unfold uint8_rgb, px; simpl.
  split; [exists r; auto|]. split; [exists g; auto | exists b; auto].
Qed.

Lemma two_colour_image_uint8 : Forall uint8_rgb two_colour_image.
Proof.
  unfold two_colour_image; simpl.
  repeat (constructor; [apply px_uint8; lia|]). constructor.
Qed.

Lemma uniform_image_uint8 : Forall uint8_rgb uniform_image.
Proof.
  unfold uniform_image; simpl.
  repeat (constructor; [apply px_uint8; lia|]). constructor.
Qed.

Lemma five_pixels_uint8 : Forall uint8_rgb five_pixels.
Proof.
  unfold five_pixels.
  repeat (constructor; [apply px_uint8; lia|]). constructor.
Qed.

(** A share of at least [100 / k] percent is a count of at least
    [len(labels) / k]. *)
Lemma share_count : forall labels i k q,
  labels <> [] -> q == share labels i ->
  100 <= inject_Z (Z.of_nat k) * q ->
  (length labels <= k * count_occ Nat.eq_dec labels i)%nat.
Proof.
  intros labels i k q Hne Hq H. unfold share in Hq.
  set (c := count_occ Nat.eq_dec labels i) in *.
  assert (Hn : 0 < inject_Z (Z.of_nat (length labels))).
  { change 0 with (inject_Z 0). rewrite <- Zlt_Qlt.
    destruct labels; [congruence | simpl; lia]. }
  set (N := inject_Z (Z.of_nat (length labels))) in *.
  set (C := inject_Z (Z.of_nat c)) in *.
  set (K := inject_Z (Z.of_nat k)) in *.
  assert (E : C / N * N == C) by (field; lra).
  assert (Hle : N <= K * C).
  { rewrite Hq in H. change (inject_Z 100) with 100 in H.
    assert (H1 : 1 <= K * (C / N)) by lra.
    assert (H2 : N * 1 <= N * (K * (C / N))).
    { apply Qmult_le_l; assumption. }
    assert (E2 : N * (K * (C / N)) == K * (C / N * N)) by ring.
    rewrite E2, E in H2. lra. }
  unfold N, K, C in Hle. rewrite <- inject_Z_mult, <- Zle_Qle in Hle. lia.
Qed.

(** * More properties of the program *)

(** Property X1 (when the seeding returns).  On the rows of an image,
    whose components are integers between 0 and 255, and for
    [n_clusters >= 1], [kmeans_plusplus_init] returns [n_clusters] centers
    when the pixels hold that many different colours, and raises
    [ValueError] when they do not (an empty array included). *)
Theorem seeding_returns_iff_enough_colours :
  forall (R : NumpyRandom) pixels k (g : Generator),
    Forall uint8_rgb pixels -> (1 <= k)%nat ->
    (has_colours pixels k ->
     exists centers g',
       kmeans_plusplus_init pixels k g = Ok (centers, g') /\
       length centers = k) /\
    (~ has_colours pixels k ->
     kmeans_plusplus_init pixels k g = Raise ValueError).
Proof.
  intros R pixels k g Hu Hk.
  destruct (kmeans_plusplus_init_outcome pixels k g
              (uint8_rgb_finite pixels Hu) Hk) as [Hyes Hno].
  split; [|exact Hno].
  intros Hc. destruct (Hyes Hc) as (centers & g' & H & Hlen & _).
  exists centers, g'; auto.
Qed.

Lemma seeding_returns_iff_enough_colours_witness :
  (Forall uint8_rgb two_colour_image /\ (1 <= 2)%nat /\
   has_colours two_colour_image 2) /\
  exists centers g',
    kmeans_plusplus_init (R := counter_rng) two_colour_image 2 (default_rng 42)
    = Ok (centers, g') /\ length centers = 2%nat.
Proof.
  assert (H1 : (1 <= 2)%nat) by lia.
  split; [split; [exact two_colour_image_uint8 |
                  split; [exact H1 | exact two_colour_image_colours]]|].
  exact (proj1 (seeding_returns_iff_enough_colours counter_rng
                  two_colour_image 2%nat (default_rng 42)
                  two_colour_image_uint8 H1) two_colour_image_colours).
Defined.

(** Property X2 (what the seeding returns).  Whenever
    [kmeans_plusplus_init] returns on finite pixels, it returns
    [max(1, n_clusters)] centers, each a pixel of the input, no two of the
    same colour, the first being the pixel at the index drawn by
    [rng.integers(n_samples)]. *)
Theorem seeding_centers_are_distinct_pixels :
  forall (R : NumpyRandom) pixels k (g : Generator) centers g',
    Forall finite_rgb pixels ->
    kmeans_plusplus_init pixels k g = Ok (centers, g') ->
    length centers = Nat.max 1 k /\
    incl centers pixels /\
    distinct_colours centers /\
    nth_error centers 0
    = nth_error pixels (fst (rng_integers g (length pixels))).
Proof.
  intros R pixels k g centers g' Hfp H.
  pose proof (kmeans_plusplus_init_distinct _ _ _ _ _ Hfp H) as Hd.
  pose proof (kmeans_plusplus_init_pixels _ _ _ _ _ H) as Hin.
  apply kmeans_plusplus_init_Ok in H.
  destruct H as (_ & first & chosen & Hfirst & -> & Hlen & _).
  repeat split.
  - change (length (first :: chosen)) with (S (length chosen)).
    rewrite Hlen. lia.
  - rewrite Forall_forall in Hin. exact Hin.
  - assumption.
  - simpl. symmetry; assumption.
Qed.

Lemma seeding_centers_are_distinct_pixels_witness :
  (Forall finite_rgb five_pixels /\
   kmeans_plusplus_init (R := counter_rng) five_pixels 2 (default_rng 40)
   = Ok ([px 0 0 0; px 6 0 0], 42%nat)) /\
  distinct_colours [px 0 0 0; px 6 0 0].
Proof.
  assert (H1 : Forall finite_rgb five_pixels) by (repeat constructor).
  assert (H2 : kmeans_plusplus_init (R := counter_rng) five_pixels 2
                 (default_rng 40) = Ok ([px 0 0 0; px 6 0 0], 42%nat))
    by (vm_compute; reflexivity).
  split; [split; assumption|].
  exact (proj1 (proj2 (proj2 (seeding_centers_are_distinct_pixels counter_rng
                  five_pixels 2%nat (default_rng 40) _ _ H1 H2)))).
Defined.

(** Property X3 (when [kmeans] returns).  On the rows of an image, whose
    components are integers between 0 and 255, for [n_clusters >= 1] and
    [max_iterations >= 1], [kmeans] returns [n_clusters] centers and one
    label per pixel when the pixels hold [n_clusters] different colours, and
    raises [ValueError] when they do not. *)
Theorem kmeans_returns_iff_enough_colours :
  forall (R : NumpyRandom) pixels k m seed,
    Forall uint8_rgb pixels -> (1 <= k)%nat -> (1 <= m)%nat ->
    (has_colours pixels k ->
     exists centers labels,
       kmeans pixels k m seed = Ok (centers, labels) /\
       length centers = k /\ length labels = length pixels) /\
    (~ has_colours pixels k -> kmeans pixels k m seed = Raise ValueError).
Proof.
  intros R pixels k m seed Hu. apply kmeans_outcome.
  apply uint8_rgb_finite; assumption.
Qed.

Lemma kmeans_returns_iff_enough_colours_witness :
  (Forall uint8_rgb uniform_image /\ (1 <= 2)%nat /\ (1 <= 100)%nat /\
   ~ has_colours uniform_image 2) /\
  kmeans (R := counter_rng) uniform_image 2 100 42 = Raise ValueError.
Proof.
  assert (H1 : Forall uint8_rgb uniform_image) by exact uniform_image_uint8.
  assert (H2 : (1 <= 2)%nat) by lia.
  assert (H3 : (1 <= 100)%nat) by lia.
  split; [repeat split; try assumption; exact uniform_image_colours|].
  exact (proj2 (kmeans_returns_iff_enough_colours counter_rng uniform_image
                  2%nat 100%nat 42%Z H1 H2 H3) uniform_image_colours).
Defined.

(** Property X4 ([max_iterations = 0]).  With no iteration allowed [kmeans]
    never returns: the loop body does not run, [labels] is never bound, and
    the [return] statement raises [UnboundLocalError] whenever the seeding
    has returned. *)
Theorem kmeans_without_iterations_raises :
  forall (R : NumpyRandom) pixels k seed,
    (forall centers labels,
        kmeans pixels k 0 seed <> Ok (centers, labels)) /\
    (forall c0 (g' : Generator),
        kmeans_plusplus_init pixels k (default_rng seed) = Ok (c0, g') ->
        kmeans pixels k 0 seed = Raise UnboundLocalError).
Proof.
  intros R pixels k seed; split.
  - intros centers labels H. apply kmeans_Ok in H.
    destruct H as (st & Hrun & _ & Hlab).
    apply kmeans_run_Ok in Hrun. destruct Hrun as (c0 & g' & _ & Hloop).
    simpl in Hloop. inversion Hloop; subst. discriminate.
  - intros c0 g' H. unfold kmeans, kmeans_run. rewrite H. reflexivity.
Qed.

Lemma kmeans_without_iterations_raises_witness :
  kmeans_plusplus_init (R := counter_rng) five_pixels 2 (default_rng 40)
  = Ok ([px 0 0 0; px 6 0 0], 42%nat) /\
  kmeans (R := counter_rng) five_pixels 2 0 40 = Raise UnboundLocalError.
Proof.
  assert (H : kmeans_plusplus_init (R := counter_rng) five_pixels 2
                (default_rng 40) = Ok ([px 0 0 0; px 6 0 0], 42%nat))
    by (vm_compute; reflexivity).
  split; [exact H|].
  exact (proj2 (kmeans_without_iterations_raises counter_rng five_pixels
                  2%nat 40%Z) _ _ H).
Defined.

(** Property X5 (centers within the range of the pixels).  On the rows of
    an image, whose components are integers between 0 and 255: when every
    component of every pixel lies between [lo] and [hi], so does every
    component of every center [kmeans] returns.  A center is a pixel or the
    mean of pixels, and the sums behind the means are integers. *)
Theorem centers_within_pixel_range :
  forall (R : NumpyRandom) lo hi pixels k m seed centers labels,
    Forall uint8_rgb pixels ->
    Forall (rgb_in_range lo hi) pixels ->
    kmeans pixels k m seed = Ok (centers, labels) ->
    Forall (rgb_in_range lo hi) centers.
Proof.
  intros R lo hi pixels k m seed centers labels _. apply kmeans_in_range.
Qed.

Lemma centers_within_pixel_range_witness :
  (Forall uint8_rgb five_pixels /\
   Forall (rgb_in_range 0 20) five_pixels /\
   kmeans (R := counter_rng) five_pixels 2 1 40
   = Ok ([RGB (F64.Fin (1 # 2)) (F64.Fin (0 # 2)) (F64.Fin (0 # 2));
          RGB (F64.Fin (31 # 3)) (F64.Fin (0 # 3)) (F64.Fin (0 # 3))],
         [0; 0; 1; 1; 1]%nat)) /\
  Forall (rgb_in_range 0 20)
         [RGB (F64.Fin (1 # 2)) (F64.Fin (0 # 2)) (F64.Fin (0 # 2));
          RGB (F64.Fin (31 # 3)) (F64.Fin (0 # 3)) (F64.Fin (0 # 3))].
Proof.
  assert (H0 : Forall uint8_rgb five_pixels) by exact five_pixels_uint8.
  assert (H1 : Forall (rgb_in_range 0 20) five_pixels).
  { repeat constructor; discriminate. }
  assert (H2 : kmeans (R := counter_rng) five_pixels 2 1 40
   = Ok ([RGB (F64.Fin (1 # 2)) (F64.Fin (0 # 2)) (F64.Fin (0 # 2));
          RGB (F64.Fin (31 # 3)) (F64.Fin (0 # 3)) (F64.Fin (0 # 3))],
         [0; 0; 1; 1; 1]%nat)) by (vm_compute; reflexivity).
  split; [repeat split; assumption|].
  exact (centers_within_pixel_range counter_rng 0 20 five_pixels 2%nat 1%nat
           40%Z _ _ H0 H1 H2).
Defined.

(** Property X6 (an iteration does not increase the inertia).  In one
    iteration of the loop of [kmeans] on finite pixels and [k >= 1] finite
    centers, the update phase does not increase the total squared distance
    of the pixels to the centers of their labels, and neither does the next
    assignment phase.  The arithmetic is exact here; rounding is not
    modelled. *)
Theorem iteration_does_not_increase_inertia :
  forall pixels k c c',
    Forall finite_rgb pixels -> Forall finite_rgb c ->
    (1 <= k)%nat -> length c = k ->
    update pixels (assign pixels c) c k = Ok c' ->
    inertia pixels (assign pixels c) c' <= inertia pixels (assign pixels c) c /\
    inertia pixels (assign pixels c') c'
    <= inertia pixels (assign pixels c) c'.
Proof.
  intros pixels k c c' Hfp Hfc Hk Hlen Hup.
  assert (Hne : c <> []) by (destruct c; [simpl in Hlen; lia | discriminate]).
  rewrite <- Hlen in Hup. apply iteration_inertia; assumption.
Qed.

Lemma iteration_does_not_increase_inertia_witness :
  let c := [px 0 0 0; px 6 0 0] in
  let c' := [RGB (F64.Fin (1 # 2)) (F64.Fin (0 # 2)) (F64.Fin (0 # 2));
             RGB (F64.Fin (31 # 3)) (F64.Fin (0 # 3)) (F64.Fin (0 # 3))] in
  (Forall finite_rgb five_pixels /\ Forall finite_rgb c /\
   (1 <= 2)%nat /\ length c = 2%nat /\
   update five_pixels (assign five_pixels c) c 2 = Ok c') /\
  inertia five_pixels (assign five_pixels c) c'
  <= inertia five_pixels (assign five_pixels c) c.
Proof.
  intros c c'.
  assert (H1 : Forall finite_rgb five_pixels) by (repeat constructor).
  assert (H2 : Forall finite_rgb c) by (repeat constructor).
  assert (H3 : (1 <= 2)%nat) by lia.
  assert (H4 : length c = 2%nat) by reflexivity.
  assert (H5 : update five_pixels (assign five_pixels c) c 2 = Ok c')
    by (vm_compute; reflexivity).
  split; [repeat split; assumption|].
  exact (proj1 (iteration_does_not_increase_inertia five_pixels 2%nat c c'
                  H1 H2 H3 H4 H5)).
Defined.

(** Property X7 (the result is no worse than the seeding).  The centers and
    labels [kmeans] returns on finite pixels have an inertia no greater
    than that of the seeded centers with their nearest-center labels,
    whether the loop left by convergence or at the cap.  The arithmetic is
    exact here; rounding is not modelled. *)
Theorem kmeans_inertia_at_most_initial :
  forall (R : NumpyRandom) pixels k m seed centers labels,
    Forall finite_rgb pixels -> (1 <= k)%nat ->
    kmeans pixels k m seed = Ok (centers, labels) ->
    exists c0 (g' : Generator),
      kmeans_plusplus_init pixels k (default_rng seed) = Ok (c0, g') /\
      inertia pixels labels centers <= inertia pixels (assign pixels c0) c0.
Proof.
  intros R pixels k m seed centers labels Hfp Hk H.
  apply kmeans_Ok in H. destruct H as (st & Hrun & Hcen & Hlab).
  apply kmeans_run_Ok in Hrun. destruct Hrun as (c0 & g' & Hinit & Hloop).
  exists c0, g'. split; [assumption|].
  assert (Hc0 : Forall finite_rgb c0).
  { apply kmeans_plusplus_init_pixels in Hinit.
    rewrite Forall_forall in *; auto. }
  pose proof (kmeans_plusplus_init_length _ _ _ _ _ Hinit Hk) as Hlen0.
  destruct m as [|m].
  { simpl in Hloop; inversion Hloop; subst; discriminate. }
  apply kmeans_loop_spec in Hloop; simpl in Hloop.
  destruct Hloop as (j & prev & new & _ & Hsteps & Hup & Hlab' & _ & Hend).
  rewrite Hlab in Hlab'; inversion Hlab'; subst labels.
  pose proof (lloyd_steps_inertia _ _ _ _ _ Hfp Hk Hsteps Hc0 Hlen0) as Hj.
  rewrite <- Hcen.
  destruct Hend as [[_ ->] | (_ & _ & ->)]; [assumption|].
  pose proof (lloyd_steps_finite _ _ _ _ _ Hfp Hsteps Hc0) as Hfprev.
  pose proof (lloyd_steps_length _ _ _ _ _ Hsteps Hlen0) as Hlprev.
  assert (Hne : prev <> [])
    by (destruct prev; [simpl in Hlprev; lia | discriminate]).
  rewrite <- Hlprev in Hup.
  destruct (iteration_inertia pixels prev new Hfp Hfprev Hne Hup) as [H1 _].
  lra.
Qed.

Lemma kmeans_inertia_at_most_initial_witness :
  (Forall finite_rgb five_pixels /\ (1 <= 2)%nat /\
   kmeans (R := counter_rng) five_pixels 2 1 40
   = Ok ([RGB (F64.Fin (1 # 2)) (F64.Fin (0 # 2)) (F64.Fin (0 # 2));
          RGB (F64.Fin (31 # 3)) (F64.Fin (0 # 3)) (F64.Fin (0 # 3))],
         [0; 0; 1; 1; 1]%nat)) /\
  exists c0,
    inertia five_pixels [0; 0; 1; 1; 1]%nat
            [RGB (F64.Fin (1 # 2)) (F64.Fin (0 # 2)) (F64.Fin (0 # 2));
             RGB (F64.Fin (31 # 3)) (F64.Fin (0 # 3)) (F64.Fin (0 # 3))]
    <= inertia five_pixels (assign five_pixels c0) c0.
Proof.
  assert (H1 : Forall finite_rgb five_pixels) by (repeat constructor).
  assert (H2 : (1 <= 2)%nat) by lia.
  assert (H3 : kmeans (R := counter_rng) five_pixels 2 1 40
   = Ok ([RGB (F64.Fin (1 # 2)) (F64.Fin (0 # 2)) (F64.Fin (0 # 2));
          RGB (F64.Fin (31 # 3)) (F64.Fin (0 # 3)) (F64.Fin (0 # 3))],
         [0; 0; 1; 1; 1]%nat)) by (vm_compute; reflexivity).
  split; [repeat split; assumption|].
  destruct (kmeans_inertia_at_most_initial counter_rng five_pixels 2%nat
              1%nat 40%Z _ _ H1 H2 H3) as (c0 & g' & _ & Hle).
  exists c0; exact Hle.
Defined.

(** Property X8 (when the extraction returns).  On finite pixels and for
    [num_colors >= 1], [extract_colors_from_image] returns a list of
    exactly [num_colors] entries when the pixels hold [num_colors]
    different colours, and raises [ValueError] when they do not: an image
    of fewer colours than asked for is not answered with fewer entries. *)
Theorem extraction_returns_iff_enough_colours :
  forall (R : NumpyRandom) pixels k,
    Forall finite_rgb pixels -> (1 <= k)%nat ->
    (has_colours pixels k ->
     exists results,
       extract_colors_from_image pixels k = Ok results /\
       length results = k) /\
    (~ has_colours pixels k ->
     extract_colors_from_image pixels k = Raise ValueError).
Proof.
  intros R pixels k. apply extract_colors_from_image_outcome.
Qed.

Lemma extraction_returns_iff_enough_colours_witness :
  (Forall finite_rgb two_colour_image /\ (1 <= 2)%nat /\
   has_colours two_colour_image 2) /\
  exists results,
    extract_colors_from_image (R := counter_rng) two_colour_image 2
    = Ok results /\ length results = 2%nat.
Proof.
  assert (H1 : (1 <= 2)%nat) by lia.
  split; [split; [exact two_colour_image_finite |
                  split; [exact H1 | exact two_colour_image_colours]]|].
  exact (proj1 (extraction_returns_iff_enough_colours counter_rng
                  two_colour_image 2%nat two_colour_image_finite H1)
               two_colour_image_colours).
Defined.

(** Property X9 (range of the percentages).  Every percentage
    [extract_colors_from_image] returns is a finite value between 0 and
    100. *)
Theorem percentages_between_0_and_100 :
  forall (R : NumpyRandom) pixels k results,
    (1 <= k)%nat ->
    extract_colors_from_image pixels k = Ok results ->
    Forall (fun e => in_range 0 100 (percentage e)) results.
Proof.
  intros R pixels k results Hk H.
  destruct (extract_colors_from_image_parts pixels k results Hk H)
    as (centers & labels & unsorted & _ & Hagg & -> & Hne & _).
  apply (Permutation_Forall (Permutation_sym (sort_desc_perm unsorted))).
  eapply aggregate_in_range; eassumption.
Qed.

Lemma percentages_between_0_and_100_witness :
  ((1 <= 2)%nat /\
   extract_colors_from_image (R := counter_rng) two_colour_image 2
   = Ok two_colours_extracted) /\
  Forall (fun e => in_range 0 100 (percentage e)) two_colours_extracted.
Proof.
  assert (H1 : (1 <= 2)%nat) by lia.
  assert (H2 : extract_colors_from_image (R := counter_rng) two_colour_image 2
               = Ok two_colours_extracted) by (vm_compute; reflexivity).
  split; [split; assumption|].
  exact (percentages_between_0_and_100 counter_rng two_colour_image 2%nat _
           H1 H2).
Defined.

(** Property X10 (the cluster behind the first colour).  The list
    [extract_colors_from_image] returns is not empty, and the percentage of
    its first entry, the dominant colour, is the percentage lines 115 to 119
    compute for a cluster that holds at least [len(pixels) / num_colors] of
    the pixels.  The bound is on the count of the labels, not on the
    quotient the program forms from it. *)
Theorem dominant_colour_share :
  forall (R : NumpyRandom) pixels k results,
    (1 <= k)%nat ->
    extract_colors_from_image pixels k = Ok results ->
    exists first rest centers labels j,
      results = first :: rest /\
      kmeans pixels k default_max_iterations default_random_state
        = Ok (centers, labels) /\
      (j < k)%nat /\
      cluster_percentage (unique labels) (unique_counts labels)
                         (length labels) j = Ok (percentage first) /\
      (length pixels <= k * count_occ Nat.eq_dec labels j)%nat.
Proof.
  intros R pixels k results Hk H.
  destruct (extract_colors_from_image_parts pixels k results Hk H)
    as (centers & labels & unsorted & Hkm & Hagg & -> & Hne & Hrange & Hlen
        & Hfin).
  pose proof (sort_desc_perm unsorted) as Hperm.
  assert (Hfin' : Forall (fun e => F64.finite (percentage e))
                         (sort_desc unsorted)).
  { apply (Permutation_Forall (Permutation_sym Hperm)). assumption. }
  pose proof (sort_desc_sorted unsorted Hfin) as Hs.
  destruct (aggregate_sum _ _ _ _ Hne Hrange Hagg) as [_ Hsum].
  assert (Hsum' : Qsum (map qval (map percentage (sort_desc unsorted))) == 100).
  { rewrite <- Hsum. apply Qsum_Permutation.
    do 2 apply Permutation_map. assumption. }
  assert (Hlen' : length (sort_desc unsorted) = k).
  { rewrite (Permutation_length Hperm). assumption. }
  destruct (sort_desc unsorted) as [|first rest]; [simpl in Hlen'; lia|].
  pose proof (sorted_sum_bound first rest Hfin' Hs) as Hb.
  rewrite Hlen', Hsum' in Hb.
  assert (Hin : In first unsorted).
  { apply (Permutation_in _ Hperm). left; reflexivity. }
  destruct (In_nth_error _ _ Hin) as [j Hj].
  destruct (aggregate_nth_error _ _ _ _ _ _ Hagg Hj) as [Hjk Hone].
  apply extract_one_Ok in Hone. destruct Hone as (c & _ & _ & Hpct).
  destruct (cluster_percentage_share labels j Hne) as (q & Hq & Hshare).
  assert (Hfq : percentage first = F64.Fin q) by congruence.
  rewrite Hfq in Hb; cbn [qval] in Hb.
  destruct (kmeans_labels _ _ _ _ _ _ Hk Hkm) as (_ & _ & Hl & _).
  exists first, rest, centers, labels, j.
  repeat split; try assumption.
  rewrite <- Hl. eapply share_count; eassumption.
Qed.

Lemma dominant_colour_share_witness :
  ((1 <= 2)%nat /\
   extract_colors_from_image (R := counter_rng) two_colour_image 2
   = Ok two_colours_extracted) /\
  exists first rest centers labels j,
    two_colours_extracted = first :: rest /\
    kmeans (R := counter_rng) two_colour_image 2 default_max_iterations
           default_random_state = Ok (centers, labels) /\
    (j < 2)%nat /\
    cluster_percentage (unique labels) (unique_counts labels)
                       (length labels) j = Ok (percentage first) /\
    (length two_colour_image <= 2 * count_occ Nat.eq_dec labels j)%nat.
Proof.
  assert (H1 : (1 <= 2)%nat) by lia.
  assert (H2 : extract_colors_from_image (R := counter_rng) two_colour_image 2
               = Ok two_colours_extracted) by (vm_compute; reflexivity).
  split; [split; assumption|].
  exact (dominant_colour_share counter_rng two_colour_image 2%nat _ H1 H2).
Defined.

(** Property X11 (the clamp on an image).  When every component of every
    pixel lies between 0 and 255, as in an RGB image, so does every center,
    and the clamp of lines 108 to 110 changes nothing: each colour returned
    is the hexadecimal writing of the truncated components of its
    center. *)
Theorem clamp_is_identity_on_images :
  forall (R : NumpyRandom) pixels k results,
    Forall (rgb_in_range 0 255) pixels -> (1 <= k)%nat ->
    extract_colors_from_image pixels k = Ok results ->
    exists centers labels unsorted,
      kmeans pixels k default_max_iterations default_random_state
        = Ok (centers, labels) /\
      aggregate centers labels k = Ok unsorted /\
      Permutation unsorted results /\
      forall i e, nth_error unsorted i = Some e ->
        exists c,
          nth_error centers i = Some c /\
          rgb_in_range 0 255 c /\
          clamp (F64.astype_int (red c)) = F64.astype_int (red c) /\
          clamp (F64.astype_int (green c)) = F64.astype_int (green c) /\
          clamp (F64.astype_int (blue c)) = F64.astype_int (blue c) /\
          hex e = hex_color (F64.astype_int (red c))
                            (F64.astype_int (green c))
                            (F64.astype_int (blue c)).
Proof.
  intros R pixels k results Hp Hk H.
  destruct (extract_colors_from_image_parts pixels k results Hk H)
    as (centers & labels & unsorted & Hkm & Hagg & -> & _).
  pose proof (kmeans_in_range _ _ _ _ _ _ _ _ Hp Hkm) as Hc.
  exists centers, labels, unsorted.
  split; [assumption|]. split; [assumption|].
  split; [apply Permutation_sym, sort_desc_perm|].
  intros i e Hi.
  destruct (aggregate_nth_error _ _ _ _ _ _ Hagg Hi) as [_ Hone].
  apply extract_one_Ok in Hone. destruct Hone as (c & Hci & Hhex & _).
  assert (Hcr : rgb_in_range 0 255 c).
  { rewrite Forall_forall in Hc. apply Hc.
    eapply nth_error_In; eassumption. }
  destruct Hcr as (Hr & Hg & Hb).
  pose proof (astype_int_in_range _ Hr) as Zr.
  pose proof (astype_int_in_range _ Hg) as Zg.
  pose proof (astype_int_in_range _ Hb) as Zb.
  assert (Er : clamp (F64.astype_int (red c)) = F64.astype_int (red c))
    by (unfold clamp; lia).
  assert (Eg : clamp (F64.astype_int (green c)) = F64.astype_int (green c))
    by (unfold clamp; lia).
  assert (Eb : clamp (F64.astype_int (blue c)) = F64.astype_int (blue c))
    by (unfold clamp; lia).
  exists c. repeat split; try assumption.
  rewrite Hhex, Er, Eg, Eb. reflexivity.
Qed.

Lemma clamp_is_identity_on_images_witness :
  (Forall (rgb_in_range 0 255) two_colour_image /\ (1 <= 2)%nat /\
   extract_colors_from_image (R := counter_rng) two_colour_image 2
   = Ok two_colours_extracted) /\
  exists unsorted, Permutation unsorted two_colours_extracted.
Proof.
  assert (H1 : (1 <= 2)%nat) by lia.
  assert (H2 : extract_colors_from_image (R := counter_rng) two_colour_image 2
               = Ok two_colours_extracted) by (vm_compute; reflexivity).
  split; [split; [exact two_colour_image_range | split; assumption]|].
  destruct (clamp_is_identity_on_images counter_rng two_colour_image 2%nat _
              two_colour_image_range H1 H2)
    as (centers & labels & unsorted & _ & _ & Hperm & _).
  exists unsorted; exact Hperm.
Defined.

(** Property X12 (order of equal percentages).  The sort of line 124 is
    stable: the entries that report the same percentage come out in the
    order of their cluster indices, for every percentage. *)
Theorem ties_keep_cluster_order :
  forall (R : NumpyRandom) pixels k results,
    (1 <= k)%nat ->
    extract_colors_from_image pixels k = Ok results ->
    exists centers labels unsorted,
      kmeans pixels k default_max_iterations default_random_state
        = Ok (centers, labels) /\
      aggregate centers labels k = Ok unsorted /\
      forall v,
        filter (same_percentage v) results
        = filter (same_percentage v) unsorted.
Proof.
  intros R pixels k results Hk H.
  destruct (extract_colors_from_image_parts pixels k results Hk H)
    as (centers & labels & unsorted & Hkm & Hagg & -> & _ & _ & _ & Hfin).
  exists centers, labels, unsorted.
  split; [assumption|]. split; [assumption|].
  intros v. apply sort_desc_filter; assumption.
Qed.

Lemma ties_keep_cluster_order_witness :
  ((1 <= 2)%nat /\
   extract_colors_from_image (R := counter_rng) balanced_image 2
   = Ok balanced_extracted) /\
  exists unsorted,
    aggregate [px 255 0 0; px 0 0 255]
              (repeat 0%nat 5 ++ repeat 1%nat 5) 2 = Ok unsorted /\
    filter (same_percentage (F64.Fin 50)) balanced_extracted
    = filter (same_percentage (F64.Fin 50)) unsorted.
Proof.
  assert (H1 : (1 <= 2)%nat) by lia.
  assert (H2 : extract_colors_from_image (R := counter_rng) balanced_image 2
               = Ok balanced_extracted) by (vm_compute; reflexivity).
  split; [split; assumption|].
  destruct (ties_keep_cluster_order counter_rng balanced_image 2%nat _
              H1 H2) as (centers & labels & unsorted & Hkm & Hagg & Hv).
  assert (Hkm' : kmeans (R := counter_rng) balanced_image 2
                   default_max_iterations default_random_state
                 = Ok ([px 255 0 0; px 0 0 255],
                       repeat 0%nat 5 ++ repeat 1%nat 5))
    by (vm_compute; reflexivity).
  rewrite Hkm' in Hkm. inversion Hkm; subst centers labels.
  exists unsorted; split; [exact Hagg | apply Hv].
Defined.

Section EndpointFacts.

Context {R : NumpyRandom} {P : ImageLibrary}.

(** The answers of the endpoint to a request it does not reject at once. *)
Lemma extract_colors_image : forall content_type contents k,
  is_image_content_type content_type = true ->
  extract_colors content_type contents k
  = match image_open contents with
    | None => HTTPException 400 "Failed to process image"
    | Some image =>
        match load_pixels image with
        | None => HTTPException 400 "Failed to process image"
        | Some pixels =>
            match extract_colors_from_image pixels k with
            | Ok colors => ColorExtractionResponse colors
            | Raise _ => HTTPException 400 "Failed to process image"
            end
        end
    end.
Proof.
  intros content_type contents k H; unfold extract_colors.
  rewrite H; reflexivity.
Qed.

Lemma extract_colors_response : forall content_type contents k colors,
  extract_colors content_type contents k = ColorExtractionResponse colors ->
  is_image_content_type content_type = true /\
  exists image pixels,
    image_open contents = Some image /\
    load_pixels image = Some pixels /\
    extract_colors_from_image pixels k = Ok colors.
Proof.
  intros content_type contents k colors H.
  destruct (is_image_content_type content_type) eqn:E;
    [|unfold extract_colors in H; rewrite E in H; discriminate].
  split; [reflexivity|].
  rewrite (extract_colors_image _ _ _ E) in H.
  destruct (image_open contents) as [image|] eqn:Eo; [|discriminate].
  destruct (load_pixels image) as [pixels|] eqn:El; [|discriminate].
  destruct (extract_colors_from_image pixels k) as [cs|e] eqn:Ex;
    [|discriminate].
  inversion H; subst. exists image, pixels. auto.
Qed.

End EndpointFacts.

(** Property X13 (rejected content types).  The endpoint answers
    [400 File must be an image] exactly to the requests whose content type
    is missing or does not start with ["image/"], whatever the file
    holds. *)
Theorem non_image_content_type_rejected :
  forall (R : NumpyRandom) (P : ImageLibrary) content_type contents k,
    extract_colors content_type contents k
    = HTTPException 400 "File must be an image" <->
    ~ exists rest, content_type = Some ("image/" ++ rest)%string.
Proof.
  intros R P content_type contents k.
  rewrite <- is_image_content_type_true.
  destruct (is_image_content_type content_type) eqn:E.
  - rewrite (extract_colors_image _ _ _ E). split; [|congruence].
    intros H. exfalso.
    destruct (image_open contents) as [image|]; [|discriminate].
    destruct (load_pixels image) as [pixels|]; [|discriminate].
    destruct (extract_colors_from_image pixels k); discriminate.
  - unfold extract_colors. rewrite E. simpl. split; [discriminate|].
    reflexivity.
Qed.

(** Property X14 (the answer, by the colours of the image).  For a request
    with an image content type whose file decodes, and [num_colors >= 1],
    the endpoint answers with exactly [num_colors] colours when the resized
    image holds [num_colors] different colours, and with
    [400 Failed to process image] when it does not: so for every image of
    a single colour. *)
Theorem endpoint_answer_by_colours :
  forall (R : NumpyRandom) (P : ImageLibrary)
         content_type contents k image pixels,
    is_image_content_type content_type = true ->
    image_open contents = Some image ->
    load_pixels image = Some pixels ->
    (1 <= k)%nat ->
    (has_colours pixels k ->
     exists colors,
       extract_colors content_type contents k
       = ColorExtractionResponse colors /\
       length colors = k) /\
    (~ has_colours pixels k ->
     extract_colors content_type contents k
     = HTTPException 400 "Failed to process image").
Proof.
  intros R P content_type contents k image pixels Hct Hopen Hload Hk.
  rewrite (extract_colors_image _ _ _ Hct), Hopen, Hload.
  assert (Hfp : Forall finite_rgb pixels).
  { pose proof (load_pixels_range image pixels Hload) as Hr.
    revert Hr. apply Forall_impl. apply in_range_finite. }
  destruct (extract_colors_from_image_outcome pixels k Hfp Hk) as [Hyes Hno].
  split.
  - intros Hc. destruct (Hyes Hc) as (results & -> & Hlen).
    exists results; auto.
  - intros Hc. rewrite (Hno Hc). reflexivity.
Qed.

Lemma endpoint_answer_by_colours_witness :
  let P := fixed_image_library uniform_image uniform_image_range in
  (is_image_content_type (Some "image/png"%string) = true /\
   image_open (ImageLibrary := P) [Byte.x00] = Some tt /\
   load_pixels (ImageLibrary := P) tt = Some uniform_image /\
   (1 <= 2)%nat /\ ~ has_colours uniform_image 2) /\
  extract_colors (R := counter_rng) (P := P) (Some "image/png"%string)
                 [Byte.x00] 2
  = HTTPException 400 "Failed to process image".
Proof.
  intros P.
  assert (H1 : is_image_content_type (Some "image/png"%string) = true)
    by reflexivity.
  assert (H2 : image_open (ImageLibrary := P) [Byte.x00] = Some tt)
    by reflexivity.
  assert (H3 : load_pixels (ImageLibrary := P) tt = Some uniform_image)
    by reflexivity.
  assert (H4 : (1 <= 2)%nat) by lia.
  split; [repeat split; try assumption; exact uniform_image_colours|].
  exact (proj2 (endpoint_answer_by_colours counter_rng P
                  (Some "image/png"%string) [Byte.x00] 2%nat tt
                  uniform_image H1 H2 H3 H4) uniform_image_colours).
Defined.

(** Property X15 (what a response holds).  Whenever the endpoint answers
    with colours for [num_colors >= 1], the content type started with
    ["image/"], and the list holds exactly [num_colors] entries in
    non-increasing order of percentage, each percentage between 0 and 100,
    their sum 100 (exactly, rounding not being modelled), and each colour a
    ["#rrggbb"] string that reads back as three values between 0 and
    255. *)
Theorem endpoint_response_well_formed :
  forall (R : NumpyRandom) (P : ImageLibrary) content_type contents k colors,
    (1 <= k)%nat ->
    extract_colors content_type contents k = ColorExtractionResponse colors ->
    (exists rest, content_type = Some ("image/" ++ rest)%string) /\
    length colors = k /\
    StronglySorted desc colors /\
    Forall (fun e => in_range 0 100 (percentage e)) colors /\
    F64.equiv (F64.sum (map percentage colors)) (F64.of_Z 100) /\
    Forall (fun e => exists r g b,
                parse_hex_color (hex e) = Some (r, g, b) /\
                (0 <= r <= 255)%Z /\ (0 <= g <= 255)%Z /\ (0 <= b <= 255)%Z)
           colors.
Proof.
  intros R P content_type contents k colors Hk H.
  apply extract_colors_response in H.
  destruct H as (Hct & image & pixels & _ & _ & Hex).
  split; [apply is_image_content_type_true; assumption|].
  destruct (extract_colors_from_image_parts pixels k colors Hk Hex)
    as (centers & labels & unsorted & _ & Hagg & -> & Hne & Hrange & Hlen
        & Hfin).
  pose proof (sort_desc_perm unsorted) as Hperm.
  split; [rewrite (Permutation_length Hperm); assumption|].
  split; [apply sort_desc_sorted; assumption|].
  split.
  { apply (Permutation_Forall (Permutation_sym Hperm)).
    eapply aggregate_in_range; eassumption. }
  split.
  { destruct (aggregate_sum _ _ _ _ Hne Hrange Hagg) as [Hf Hsum].
    assert (Hf' : Forall F64.finite (map percentage (sort_desc unsorted))).
    { eapply Permutation_Forall; [|exact Hf].
      apply Permutation_map, Permutation_sym; assumption. }
    destruct (sum_Fin _ Hf') as (s & -> & Hs); simpl.
    rewrite Hs, <- Hsum. apply Qsum_Permutation.
    do 2 apply Permutation_map. assumption. }
  apply (Permutation_Forall (Permutation_sym Hperm)).
  apply Forall_forall. intros e He.
  apply In_nth_error in He. destruct He as [i Hi].
  destruct (aggregate_nth_error _ _ _ _ _ _ Hagg Hi) as [_ Hone].
  apply extract_one_Ok in Hone. destruct Hone as (c & _ & Hhex & _).
  exists (clamp (F64.astype_int (red c))),
    (clamp (F64.astype_int (green c))), (clamp (F64.astype_int (blue c))).
  rewrite Hhex.
  split; [apply parse_hex_color_format; apply clamp_range|].
  repeat split; apply clamp_range.
Qed.

Lemma endpoint_response_well_formed_witness :
  let P := fixed_image_library two_colour_image two_colour_image_range in
  ((1 <= 2)%nat /\
   extract_colors (R := counter_rng) (P := P) (Some "image/png"%string)
                  [Byte.x00] 2
   = ColorExtractionResponse two_colours_extracted) /\
  length two_colours_extracted = 2%nat /\
  StronglySorted desc two_colours_extracted.
Proof.
  intros P.
  assert (H1 : (1 <= 2)%nat) by lia.
  assert (H2 : extract_colors (R := counter_rng) (P := P)
                 (Some "image/png"%string) [Byte.x00] 2
               = ColorExtractionResponse two_colours_extracted)
    by (vm_compute; reflexivity).
  split; [split; assumption|].
  destruct (endpoint_response_well_formed counter_rng P
              (Some "image/png"%string) [Byte.x00] 2%nat _ H1 H2)
    as (_ & Hlen & Hs & _).
  split; assumption.
Defined.
